(** * WebhookRelay: trace protocol, entry-point handler, header sanitizer,
      path resolution and relay identity

    A shallow embedding of the Go sources of WebhookRelay
    ([internal/server], [internal/relay], [internal/config]) together with
    the parts of the Go standard library they call ([strings], [path],
    [net/textproto], [encoding/base32], [crypto/sha256]).

    Go strings are byte strings: they are modelled by [string], whose
    characters ([ascii]) are the 256 byte values. *)

From Stdlib Require Import ZArith Ascii String List Bool Lia.
From stdpp Require Import base list strings gmap fin_maps.

Local Open Scope char_scope.
Local Open Scope stdpp_scope.

(** ** Byte strings *)

Module Str.

(** String reversal, used to describe operations that work from the end
    of a string. *)
Fixpoint rev (s : string) : string :=
  match s with
  | EmptyString => EmptyString
  | String c s' => rev s' +:+ String c EmptyString
  end.

(** [contains_byte c s]: the byte [c] occurs in [s]. *)
Fixpoint contains_byte (c : ascii) (s : string) : bool :=
  match s with
  | EmptyString => false
  | String d s' => Ascii.eqb d c || contains_byte c s'
  end.

Definition is_empty (s : string) : bool :=
  match s with EmptyString => true | _ => false end.

End Str.

(** ** Package [strings] *)

(** [unicode.IsSpace] on the UTF-8 encoding of a rune.  The white space
    runes are U+0009..U+000D, U+0020, U+0085, U+00A0, U+1680,
    U+2000..U+200A, U+2028, U+2029, U+202F, U+205F and U+3000; they take
    one, two or three bytes. *)
Definition isSpace1 (c : ascii) : bool :=
  match c with
  | "009" | "010" | "011" | "012" | "013" | " " => true
  | _ => false
  end%char.

Definition isSpace2 (c1 c2 : ascii) : bool :=
  Ascii.eqb c1 "194" && (Ascii.eqb c2 "133" || Ascii.eqb c2 "160").

Definition isSpace3 (c1 c2 c3 : ascii) : bool :=
  (Ascii.eqb c1 "225" && Ascii.eqb c2 "154" && Ascii.eqb c3 "128")
  || (Ascii.eqb c1 "226" && Ascii.eqb c2 "128"
      && ((N.leb 128 (N_of_ascii c3) && N.leb (N_of_ascii c3) 138)
          || Ascii.eqb c3 "168" || Ascii.eqb c3 "169" || Ascii.eqb c3 "175"))
  || (Ascii.eqb c1 "226" && Ascii.eqb c2 "129" && Ascii.eqb c3 "159")
  || (Ascii.eqb c1 "227" && Ascii.eqb c2 "128" && Ascii.eqb c3 "128").

(** Strip leading runes recognised by [p1] (one byte), [p2] (two bytes)
    and [p3] (three bytes).  [strings.TrimLeftFunc] decodes one rune at a
    time from the front; a byte sequence that does not decode to a white
    space rune stops the scan. *)
Fixpoint trimRunes (p1 : ascii -> bool) (p2 : ascii -> ascii -> bool)
    (p3 : ascii -> ascii -> ascii -> bool) (s : string) : string :=
  match s with
  | String c1 s1 =>
      if p1 c1 then trimRunes p1 p2 p3 s1
      else
        match s1 with
        | String c2 s2 =>
            if p2 c1 c2 then trimRunes p1 p2 p3 s2
            else
              match s2 with
              | String c3 s3 =>
                  if p3 c1 c2 c3 then trimRunes p1 p2 p3 s3 else s
              | EmptyString => s
              end
        | EmptyString => s
        end
  | EmptyString => s
  end.

(** Whether [s] starts with a rune recognised by [p1], [p2], [p3]. *)
Definition startsRune (p1 : ascii -> bool) (p2 : ascii -> ascii -> bool)
    (p3 : ascii -> ascii -> ascii -> bool) (s : string) : bool :=
  match s with
  | String c1 s1 =>
      p1 c1
      || match s1 with
         | String c2 s2 =>
             p2 c1 c2
             || match s2 with
                | String c3 _ => p3 c1 c2 c3
                | EmptyString => false
                end
         | EmptyString => false
         end
  | EmptyString => false
  end.

(** One rune recognised by [p1], [p2], [p3]: what one step of
    [trimRunes] strips. *)
Definition isRune (p1 : ascii -> bool) (p2 : ascii -> ascii -> bool)
    (p3 : ascii -> ascii -> ascii -> bool) (w : string) : bool :=
  match w with
  | String c1 EmptyString => p1 c1
  | String c1 (String c2 EmptyString) => negb (p1 c1) && p2 c1 c2
  | String c1 (String c2 (String c3 EmptyString)) =>
      negb (p1 c1) && negb (p2 c1 c2) && p3 c1 c2 c3
  | _ => false
  end.

(** A sequence of such runes. *)
Inductive runes (p1 : ascii -> bool) (p2 : ascii -> ascii -> bool)
    (p3 : ascii -> ascii -> ascii -> bool) : string -> Prop :=
  | runes_nil : runes p1 p2 p3 EmptyString
  | runes_cons w s :
      isRune p1 p2 p3 w = true -> runes p1 p2 p3 s -> runes p1 p2 p3 (w +:+ s).

Definition TrimLeftSpace (s : string) : string :=
  trimRunes isSpace1 isSpace2 isSpace3 s.

(** The white space runes read from the end of a string. *)
Definition isSpace2r (a b : ascii) : bool := isSpace2 b a.
Definition isSpace3r (a b c : ascii) : bool := isSpace3 c b a.

(** [strings.TrimRightFunc] decodes runes from the end: the same scan on
    the reversed string, with the bytes of a rune read backwards. *)
Definition TrimRightSpace (s : string) : string :=
  Str.rev (trimRunes isSpace1 isSpace2r isSpace3r (Str.rev s)).

(** [strings.TrimSpace]. *)
Definition TrimSpace (s : string) : string :=
  TrimRightSpace (TrimLeftSpace s).

(** A string of white space runes only. *)
Definition spaces (s : string) : Prop := runes isSpace1 isSpace2 isSpace3 s.

(** The bytes of UTF-8: a continuation byte is 10xxxxxx. *)
Definition contByte (c : ascii) : bool :=
  N.leb 128 (N_of_ascii c) && N.leb (N_of_ascii c) 191.

Definition highByte (c : ascii) : bool := N.leb 128 (N_of_ascii c).

(** A white space byte of ASCII or a byte above 127. *)
Definition spaceByte (c : ascii) : bool := isSpace1 c || highByte c.

(** [strings.Split(s, sep)] for a one-byte separator: the substrings
    between the separators, [[""]] for the empty string. *)
Fixpoint Split (s : string) (sep : ascii) : list string :=
  match s with
  | EmptyString => [EmptyString]
  | String c s' =>
      if Ascii.eqb c sep then EmptyString :: Split s' sep
      else
        match Split s' sep with
        | hd :: tl => String c hd :: tl
        | [] => [String c EmptyString]
        end
  end.

(** [strings.Join(elems, sep)]. *)
Fixpoint Join (elems : list string) (sep : string) : string :=
  match elems with
  | [] => EmptyString
  | [x] => x
  | x :: rest => x +:+ sep +:+ Join rest sep
  end.

(** Apply [f] to the last element of a list. *)
Fixpoint mapLast {A : Type} (f : A -> A) (l : list A) : list A :=
  match l with
  | [] => []
  | [x] => [f x]
  | x :: rest => x :: mapLast f rest
  end.

(** [strings.HasPrefix]. *)
Fixpoint HasPrefix (s pre : string) {struct pre} : bool :=
  match pre with
  | EmptyString => true
  | String a pre' =>
      match s with
      | String b s' => Ascii.eqb a b && HasPrefix s' pre'
      | EmptyString => false
      end
  end.

(** ** Trace protocol *)

(** [traceContains] of [internal/server]. *)
Definition traceContains (trace instanceID : string) : bool :=
  let instanceID := TrimSpace instanceID in
  if Str.is_empty instanceID then false
  else existsb (fun p => String.eqb (TrimSpace p) instanceID) (Split trace ",").

(** [appendTrace] of [internal/relay]. *)
Definition appendTrace (existing instanceID : string) : string :=
  let existing := TrimSpace existing in
  let instanceID := TrimSpace instanceID in
  if Str.is_empty instanceID then existing
  else if Str.is_empty existing then instanceID
  else
    let parts := Split existing "," in
    let out :=
      List.filter (fun p => negb (Str.is_empty p)) (List.map TrimSpace parts) in
    Join (out ++ [instanceID]) ",".


(** [append] as the specification words it: split the trace on commas,
    trim the segments and drop the empty ones, append the trimmed relay
    ID, rejoin with commas. *)
Definition appendTrace_spec (trace relayID : string) : string :=
  Join
    (List.filter (fun p => negb (Str.is_empty p))
       (List.map TrimSpace (Split trace ","))
     ++ [TrimSpace relayID]) ",".

(** ** ASCII letters *)

Definition isLowerByte (c : ascii) : bool :=
  N.leb 97 (N_of_ascii c) && N.leb (N_of_ascii c) 122.

Definition isUpperByte (c : ascii) : bool :=
  N.leb 65 (N_of_ascii c) && N.leb (N_of_ascii c) 90.

Definition isDigitByte (c : ascii) : bool :=
  N.leb 48 (N_of_ascii c) && N.leb (N_of_ascii c) 57.

Definition toUpperByte (c : ascii) : ascii :=
  if isLowerByte c then ascii_of_N (N_of_ascii c - 32) else c.

Definition toLowerByte (c : ascii) : ascii :=
  if isUpperByte c then ascii_of_N (N_of_ascii c + 32) else c.

Fixpoint mapBytes (f : ascii -> ascii) (s : string) : string :=
  match s with
  | EmptyString => EmptyString
  | String c s' => String (f c) (mapBytes f s')
  end.

Fixpoint allBytes (p : ascii -> bool) (s : string) : bool :=
  match s with
  | EmptyString => true
  | String c s' => p c && allBytes p s'
  end.

(** [strings.ToLower] on a string of ASCII bytes (the fast path of the Go
    function, which lowers the bytes 'A'..'Z').  The program applies it to
    base-32 output only. *)
Definition ToLower (s : string) : string := mapBytes toLowerByte s.

(** The ASCII instance of [strings.ToUpper]. *)
Definition asciiToUpper (s : string) : string := mapBytes toUpperByte s.

(** The key under which [strings.EqualFold] compares a string with an
    ASCII string: ASCII letters are lowered, and the two runes outside
    ASCII whose simple case folding reaches an ASCII letter, U+017F (long
    s, bytes C5 BF) and U+212A (Kelvin sign, bytes E2 84 AA), are replaced
    by that letter.  Any other byte above 127 is kept, and differs from
    every ASCII byte. *)
Fixpoint foldKey (s : string) : string :=
  match s with
  | EmptyString => EmptyString
  | String c1 s1 =>
      match s1 with
      | String c2 s2 =>
          if Ascii.eqb c1 "197" && Ascii.eqb c2 "191" then String "s" (foldKey s2)
          else
            match s2 with
            | String c3 s3 =>
                if Ascii.eqb c1 "226" && Ascii.eqb c2 "132" && Ascii.eqb c3 "170"
                then String "k" (foldKey s3)
                else String (toLowerByte c1) (foldKey s1)
            | EmptyString => String (toLowerByte c1) (foldKey s1)
            end
      | EmptyString => String (toLowerByte c1) EmptyString
      end
  end.

(** [strings.EqualFold(s, t)] for an ASCII string [t]. *)
Definition EqualFold (s t : string) : bool := String.eqb (foldKey s) (foldKey t).

(** ** Package [net/textproto] and [net/http]: header maps *)

(** [validHeaderFieldByte]: the token characters of RFC 7230. *)
Definition validHeaderFieldByte (c : ascii) : bool :=
  isDigitByte c || isLowerByte c || isUpperByte c
  || match c with
     | "!" | "#" | "$" | "%" | "&" | "'" | "*" | "+" | "-" | "." | "^" | "_"
     | "`" | "|" | "~" => true
     | _ => false
     end%char.

(** One step of the canonicalising loop of [canonicalMIMEHeaderKey]: upper
    case for the first letter and for a letter after a hyphen, lower case
    elsewhere. *)
Definition canonByte (upper : bool) (c : ascii) : ascii :=
  if upper && isLowerByte c then toUpperByte c
  else if negb upper && isUpperByte c then toLowerByte c
  else c.

Fixpoint canonicalLoop (upper : bool) (s : string) : string :=
  match s with
  | EmptyString => EmptyString
  | String c s' =>
      let c' := canonByte upper c in
      String c' (canonicalLoop (Ascii.eqb c' "-") s')
  end.

(** [http.CanonicalHeaderKey] ([textproto.CanonicalMIMEHeaderKey]): a key
    holding a space or a byte that is not a token character is returned
    unchanged. *)
Definition CanonicalHeaderKey (s : string) : string :=
  if allBytes validHeaderFieldByte s then canonicalLoop true s else s.

(** [http.Header] is [map[string][]string]. *)
Module Header.

Definition Get (h : gmap string (list string)) (key : string) : string :=
  match h !! CanonicalHeaderKey key with
  | Some (v :: _) => v
  | _ => EmptyString
  end.

Definition Set_ (h : gmap string (list string)) (key value : string) : gmap string (list string) :=
  <[CanonicalHeaderKey key := [value]]> h.

Definition Add (h : gmap string (list string)) (key value : string) : gmap string (list string) :=
  let key := CanonicalHeaderKey key in
  <[key := default [] (h !! key) ++ [value]]> h.

Definition Del (h : gmap string (list string)) (key : string) : gmap string (list string) :=
  delete (CanonicalHeaderKey key) h.

End Header.

(** ** Package [internal/config]: data model *)

Module config.

Record DestinationConfig := {
  URL : string;
  Method : string;
  Headers : gmap string string;
  Description : string
}.

Record ResolvedRelay := {
  ID : string;
  Name : string;
  ListenPath : string;
  Methods : list string;
  Destinations : list DestinationConfig
}.

End config.

(** ** Package [net/http]: requests and response writers *)

Module http.

Definition StatusOK : nat := 200.
Definition StatusAccepted : nat := 202.
Definition StatusBadRequest : nat := 400.
Definition StatusMethodNotAllowed : nat := 405.

(** A request body: the bytes its reader delivers, and whether the
    reader then fails instead of reporting the end of the stream. *)
Record BodyReader := {
  data : string;
  fails : bool
}.

Record Request := {
  Method : string;
  URL : string;
  Host : string;
  Header : gmap string (list string);
  Body : BodyReader
}.

(** [io.ReadAll]: the bytes read and whether an error ended the read. *)
Definition ReadAll (b : BodyReader) : string * bool := (data b, fails b).

(** [io.Copy] to [io.Discard]: it reads until the end of the stream or
    the first read error; the bytes it took from the reader and whether
    an error ended the copy. *)
Definition CopyDiscard (b : BodyReader) : string * bool := (data b, fails b).

(** A [ResponseWriter]: the header map under construction, and what has
    gone to the client: the status, the header map as it was when the
    status was written, the body bytes. *)
Record ResponseWriter := {
  header : gmap string (list string);
  status : option nat;
  sent_header : gmap string (list string);
  written : string
}.

Definition newResponseWriter : ResponseWriter :=
  {| header := ∅; status := None; sent_header := ∅; written := EmptyString |}.

Definition SetHeader (w : ResponseWriter) (key value : string) : ResponseWriter :=
  {| header := Header.Set_ (header w) key value; status := status w;
     sent_header := sent_header w; written := written w |}.

(** The first [WriteHeader] sends the status line with the current
    header map; a later one is ignored. *)
Definition WriteHeader (w : ResponseWriter) (code : nat) : ResponseWriter :=
  match status w with
  | Some _ => w
  | None =>
      {| header := header w; status := Some code;
         sent_header := header w; written := written w |}
  end.

(** [Write] sends [StatusOK] first when no status was written. *)
Definition Write (w : ResponseWriter) (p : string) : ResponseWriter :=
  let w := WriteHeader w StatusOK in
  {| header := header w; status := status w;
     sent_header := sent_header w; written := written w +:+ p |}.

End http.

(** ** Package [encoding/base32] *)

Definition encodeStd : string := "ABCDEFGHIJKLMNOPQRSTUVWXYZ234567".

(** The character of the alphabet at a 5-bit index. *)
Definition b32char (i : N) : ascii :=
  match String.get (N.to_nat (N.land i 31)) encodeStd with
  | Some c => c
  | None => "000"
  end.

(** The eight 5-bit groups of a block of five bytes, as [Encoding.Encode]
    computes them. *)
Definition b32g0 (b0 : N) : N := N.shiftr b0 3.
Definition b32g1 (b0 b1 : N) : N := N.lor (N.shiftl b0 2) (N.shiftr b1 6).
Definition b32g2 (b1 : N) : N := N.shiftr b1 1.
Definition b32g3 (b1 b2 : N) : N := N.lor (N.shiftl b1 4) (N.shiftr b2 4).
Definition b32g4 (b2 b3 : N) : N := N.lor (N.shiftl b2 1) (N.shiftr b3 7).
Definition b32g5 (b3 : N) : N := N.shiftr b3 2.
Definition b32g6 (b3 b4 : N) : N := N.lor (N.shiftl b3 3) (N.shiftr b4 5).
Definition b32g7 (b4 : N) : N := b4.

(** [StdEncoding.WithPadding(NoPadding).EncodeToString]: full blocks of
    five bytes give eight characters; a last block of 1, 2, 3 or 4 bytes
    gives 2, 4, 5 or 7 characters and no padding. *)
Fixpoint EncodeToString (src : string) : string :=
  match src with
  | EmptyString => EmptyString
  | String a0 EmptyString =>
      let b0 := N_of_ascii a0 in
      String (b32char (b32g0 b0)) (String (b32char (b32g1 b0 0)) EmptyString)
  | String a0 (String a1 EmptyString) =>
      let b0 := N_of_ascii a0 in let b1 := N_of_ascii a1 in
      String (b32char (b32g0 b0)) (String (b32char (b32g1 b0 b1))
      (String (b32char (b32g2 b1)) (String (b32char (b32g3 b1 0)) EmptyString)))
  | String a0 (String a1 (String a2 EmptyString)) =>
      let b0 := N_of_ascii a0 in let b1 := N_of_ascii a1 in
      let b2 := N_of_ascii a2 in
      String (b32char (b32g0 b0)) (String (b32char (b32g1 b0 b1))
      (String (b32char (b32g2 b1)) (String (b32char (b32g3 b1 b2))
      (String (b32char (b32g4 b2 0)) EmptyString))))
  | String a0 (String a1 (String a2 (String a3 EmptyString))) =>
      let b0 := N_of_ascii a0 in let b1 := N_of_ascii a1 in
      let b2 := N_of_ascii a2 in let b3 := N_of_ascii a3 in
      String (b32char (b32g0 b0)) (String (b32char (b32g1 b0 b1))
      (String (b32char (b32g2 b1)) (String (b32char (b32g3 b1 b2))
      (String (b32char (b32g4 b2 b3)) (String (b32char (b32g5 b3))
      (String (b32char (b32g6 b3 0)) EmptyString))))))
  | String a0 (String a1 (String a2 (String a3 (String a4 rest)))) =>
      let b0 := N_of_ascii a0 in let b1 := N_of_ascii a1 in
      let b2 := N_of_ascii a2 in let b3 := N_of_ascii a3 in
      let b4 := N_of_ascii a4 in
      String (b32char (b32g0 b0)) (String (b32char (b32g1 b0 b1))
      (String (b32char (b32g2 b1)) (String (b32char (b32g3 b1 b2))
      (String (b32char (b32g4 b2 b3)) (String (b32char (b32g5 b3))
      (String (b32char (b32g6 b3 b4)) (String (b32char (b32g7 b4))
      (EncodeToString rest))))))))
  end.

(** ** Package [crypto/sha256] *)

Module sha256.

  Local Open Scope N_scope.

Definition mask32 : N := 4294967295.
Definition add32 (x y : N) : N := N.land (x + y) mask32.
Definition rotr (n x : N) : N :=
  N.land (N.lor (N.shiftr x n) (N.shiftl x (32 - n))) mask32.
Definition not32 (x : N) : N := N.lxor x mask32.

Definition Ch (x y z : N) : N := N.lxor (N.land x y) (N.land (not32 x) z).
Definition Maj (x y z : N) : N :=
  N.lxor (N.lxor (N.land x y) (N.land x z)) (N.land y z).
Definition bigSigma0 (x : N) : N :=
  N.lxor (N.lxor (rotr 2 x) (rotr 13 x)) (rotr 22 x).
Definition bigSigma1 (x : N) : N :=
  N.lxor (N.lxor (rotr 6 x) (rotr 11 x)) (rotr 25 x).
Definition smallSigma0 (x : N) : N :=
  N.lxor (N.lxor (rotr 7 x) (rotr 18 x)) (N.shiftr x 3).
Definition smallSigma1 (x : N) : N :=
  N.lxor (N.lxor (rotr 17 x) (rotr 19 x)) (N.shiftr x 10).

(** The round constants: the first 32 bits of the fractional parts of the
    cube roots of the first 64 primes. *)
Definition K : list N :=
  [1116352408; 1899447441; 3049323471; 3921009573; 961987163; 1508970993;
   2453635748; 2870763221; 3624381080; 310598401; 607225278; 1426881987;
   1925078388; 2162078206; 2614888103; 3248222580; 3835390401; 4022224774;
   264347078; 604807628; 770255983; 1249150122; 1555081692; 1996064986;
   2554220882; 2821834349; 2952996808; 3210313671; 3336571891; 3584528711;
   113926993; 338241895; 666307205; 773529912; 1294757372; 1396182291;
   1695183700; 1986661051; 2177026350; 2456956037; 2730485921; 2820302411;
   3259730800; 3345764771; 3516065817; 3600352804; 4094571909; 275423344;
   430227734; 506948616; 659060556; 883997877; 958139571; 1322822218;
   1537002063; 1747873779; 1955562222; 2024104815; 2227730452; 2361852424;
   2428436474; 2756734187; 3204031479; 3329325298].

(** The chaining value: eight 32-bit words. *)
Record digest := {
  h0 : N; h1 : N; h2 : N; h3 : N; h4 : N; h5 : N; h6 : N; h7 : N
}.

Definition init : digest :=
  {| h0 := 1779033703; h1 := 3144134277; h2 := 1013904242; h3 := 2773480762;
     h4 := 1359893119; h5 := 2600822924; h6 := 528734635; h7 := 1541459225 |}.

(** Big-endian words of a byte list. *)
Fixpoint words (bs : list N) : list N :=
  match bs with
  | b0 :: b1 :: b2 :: b3 :: rest =>
      N.lor (N.shiftl b0 24) (N.lor (N.shiftl b1 16) (N.lor (N.shiftl b2 8) b3))
      :: words rest
  | _ => []
  end.

(** The message schedule: [w] holds the words computed so far, latest
    first; [n] more words are added. *)
Fixpoint schedule (n : nat) (w : list N) : list N :=
  match n with
  | O => w
  | S n' =>
      let v1 := smallSigma1 (nth 1 w 0) in
      let v2 := smallSigma0 (nth 14 w 0) in
      schedule n' (add32 (add32 (add32 v1 (nth 6 w 0)) v2) (nth 15 w 0) :: w)
  end.

Definition round (d : digest) (kw : N * N) : digest :=
  let t1 := add32 (add32 (add32 (add32 (h7 d) (bigSigma1 (h4 d)))
                    (Ch (h4 d) (h5 d) (h6 d))) (fst kw)) (snd kw) in
  let t2 := add32 (bigSigma0 (h0 d)) (Maj (h0 d) (h1 d) (h2 d)) in
  {| h0 := add32 t1 t2; h1 := h0 d; h2 := h1 d; h3 := h2 d;
     h4 := add32 (h3 d) t1; h5 := h4 d; h6 := h5 d; h7 := h6 d |}.

(** One block of 64 bytes. *)
Definition block (d : digest) (bs : list N) : digest :=
  let w := List.rev (schedule 48 (List.rev (words bs))) in
  let r := List.fold_left round (combine K w) d in
  {| h0 := add32 (h0 d) (h0 r); h1 := add32 (h1 d) (h1 r);
     h2 := add32 (h2 d) (h2 r); h3 := add32 (h3 d) (h3 r);
     h4 := add32 (h4 d) (h4 r); h5 := add32 (h5 d) (h5 r);
     h6 := add32 (h6 d) (h6 r); h7 := add32 (h7 d) (h7 r) |}.

Fixpoint blocks (fuel : nat) (d : digest) (bs : list N) : digest :=
  match fuel with
  | O => d
  | S fuel' =>
      match bs with
      | [] => d
      | _ => blocks fuel' (block d (firstn 64 bs)) (skipn 64 bs)
      end
  end.

(** Big-endian bytes of the low [8 * n] bits of [x]. *)
Fixpoint be_bytes (n : nat) (x : N) : list N :=
  match n with
  | O => []
  | S n' => N.land (N.shiftr x (8 * N.of_nat n')) 255 :: be_bytes n' x
  end.

(** Padding: a byte 0x80, zero bytes up to 56 modulo 64, and the length
    of the message in bits as 8 big-endian bytes. *)
Definition pad (len : nat) : list N :=
  let r := Nat.modulo len 64 in
  let z := if Nat.ltb r 56 then (55 - r)%nat else (119 - r)%nat in
  128 :: repeat 0 z ++ be_bytes 8 (8 * N.of_nat len).

Definition bytes_of_string (s : string) : list N :=
  List.map N_of_ascii (list_ascii_of_string s).

Definition word_string (x : N) (rest : string) : string :=
  String (ascii_of_N (N.land (N.shiftr x 24) 255))
    (String (ascii_of_N (N.land (N.shiftr x 16) 255))
       (String (ascii_of_N (N.land (N.shiftr x 8) 255))
          (String (ascii_of_N (N.land x 255)) rest))).

(** [sha256.Sum256]: the 32 bytes of the digest. *)
Definition Sum256 (msg : string) : string :=
  let bs := bytes_of_string msg in
  let padded := bs ++ pad (List.length bs) in
  let d := blocks (S (Nat.div (List.length padded) 64)) init padded in
  word_string (h0 d) (word_string (h1 d) (word_string (h2 d)
    (word_string (h3 d) (word_string (h4 d) (word_string (h5 d)
      (word_string (h6 d) (word_string (h7 d) EmptyString))))))).

End sha256.

(** Forget how the chaining value was computed: what follows depends on
    the shape of the digest only. *)
Ltac abstract_digest :=
  match goal with
  | |- context [sha256.blocks ?f ?i ?b] =>
      generalize (sha256.blocks f i b); intros ?d
  end.

(** ** Package [path] *)

Module path.

(** The inner loop of the [..] case of [Clean]: the write index goes
    back by one, and on while it is above [dotdot] and the byte it left
    is not a slash.  The buffer is held in reverse, last byte first. *)
Fixpoint backtrack (dotdot : nat) (out : string) : string :=
  match out with
  | EmptyString => EmptyString
  | String c rest =>
      if Nat.ltb dotdot (String.length rest) && negb (Ascii.eqb c "/")
      then backtrack dotdot rest
      else rest
  end.

(** The bytes of [p] up to the next slash, in reverse on top of [out],
    and the rest of [p]: the copy loop of the last case of [Clean]. *)
Fixpoint copyElement (p out : string) : string * string :=
  match p with
  | EmptyString => (out, p)
  | String c p' =>
      if Ascii.eqb c "/" then (out, p) else copyElement p' (String c out)
  end.

(** Whether [p] is empty or starts with a slash: the test
    [r == n || path[r] == '/'] at the bytes still to read. *)
Definition atSeparator (p : string) : bool :=
  match p with
  | EmptyString => true
  | String c _ => Ascii.eqb c "/"
  end.

(** The main loop of [Clean].  [p] holds the bytes from index [r] on,
    [out] the written bytes in reverse; every iteration reads at least
    one byte, so [fuel] iterations suffice when [fuel] is the length of
    [p]. *)
Fixpoint cleanLoop (fuel : nat) (rooted : bool) (p out : string)
    (dotdot : nat) : string :=
  match fuel with
  | O => out
  | S fuel' =>
      match p with
      | EmptyString => out
      | String c p1 =>
          if Ascii.eqb c "/" then cleanLoop fuel' rooted p1 out dotdot
          else if Ascii.eqb c "." && atSeparator p1 then
            cleanLoop fuel' rooted p1 out dotdot
          else
            let element :=
              let out1 :=
                if (rooted && negb (Nat.eqb (String.length out) 1))
                   || (negb rooted && negb (Nat.eqb (String.length out) 0))
                then String "/" out else out in
              let '(out2, rest) := copyElement p out1 in
              cleanLoop fuel' rooted rest out2 dotdot in
            match p1 with
            | String c1 p2 =>
                if Ascii.eqb c "." && Ascii.eqb c1 "." && atSeparator p2 then
                  if Nat.ltb dotdot (String.length out) then
                    cleanLoop fuel' rooted p2 (backtrack dotdot out) dotdot
                  else if negb rooted then
                    let out1 :=
                      if Nat.ltb 0 (String.length out) then String "/" out
                      else out in
                    let out2 := String "." (String "." out1) in
                    cleanLoop fuel' rooted p2 out2 (String.length out2)
                  else cleanLoop fuel' rooted p2 out dotdot
                else element
            | EmptyString => element
            end
      end
  end.

(** [path.Clean]. *)
Definition Clean (p : string) : string :=
  match p with
  | EmptyString => "."
  | String c p1 =>
      let rooted := Ascii.eqb c "/" in
      let out :=
        if rooted then cleanLoop (String.length p) true p1 "/" 1
        else cleanLoop (String.length p) false p EmptyString 0 in
      if Str.is_empty out then "." else Str.rev out
  end.

End path.

(** [strings.TrimRight(s, cutset)] for a cutset of one byte. *)
Fixpoint TrimRight (s : string) (c : ascii) : string :=
  match s with
  | EmptyString => EmptyString
  | String d s' =>
      let r := TrimRight s' c in
      if Str.is_empty r && Ascii.eqb d c then EmptyString else String d r
  end.

(** ** Package [internal/config]: path resolution and relay identity *)

(** [normalizeBasePath]. *)
Definition normalizeBasePath (p : string) : string :=
  let p := TrimSpace p in
  if String.eqb p "" || String.eqb p "/" then ""
  else
    let p := if negb (HasPrefix p "/") then "/" +:+ p else p in
    let p := path.Clean p in
    if String.eqb p "/" then "" else TrimRight p "/".

(** [joinPaths]. *)
Definition joinPaths (basePath listenPath : string) : string :=
  let basePath := TrimSpace basePath in
  let listenPath := TrimSpace listenPath in
  if String.eqb basePath "" then
    if String.eqb listenPath "" then "/"
    else
      let listenPath :=
        if negb (HasPrefix listenPath "/") then "/" +:+ listenPath
        else listenPath in
      path.Clean listenPath
  else if String.eqb listenPath "" then path.Clean basePath
  else
    let listenPath :=
      if negb (HasPrefix listenPath "/") then "/" +:+ listenPath
      else listenPath in
    path.Clean (basePath +:+ listenPath).

(** The slice [s[:n]]; the Go expression panics unless [n <= len(s)]. *)
Definition sliceTo (s : string) (n : nat) : string := String.substring 0 n s.

(** [relayID]. *)
Definition relayID (listenPath : string) : string :=
  let sum := sha256.Sum256 listenPath in
  sliceTo (ToLower (EncodeToString sum)) 16.

(** [randomToken]; [entropy] is what [rand.Read] delivers for the
    requested number of bytes, [None] when it fails. *)
Definition randomToken (entropy : option string) : option string :=
  match entropy with
  | None => None
  | Some b => Some (ToLower (EncodeToString b))
  end.

(** A path in the form the resolution promises: a leading slash, and
    after it either nothing or elements separated by single slashes, none
    of them empty, [.] or [..]. *)
Definition realElement (e : string) : bool :=
  negb (String.eqb e "") && negb (String.eqb e ".") && negb (String.eqb e "..").

Definition isCleanAbs (s : string) : bool :=
  match s with
  | String "/" EmptyString => true
  | String "/" rest => forallb realElement (Split rest "/")
  | _ => false
  end.

(** The written bytes of [Clean] on a rooted path after the elements
    [es] were kept: the slash, the elements and the slashes between them,
    last byte first. *)
Definition rootedOut (es : list string) : string :=
  Str.rev ("/" +:+ Join es "/").

(** A path element that [Clean] keeps: not empty, not [.] or [..], and
    without a slash. *)
Definition keptElement (e : string) : Prop :=
  realElement e = true /\ Str.contains_byte "/" e = false.

(** A relay path with its leading slash, the empty path left empty. *)
Definition withLeadingSlash (s : string) : string :=
  if String.eqb s "" then ""
  else if negb (HasPrefix s "/") then "/" +:+ s else s.

(** The characters of the lower-case base-32 alphabet. *)
Definition isBase32Lower (c : ascii) : bool :=
  isLowerByte c || (N.leb 50 (N_of_ascii c) && N.leb (N_of_ascii c) 55).

(** ** Package [internal/server]: the entry point of a relay *)

Module server.

(** One call of [Forwarder.ForwardAsync] with its arguments. *)
Record ForwardCall := {
  fc_reqID : string;
  fc_relayName : string;
  fc_relayID : string;
  fc_inbound : http.Request;
  fc_body : string;
  fc_destinations : list config.DestinationConfig
}.

(** What one run of the handler does: the response writer at the end,
    the bytes it took from the request body, whether it read the body to
    the end of the stream (a read that an error ends stops short of it)
    and whether it closed the body, the calls of the forwarder, and the
    log lines. *)
Record Outcome := {
  response : http.ResponseWriter;
  body_read : string;
  body_drained : bool;
  body_closed : bool;
  forwarded : list ForwardCall;
  logged : list string
}.

(** [newRequestID]; [entropy] is the result of [rand.Read] on 12 bytes.
    The handler drops the error and keeps the empty string. *)
Definition newRequestID (entropy : option string) : string * bool :=
  match entropy with
  | None => (EmptyString, true)
  | Some b => (ToLower (EncodeToString b), false)
  end.

(** [cleanPath]. *)
Definition cleanPath (p : string) : string :=
  let p := TrimSpace p in
  if String.eqb p "" then "/"
  else
    let p := if negb (HasPrefix p "/") then "/" +:+ p else p in
    let p := path.Clean p in
    if String.eqb p "." then "/" else p.

Section Handler.

(** [strings.ToUpper] maps every rune to its upper case by the Unicode
    tables; the handler is modelled for any such mapping. *)
Variable ToUpper : string -> string.

(** [methodAllowed]. *)
Definition methodAllowed (method : string) (allowed : list string) : bool :=
  match allowed with
  | [] => true
  | _ =>
      let m := ToUpper (TrimSpace method) in
      existsb (fun a => String.eqb m (ToUpper (TrimSpace a))) allowed
  end.

(** [handleRelay].  [fwd] tells whether the forwarder is non-nil and
    [entropy] is what the random source gives to [newRequestID]. *)
Definition handleRelay (fwd : bool) (entropy : option string)
    (relay : config.ResolvedRelay) (req : http.Request) : Outcome :=
  let w := http.newResponseWriter in
  if negb (methodAllowed (http.Method req) (config.Methods relay)) then
    {| response := http.WriteHeader w http.StatusMethodNotAllowed;
       body_read := EmptyString; body_drained := false; body_closed := false;
       forwarded := []; logged := [] |}
  else if negb (String.eqb (config.ID relay) "")
          && traceContains (Header.Get (http.Header req) "X-WebhookRelay-Trace")
               (config.ID relay) then
    let '(discarded, err) := http.CopyDiscard (http.Body req) in
    let w := http.SetHeader w "X-Relay-Dropped" "self_loop" in
    let w := http.WriteHeader w http.StatusAccepted in
    let w := http.Write w "accepted" in
    {| response := w; body_read := discarded; body_drained := negb err;
       body_closed := true;
       forwarded := [];
       logged := ["self loop detected: dropping forwarding"] |}
  else
    let '(body, err) := http.ReadAll (http.Body req) in
    if err then
      {| response := http.WriteHeader w http.StatusBadRequest;
         body_read := body; body_drained := false; body_closed := false;
         forwarded := []; logged := ["read body failed"] |}
    else
      let reqID := fst (newRequestID entropy) in
      let calls :=
        if fwd then
          [{| fc_reqID := reqID; fc_relayName := config.Name relay;
              fc_relayID := config.ID relay; fc_inbound := req;
              fc_body := body;
              fc_destinations := config.Destinations relay |}]
        else [] in
      let w := http.SetHeader w "X-Relay-Request-Id" reqID in
      let w := http.WriteHeader w http.StatusAccepted in
      let w := http.Write w "accepted" in
      {| response := w; body_read := body; body_drained := true;
         body_closed := true;
         forwarded := calls; logged := [] |}.

End Handler.

End server.

(** ** Package [internal/relay]: the forwarder *)

Module relay.

Definition HeaderTrace : string := "X-WebhookRelay-Trace".
Definition HeaderRequestID : string := "X-WebhookRelay-Request-Id".

Definition hopByHop : list string :=
  ["Connection"; "Proxy-Connection"; "Keep-Alive"; "Proxy-Authenticate";
   "Proxy-Authorization"; "Te"; "Trailer"; "Transfer-Encoding"; "Upgrade"].

(** [isHopByHopHeader]. *)
Definition isHopByHopHeader (k : string) : bool :=
  existsb (String.eqb (CanonicalHeaderKey k)) hopByHop.

(** [validMethod] of [net/http]: a non-empty token. *)
Definition validMethod (m : string) : bool :=
  negb (Str.is_empty m) && allBytes validHeaderFieldByte m.

(** One forward attempt as [ForwardAsync] starts it, and the request it
    hands to the HTTP client. *)
Record Attempt := {
  at_reqID : string;
  at_relayName : string;
  at_relayID : string;
  at_inbound : http.Request;
  at_body : string;
  at_dest : config.DestinationConfig
}.

(** [ForwardAsync]: one attempt per destination, in their order. *)
Definition ForwardAsync (c : server.ForwardCall) : list Attempt :=
  List.map
    (fun d =>
       {| at_reqID := server.fc_reqID c; at_relayName := server.fc_relayName c;
          at_relayID := server.fc_relayID c; at_inbound := server.fc_inbound c;
          at_body := server.fc_body c; at_dest := d |})
    (server.fc_destinations c).

Section Forwarder.

(** A [range] loop visits the entries of a Go map in an order the
    language leaves open: any enumeration of the entries. *)
Variable rangeHeader : gmap string (list string) -> list (string * list string).
Variable rangeOverrides : gmap string string -> list (string * string).
Hypothesis rangeHeader_perm : forall m, rangeHeader m ≡ₚ map_to_list m.
Hypothesis rangeOverrides_perm : forall m, rangeOverrides m ≡ₚ map_to_list m.

(** [url.Parse] as [http.NewRequestWithContext] uses it: the host of
    the URL, [None] when the URL does not parse. *)
Variable urlHost : string -> option string.

(** [copyHeaders]. *)
Definition copyHeaders (dst src : gmap string (list string))
    : gmap string (list string) :=
  List.fold_left
    (fun dst kvv =>
       let ck := CanonicalHeaderKey (fst kvv) in
       if isHopByHopHeader ck then dst
       else List.fold_left (fun d v => Header.Add d (fst kvv) v) (snd kvv) dst)
    (rangeHeader src) dst.

(** [applyHeaderOverrides]. *)
Definition applyHeaderOverrides (h : gmap string (list string))
    (overrides : gmap string string) : gmap string (list string) :=
  List.fold_left
    (fun h kv =>
       if EqualFold (fst kv) "host" then h
       else Header.Set_ h (fst kv) (snd kv))
    (rangeOverrides overrides) h.

(** [http.NewRequestWithContext]: an empty method stands for [GET]; an
    invalid method or URL is an error. *)
Definition NewRequestWithContext (method url body : string)
    : option http.Request :=
  let method := if Str.is_empty method then "GET" else method in
  if negb (validMethod method) then None
  else
    match urlHost url with
    | None => None
    | Some host =>
        Some {| http.Method := method; http.URL := url; http.Host := host;
                http.Header := ∅;
                http.Body := {| http.data := body; http.fails := false |} |}
    end.

(** [forwardOne] up to the call of the HTTP client: the request the
    attempt sends, [None] when it sends none.  [acquired] tells
    whether the attempt got its slot of the semaphore before the
    parent context was done. *)
Definition forwardOne (acquired : bool) (a : Attempt) : option http.Request :=
  if negb acquired then None
  else
    let inbound := at_inbound a in
    let dest := at_dest a in
    let method :=
      if negb (Str.is_empty (config.Method dest)) then config.Method dest
      else http.Method inbound in
    match NewRequestWithContext method (config.URL dest) (at_body a) with
    | None => None
    | Some outReq =>
        let h := copyHeaders (http.Header outReq) (http.Header inbound) in
        let h := Header.Del h "Host" in
        let h := applyHeaderOverrides h (config.Headers dest) in
        let relayID := TrimSpace (at_relayID a) in
        let h :=
          if negb (Str.is_empty relayID)
          then Header.Set_ h HeaderTrace (appendTrace (Header.Get h HeaderTrace) relayID)
          else h in
        let h := Header.Set_ h HeaderRequestID (at_reqID a) in
        Some {| http.Method := http.Method outReq; http.URL := http.URL outReq;
                http.Host := EmptyString; http.Header := h;
                http.Body := http.Body outReq |}
    end.

End Forwarder.

End relay.

(** Whether the override [kv] sets the header of canonical name [c]. *)
Definition overrideApplies (c : string) (kv : string * string) : bool :=
  negb (EqualFold (fst kv) "host") && String.eqb (CanonicalHeaderKey (fst kv)) c.

(** The value of the last override of the list [l] that sets [c]. *)
Fixpoint lastOverride (c : string) (l : list (string * string)) : option string :=
  match l with
  | [] => None
  | kv :: rest =>
      match lastOverride c rest with
      | Some v => Some v
      | None => if overrideApplies c kv then Some (snd kv) else None
      end
  end.

(** ** Package [internal/config]: the configuration file *)

Module configfile.

(** [ServerConfig]; a Go [int] has 64 bits on the platforms the program
    is built for. *)
Record ServerConfig := {
  ListenAddr : string;
  BasePath : string;
  ForwardTimeoutMS : Z;
  Concurrency : Z
}.

Record RelayConfig := {
  Name : string;
  ListenPath : string;
  Methods : list string;
  Destinations : list config.DestinationConfig
}.

Record Config := {
  Server : ServerConfig;
  Relays : list RelayConfig
}.

(** The entries of [problems] in [validateAndDefault]; the code renders
    each as a line of text with the indices it carries, and joins the
    lines into the error. *)
Inductive Problem :=
  | ListenAddrRequired
  | RelaysEmpty
  | MethodEmpty (i : nat)
  | DestinationsEmpty (i : nat)
  | URLRequired (i di : nat)
  | ListenPathNoSlash (i : nat) (got : string).

(** A signed 64-bit integer after an arithmetic operation. *)
Definition wrap64 (z : Z) : Z :=
  ((z + 9223372036854775808) mod 18446744073709551616 - 9223372036854775808)%Z.

(** [time.Millisecond] and [time.Second] in nanoseconds. *)
Definition Millisecond : Z := 1000000.
Definition Second : Z := 1000000000.

(** [ServerConfig.ForwardTimeout], a [time.Duration] in nanoseconds. *)
Definition ForwardTimeout (s : ServerConfig) : Z :=
  let ms := ForwardTimeoutMS s in
  let ms := if (ms <=? 0)%Z then 10000%Z else ms in
  wrap64 (ms * Millisecond).

Section Validate.

Variable ToUpper : string -> string.

(** The body of the loop over the destinations of relay [i]. *)
Definition validateDestination (i di : nat) (d : config.DestinationConfig)
    : config.DestinationConfig * list Problem :=
  ({| config.URL := config.URL d;
      config.Method := ToUpper (TrimSpace (config.Method d));
      config.Headers := config.Headers d;
      config.Description := config.Description d |},
   if String.eqb (TrimSpace (config.URL d)) "" then [URLRequired i di] else []).

(** The body of the loop over the relays: the relay as the loop leaves
    it and the problems it adds.  A relay without destinations ends the
    iteration before its listen path is checked. *)
Definition validateRelay (i : nat) (r : RelayConfig) : RelayConfig * list Problem :=
  let methods := match Methods r with [] => ["POST"] | ms => ms end in
  let methods := List.map (fun m => ToUpper (TrimSpace m)) methods in
  let pm :=
    flat_map (fun m => if String.eqb m "" then [MethodEmpty i] else []) methods in
  match Destinations r with
  | [] =>
      ({| Name := Name r; ListenPath := ListenPath r; Methods := methods;
          Destinations := [] |},
       pm ++ [DestinationsEmpty i])
  | ds =>
      let dps := imap (validateDestination i) ds in
      let pl :=
        if negb (String.eqb (ListenPath r) "") && negb (HasPrefix (ListenPath r) "/")
        then [ListenPathNoSlash i (ListenPath r)] else [] in
      ({| Name := Name r; ListenPath := ListenPath r; Methods := methods;
          Destinations := List.map fst dps |},
       pm ++ concat (List.map snd dps) ++ pl)
  end.

(** [validateAndDefault]: the configuration as the function leaves it
    and the problems found; the function returns an error exactly when
    there is a problem. *)
Definition validateAndDefault (cfg : Config) : Config * list Problem :=
  let srv := Server cfg in
  let p1 :=
    if String.eqb (TrimSpace (ListenAddr srv)) "" then [ListenAddrRequired] else [] in
  let conc := if (Concurrency srv <=? 0)%Z then 50%Z else Concurrency srv in
  let ms := if (ForwardTimeoutMS srv <=? 0)%Z then 10000%Z else ForwardTimeoutMS srv in
  let p2 := match Relays cfg with [] => [RelaysEmpty] | _ => [] end in
  let rps := imap validateRelay (Relays cfg) in
  ({| Server :=
        {| ListenAddr := ListenAddr srv;
           BasePath := normalizeBasePath (BasePath srv);
           ForwardTimeoutMS := ms; Concurrency := conc |};
      Relays := List.map fst rps |},
   p1 ++ p2 ++ concat (List.map snd rps)).

(** [Load] after the file is read and decoded: the validated
    configuration, or no configuration when there is a problem. *)
Definition LoadDecoded (cfg : Config) : option Config :=
  match validateAndDefault cfg with
  | (cfg', []) => Some cfg'
  | _ => None
  end.

End Validate.

(** The listen path that [ResolveRelays] gives to a relay: the declared
    path under the base path, or a random token under it when the relay
    declares none.  [entropy] is what [rand.Read] gives for the 16 bytes
    of the token; without them there is no path. *)
Definition resolvePath (basePath : string) (entropy : option string)
    (r : RelayConfig) : option string :=
  let lp := TrimSpace (ListenPath r) in
  if String.eqb lp "" then
    match randomToken entropy with
    | None => None
    | Some tok => Some (joinPaths basePath ("/" +:+ tok))
    end
  else Some (joinPaths basePath lp).

Definition resolved (r : RelayConfig) (lp : string) : config.ResolvedRelay :=
  {| config.ID := relayID lp; config.Name := Name r; config.ListenPath := lp;
     config.Methods := Methods r; config.Destinations := Destinations r |}.

(** The loop of [ResolveRelays] from relay [i] on.  [entropy i] is what
    [rand.Read] gives when the loop asks for the bytes of relay [i]; the
    error names the relay whose path could not be generated. *)
Fixpoint resolveFrom (basePath : string) (entropy : nat -> option string)
    (i : nat) (rs : list RelayConfig) : nat + list config.ResolvedRelay :=
  match rs with
  | [] => inr []
  | r :: rest =>
      match resolvePath basePath (entropy i) r with
      | None => inl i
      | Some lp =>
          match resolveFrom basePath entropy (S i) rest with
          | inl j => inl j
          | inr res => inr (resolved r lp :: res)
          end
      end
  end.

(** [ResolveRelays]. *)
Definition ResolveRelays (cfg : Config) (entropy : nat -> option string)
    : nat + list config.ResolvedRelay :=
  resolveFrom (BasePath (Server cfg)) entropy 0 (Relays cfg).

End configfile.

(** What [validateAndDefault] asks of a relay of the file. *)
Definition relayAccepted (ToUpper : string -> string)
    (r : configfile.RelayConfig) : Prop :=
  Forall (fun m => ToUpper (TrimSpace m) <> "")
    (match configfile.Methods r with [] => ["POST"] | ms => ms end)
  /\ configfile.Destinations r <> []
  /\ Forall (fun d => TrimSpace (config.URL d) <> "") (configfile.Destinations r)
  /\ (configfile.ListenPath r = ""
      \/ HasPrefix (configfile.ListenPath r) "/" = true).

(** What holds of a relay of a loaded configuration. *)
Definition relayValid (r : configfile.RelayConfig) : Prop :=
  configfile.Methods r <> []
  /\ Forall (fun m => m <> "") (configfile.Methods r)
  /\ configfile.Destinations r <> []
  /\ Forall (fun d => TrimSpace (config.URL d) <> "") (configfile.Destinations r)
  /\ (configfile.ListenPath r = ""
      \/ HasPrefix (configfile.ListenPath r) "/" = true).

(** ** Package [internal/relay]: the forwarder and its semaphore *)

Module forwarder.

Record ForwarderConfig := {
  Concurrency : Z;
  ForwardTimeout : Z
}.

(** The fields of [Forwarder] that [NewForwarder] computes: the capacity
    of the channel [sem] and the timeout of an attempt. *)
Record Forwarder := {
  capacity : Z;
  timeout : Z
}.

(** [NewForwarder]. *)
Definition NewForwarder (cfg : ForwarderConfig) : Forwarder :=
  {| capacity := if (Concurrency cfg <=? 0)%Z then 50%Z else Concurrency cfg;
     timeout :=
       if (ForwardTimeout cfg <=? 0)%Z then (10 * configfile.Second)%Z
       else ForwardTimeout cfg |}.

(** The forwarder as [main] builds it from the loaded configuration. *)
Definition ofConfig (cfg : configfile.Config) : Forwarder :=
  NewForwarder
    {| Concurrency := configfile.Concurrency (configfile.Server cfg);
       ForwardTimeout := configfile.ForwardTimeout (configfile.Server cfg) |}.

(** Where the goroutine of one attempt stands in [forwardOne]: at the
    [select], between the send on [sem] and the deferred receive, after
    the deferred receive, or returned from the [select] because the
    parent context was done. *)
Inductive Phase := Waiting | Running | Finished | Abandoned.

(** The channel [sem] (its capacity and the number of values in it) and
    the goroutines that [ForwardAsync] has started. *)
Record Pool := {
  cap : nat;
  held : nat;
  phases : list Phase
}.

Definition isRunning (p : Phase) : bool :=
  match p with Running => true | _ => false end.

Definition running (ps : list Phase) : nat :=
  List.length (List.filter isRunning ps).

(** The steps of the pool.  [ForwardAsync] starts one goroutine per
    destination; a send on [sem] goes through only while the channel
    holds fewer values than its capacity; a goroutine that sent receives
    once when [forwardOne] returns, on every path; a goroutine at the
    [select] may return when the parent context is done. *)
Inductive step : Pool -> Pool -> Prop :=
  | step_spawn (s : Pool) (n : nat) :
      step s {| cap := cap s; held := held s;
                phases := phases s ++ List.repeat Waiting n |}
  | step_acquire (s : Pool) (i : nat) :
      phases s !! i = Some Waiting -> held s < cap s ->
      step s {| cap := cap s; held := S (held s);
                phases := <[i := Running]> (phases s) |}
  | step_release (s : Pool) (i : nat) :
      phases s !! i = Some Running ->
      step s {| cap := cap s; held := Nat.pred (held s);
                phases := <[i := Finished]> (phases s) |}
  | step_abandon (s : Pool) (i : nat) :
      phases s !! i = Some Waiting ->
      step s {| cap := cap s; held := held s;
                phases := <[i := Abandoned]> (phases s) |}.

(** The states the pool can reach from [s]. *)
Inductive reach (s : Pool) : Pool -> Prop :=
  | reach_refl : reach s s
  | reach_step (t u : Pool) : reach s t -> step t u -> reach s u.

(** The pool of a forwarder before any request. *)
Definition start (f : Forwarder) : Pool :=
  {| cap := Z.to_nat (capacity f); held := 0; phases := [] |}.

End forwarder.

(** [server.New]: the patterns registered with the mux, the health check
    first and then one per relay. *)
Definition routePatterns (relays : list config.ResolvedRelay) : list string :=
  "/healthz" :: List.map (fun r => server.cleanPath (config.ListenPath r)) relays.

(** ** Sample configuration and requests *)

Module sample.

Definition destA : config.DestinationConfig :=
  {| config.URL := "http://a.example/in"; config.Method := "";
     config.Headers := {[ "Host" := "evil.example"; "X-Token" := "t0" ]};
     config.Description := "" |}.

Definition destB : config.DestinationConfig :=
  {| config.URL := "http://b.example/in"; config.Method := "PUT";
     config.Headers := ∅; config.Description := "" |}.

Definition relay1 : config.ResolvedRelay :=
  {| config.ID := "n7bnaul23xjjk7a3"; config.Name := "r1";
     config.ListenPath := "/hook"; config.Methods := ["POST"];
     config.Destinations := [destA; destB] |}.

Definition request (method trace : string) : http.Request :=
  {| http.Method := method; http.URL := "/hook"; http.Host := "relay.example";
     http.Header :=
       {[ "X-Webhookrelay-Trace" := [trace]; "Connection" := ["keep-alive"];
          "Content-Type" := ["application/json"] ]};
     http.Body := {| http.data := "{}"; http.fails := false |} |}.

(** A POST that already went through [relay1]. *)
Definition looped : http.Request := request "POST" "zzz, n7bnaul23xjjk7a3".

(** The same trace on a GET, which [relay1] does not allow. *)
Definition loopedGet : http.Request := request "GET" "zzz, n7bnaul23xjjk7a3".

(** A POST that went through another relay only. *)
Definition fresh : http.Request := request "POST" "zzz".

(** A POST with two trace field lines, the ID of [relay1] in the second
    one. *)
Definition loopedSecondLine : http.Request :=
  {| http.Method := "POST"; http.URL := "/hook"; http.Host := "relay.example";
     http.Header := {[ "X-Webhookrelay-Trace" := ["zzz"; "n7bnaul23xjjk7a3"] ]};
     http.Body := {| http.data := "{}"; http.fails := false |} |}.

(** The request [looped] with a body whose reader fails after two
    bytes. *)
Definition loopedBroken : http.Request :=
  {| http.Method := "POST"; http.URL := "/hook"; http.Host := "relay.example";
     http.Header := {[ "X-Webhookrelay-Trace" := ["zzz, n7bnaul23xjjk7a3"] ]};
     http.Body := {| http.data := "{}"; http.fails := true |} |}.

(** A destination whose overrides name the two headers that the
    forwarder sets itself. *)
Definition destC : config.DestinationConfig :=
  {| config.URL := "http://c.example/in"; config.Method := "";
     config.Headers :=
       {[ "X-WebhookRelay-Request-Id" := "override-id";
          "X-WebhookRelay-Trace" := "override-trace" ]};
     config.Description := "" |}.

(** A destination with two overrides of one canonical name. *)
Definition destD : config.DestinationConfig :=
  {| config.URL := "http://d.example/in"; config.Method := "";
     config.Headers := {[ "x-token" := "lower"; "X-Token" := "upper" ]};
     config.Description := "" |}.

(** The call of the forwarder that the handler of [relay1] makes for the
    request [fresh]. *)
Definition callFresh : server.ForwardCall :=
  {| server.fc_reqID := "gaytemzugu3doobzmfra"; server.fc_relayName := "r1";
     server.fc_relayID := "n7bnaul23xjjk7a3"; server.fc_inbound := fresh;
     server.fc_body := "{}"; server.fc_destinations := [destA; destB] |}.

(** The attempt of [relay1] on [destA] for the request [fresh]. *)
Definition attemptA : relay.Attempt :=
  {| relay.at_reqID := "gaytemzugu3doobzmfra"; relay.at_relayName := "r1";
     relay.at_relayID := "n7bnaul23xjjk7a3"; relay.at_inbound := fresh;
     relay.at_body := "{}"; relay.at_dest := destA |}.

(** The attempts of [relay1] on [destC] and [destD] for the request
    [fresh]. *)
Definition attemptC : relay.Attempt :=
  {| relay.at_reqID := "gaytemzugu3doobzmfra"; relay.at_relayName := "r1";
     relay.at_relayID := "n7bnaul23xjjk7a3"; relay.at_inbound := fresh;
     relay.at_body := "{}"; relay.at_dest := destC |}.

Definition attemptD : relay.Attempt :=
  {| relay.at_reqID := "gaytemzugu3doobzmfra"; relay.at_relayName := "r1";
     relay.at_relayID := "n7bnaul23xjjk7a3"; relay.at_inbound := fresh;
     relay.at_body := "{}"; relay.at_dest := destD |}.

(** A stand-in for [url.Parse]: the part between [http://] and the next
    slash, for the sample URLs. *)
Definition urlHost (url : string) : option string :=
  match Split url "/" with
  | _ :: _ :: host :: _ => Some host
  | _ => None
  end.

(** A configuration file with two relays, the second without listen
    path. *)
Definition fileConfig : configfile.Config :=
  {| configfile.Server :=
       {| configfile.ListenAddr := ":8099"; configfile.BasePath := " hook/ ";
          configfile.ForwardTimeoutMS := 0; configfile.Concurrency := 8 |};
     configfile.Relays :=
       [ {| configfile.Name := "r1"; configfile.ListenPath := "/in/./a";
            configfile.Methods := [" post "; "PUT"];
            configfile.Destinations := [destA; destB] |};
         {| configfile.Name := "r2"; configfile.ListenPath := "";
            configfile.Methods := []; configfile.Destinations := [destB] |} ] |}.

(** The random source of the sample: sixteen bytes for every relay. *)
Definition entropy (i : nat) : option string := Some "0123456789abcdef".

End sample.

(** * Properties *)

(** ** Byte strings *)

#[local] Arguments String.append !_ _ / : simpl nomatch.

Lemma str_app_nil_l (s : string) : "" +:+ s = s.
Proof. reflexivity. Qed.

Lemma str_app_cons (c : ascii) (a b : string) :
  String c a +:+ b = String c (a +:+ b).
Proof. reflexivity. Qed.

Lemma str_app_nil_r (s : string) : s +:+ "" = s.
Proof. induction s as [|c s IH]; [reflexivity|]. now rewrite str_app_cons, IH. Qed.

Lemma str_app_assoc (a b c : string) : (a +:+ b) +:+ c = a +:+ (b +:+ c).
Proof.
  induction a as [|x a IH]; [reflexivity|]. now rewrite !str_app_cons, IH.
Qed.

Lemma str_length_app (a b : string) :
  String.length (a +:+ b) = String.length a + String.length b.
Proof.
  induction a as [|x a IH]; [reflexivity|].
  rewrite str_app_cons. simpl. now rewrite IH.
Qed.

Lemma str_app_eq_nil (a b : string) : a +:+ b = "" -> a = "" /\ b = "".
Proof. destruct a; simpl; [intros ->; auto|discriminate]. Qed.

Lemma str_rev_app (a b : string) : Str.rev (a +:+ b) = Str.rev b +:+ Str.rev a.
Proof.
  induction a as [|x a IH].
  - simpl. now rewrite str_app_nil_r.
  - rewrite str_app_cons. simpl. now rewrite IH, str_app_assoc.
Qed.

Lemma str_rev_involutive (s : string) : Str.rev (Str.rev s) = s.
Proof.
  induction s as [|c s IH]; [reflexivity|].
  simpl. now rewrite str_rev_app, IH.
Qed.

Lemma str_rev_eq_nil (s : string) : Str.rev s = "" -> s = "".
Proof. intros H. rewrite <- (str_rev_involutive s), H. reflexivity. Qed.

Lemma is_empty_true (s : string) : Str.is_empty s = true <-> s = "".
Proof. destruct s; split; intros H; try reflexivity; discriminate. Qed.

Lemma is_empty_false (s : string) : Str.is_empty s = false <-> s <> "".
Proof. destruct s; split; intros H; try reflexivity; try discriminate; now elim H. Qed.

Lemma string_strong_ind (P : string -> Prop) :
  (forall s, (forall t, String.length t < String.length s -> P t) -> P s) ->
  forall s, P s.
Proof.
  intros step s.
  remember (String.length s) as n eqn:Hn.
  revert s Hn. induction n as [n IH] using lt_wf_ind.
  intros s ->. apply step. intros t Ht. now apply (IH (String.length t)).
Qed.

Lemma contains_byte_app (c : ascii) (a b : string) :
  Str.contains_byte c (a +:+ b) = Str.contains_byte c a || Str.contains_byte c b.
Proof.
  induction a as [|x a IH]; [reflexivity|].
  rewrite str_app_cons. simpl. now rewrite IH, orb_assoc.
Qed.

Lemma contains_byte_rev (c : ascii) (s : string) :
  Str.contains_byte c (Str.rev s) = Str.contains_byte c s.
Proof.
  induction s as [|x s IH]; [reflexivity|].
  simpl. rewrite contains_byte_app, IH. simpl.
  rewrite orb_false_r. apply orb_comm.
Qed.

(** ** Stripping runes *)

Section Runes.

Variable p1 : ascii -> bool.
Variable p2 : ascii -> ascii -> bool.
Variable p3 : ascii -> ascii -> ascii -> bool.

Lemma trimRunes_rune (w x : string) :
  isRune p1 p2 p3 w = true -> trimRunes p1 p2 p3 (w +:+ x) = trimRunes p1 p2 p3 x.
Proof.
  destruct w as [|c1 [|c2 [|c3 [|c4 w]]]]; simpl; try discriminate.
  - intros ->. reflexivity.
  - intros [H1 H2]%andb_true_iff. apply negb_true_iff in H1.
    simpl. now rewrite H1, H2.
  - intros [[H1 H2]%andb_true_iff H3]%andb_true_iff.
    apply negb_true_iff in H1, H2.
    simpl. now rewrite H1, H2, H3.
Qed.

Lemma trimRunes_runes (l x : string) :
  runes p1 p2 p3 l -> trimRunes p1 p2 p3 (l +:+ x) = trimRunes p1 p2 p3 x.
Proof.
  induction 1 as [|w s Hw _ IH]; [reflexivity|].
  now rewrite str_app_assoc, trimRunes_rune.
Qed.

Lemma trimRunes_decomp (s : string) :
  exists l, runes p1 p2 p3 l /\ s = l +:+ trimRunes p1 p2 p3 s.
Proof.
  induction s as [s IH] using string_strong_ind.
  destruct s as [|c1 s1]; [exists ""; split; [constructor|reflexivity]|].
  simpl. destruct (p1 c1) eqn:H1.
  { destruct (IH s1) as (l & Hl & E); [simpl; lia|].
    exists (String c1 "" +:+ l). split.
    - constructor; [simpl; exact H1|exact Hl].
    - simpl. now f_equal. }
  destruct s1 as [|c2 s2]; [exists ""; split; [constructor|reflexivity]|].
  destruct (p2 c1 c2) eqn:H2.
  { destruct (IH s2) as (l & Hl & E); [simpl; lia|].
    exists (String c1 (String c2 "") +:+ l). split.
    - constructor; [simpl; now rewrite H1, H2|exact Hl].
    - simpl. now do 2 f_equal. }
  destruct s2 as [|c3 s3]; [exists ""; split; [constructor|reflexivity]|].
  destruct (p3 c1 c2 c3) eqn:H3.
  { destruct (IH s3) as (l & Hl & E); [simpl; lia|].
    exists (String c1 (String c2 (String c3 "")) +:+ l). split.
    - constructor; [simpl; now rewrite H1, H2, H3|exact Hl].
    - simpl. now do 3 f_equal. }
  exists ""; split; [constructor|reflexivity].
Qed.

Lemma trimRunes_fixed (s : string) : startsRune p1 p2 p3 s = false -> trimRunes p1 p2 p3 s = s.
Proof.
  destruct s as [|c1 [|c2 [|c3 s3]]]; simpl; try reflexivity.
  - rewrite orb_false_r. now intros ->.
  - rewrite orb_false_r. intros [-> ->]%orb_false_iff. reflexivity.
  - intros [-> [-> ->]%orb_false_iff]%orb_false_iff. reflexivity.
Qed.

Lemma trimRunes_starts (s : string) : startsRune p1 p2 p3 (trimRunes p1 p2 p3 s) = false.
Proof.
  induction s as [s IH] using string_strong_ind.
  destruct s as [|c1 s1]; [reflexivity|].
  simpl. destruct (p1 c1) eqn:H1; [apply IH; simpl; lia|].
  destruct s1 as [|c2 s2]; [simpl; now rewrite H1|].
  destruct (p2 c1 c2) eqn:H2; [apply IH; simpl; lia|].
  destruct s2 as [|c3 s3]; [simpl; now rewrite H1, H2|].
  destruct (p3 c1 c2 c3) eqn:H3; [apply IH; simpl; lia|].
  simpl. now rewrite H1, H2, H3.
Qed.

Lemma trimRunes_idem (s : string) : trimRunes p1 p2 p3 (trimRunes p1 p2 p3 s) = trimRunes p1 p2 p3 s.
Proof. apply trimRunes_fixed, trimRunes_starts. Qed.

(** Runes stripped from [a] are stripped from [a +:+ b] as well. *)
Lemma trimRunes_app (a b : string) : trimRunes p1 p2 p3 (a +:+ b) = trimRunes p1 p2 p3 (trimRunes p1 p2 p3 a +:+ b).
Proof.
  destruct (trimRunes_decomp a) as (l & Hl & E).
  rewrite E at 1. now rewrite str_app_assoc, trimRunes_runes.
Qed.

Lemma runes_app (l r : string) :
  runes p1 p2 p3 l -> runes p1 p2 p3 r -> runes p1 p2 p3 (l +:+ r).
Proof.
  induction 1 as [|w s Hw _ IH]; intros Hr; [exact Hr|].
  rewrite str_app_assoc. constructor; auto.
Qed.

Lemma trimRunes_all (l : string) : runes p1 p2 p3 l -> trimRunes p1 p2 p3 l = "".
Proof.
  intros Hl. rewrite <- (str_app_nil_r l). now rewrite trimRunes_runes.
Qed.

End Runes.

(** ** White space *)

Lemma isSpace1_not_cont (c : ascii) : isSpace1 c = true -> contByte c = false.
Proof. destruct c as [[] [] [] [] [] [] [] []]; simpl; intros H; try discriminate H; reflexivity. Qed.

Lemma isSpace1_not_high (c : ascii) : isSpace1 c = true -> highByte c = false.
Proof. destruct c as [[] [] [] [] [] [] [] []]; simpl; intros H; try discriminate H; reflexivity. Qed.

Lemma contByte_high (c : ascii) : contByte c = true -> highByte c = true.
Proof. unfold contByte, highByte. now intros [H _]%andb_true_iff. Qed.

Lemma highByte_not_space1 (c : ascii) : highByte c = true -> isSpace1 c = false.
Proof.
  intros H. destruct (isSpace1 c) eqn:E; [|reflexivity].
  apply isSpace1_not_high in E. congruence.
Qed.

Lemma isSpace2_inv (a b : ascii) :
  isSpace2 a b = true -> a = "194"%char /\ contByte b = true.
Proof.
  unfold isSpace2. intros [Ha Hb]%andb_true_iff.
  apply Ascii.eqb_eq in Ha. split; [exact Ha|].
  apply orb_true_iff in Hb as [H|H]; apply Ascii.eqb_eq in H; subst b; reflexivity.
Qed.

Lemma isSpace3_inv (a b c : ascii) :
  isSpace3 a b c = true ->
  (a = "225"%char \/ a = "226"%char \/ a = "227"%char)
  /\ contByte b = true /\ contByte c = true.
Proof.
  unfold isSpace3. rewrite !orb_true_iff, !andb_true_iff, !orb_true_iff.
  rewrite !andb_true_iff, !Ascii.eqb_eq, !N.leb_le.
  intros [[[((-> & ->) & ->)|((-> & ->) & H)]|((-> & ->) & ->)]|((-> & ->) & ->)];
    try (repeat split; auto; fail).
  repeat split; auto.
  destruct H as [[[[H1 H2]| ->]| ->]| ->]; try reflexivity.
  unfold contByte. apply andb_true_iff. split; apply N.leb_le; lia.
Qed.

Lemma lead_not_cont (a : ascii) :
  a = "194"%char \/ a = "225"%char \/ a = "226"%char \/ a = "227"%char ->
  contByte a = false /\ isSpace1 a = false /\ highByte a = true.
Proof. intros [->|[->|[->| ->]]]; repeat split. Qed.

(** The first byte of a white space rune is no continuation byte, and
    every byte of it is a white space byte of ASCII or above 127. *)
Lemma isRune_space_head (c : ascii) (w : string) :
  isRune isSpace1 isSpace2 isSpace3 (String c w) = true -> contByte c = false.
Proof.
  destruct w as [|c2 [|c3 [|c4 w]]]; simpl; try discriminate.
  - apply isSpace1_not_cont.
  - intros [_ H]%andb_true_iff. apply isSpace2_inv in H as [-> _]. reflexivity.
  - intros [_ H]%andb_true_iff. apply isSpace3_inv in H as [H _].
    apply lead_not_cont. tauto.
Qed.

Lemma isRune_space_bytes (w : string) :
  isRune isSpace1 isSpace2 isSpace3 w = true -> allBytes spaceByte w = true.
Proof.
  unfold spaceByte.
  destruct w as [|c1 [|c2 [|c3 [|c4 w]]]]; simpl; try discriminate.
  - intros ->. reflexivity.
  - intros [_ H]%andb_true_iff. apply isSpace2_inv in H as [-> H].
    apply contByte_high in H. rewrite H. simpl. now rewrite orb_true_r.
  - intros [_ H]%andb_true_iff. apply isSpace3_inv in H as (H1 & H2 & H3).
    apply contByte_high in H2, H3. rewrite H2, H3, !orb_true_r. simpl.
    assert (highByte c1 = true) as -> by (apply lead_not_cont; tauto).
    now rewrite orb_true_r.
Qed.

Lemma allBytes_app (p : ascii -> bool) (a b : string) :
  allBytes p (a +:+ b) = allBytes p a && allBytes p b.
Proof.
  induction a as [|x a IH]; [reflexivity|].
  simpl. now rewrite IH, andb_assoc.
Qed.

Lemma spaces_bytes (l : string) : spaces l -> allBytes spaceByte l = true.
Proof.
  induction 1 as [|w s Hw _ IH]; [reflexivity|].
  rewrite allBytes_app, IH, isRune_space_bytes; auto.
Qed.

Lemma allBytes_contains (p : ascii -> bool) (c : ascii) (s : string) :
  allBytes p s = true -> p c = false -> Str.contains_byte c s = false.
Proof.
  intros Hs Hc. induction s as [|d s IH]; [reflexivity|].
  simpl in *. apply andb_true_iff in Hs as [Hd Hs].
  rewrite (IH Hs), orb_false_r. destruct (Ascii.eqb_spec d c); [congruence|reflexivity].
Qed.

Lemma spaces_no_byte (c : ascii) (l : string) :
  spaces l -> spaceByte c = false -> Str.contains_byte c l = false.
Proof. intros Hl Hc. eapply allBytes_contains; eauto using spaces_bytes. Qed.

Lemma spaces_head (c : ascii) (r : string) :
  spaces (String c r) -> contByte c = false.
Proof.
  intros H. inversion H as [|w s Hw Hs E].
  destruct w as [|d w]; [discriminate Hw|].
  simpl in E. injection E as -> _.
  eapply isRune_space_head; eauto.
Qed.

(** A string that does not start with a white space rune does not start
    with one when white space follows it. *)
Lemma startsRune_app_spaces (y r : string) :
  startsRune isSpace1 isSpace2 isSpace3 y = false -> y <> "" -> spaces r ->
  startsRune isSpace1 isSpace2 isSpace3 (y +:+ r) = false.
Proof.
  intros Hy Hne Hr.
  destruct r as [|w1 r]; [now rewrite str_app_nil_r|].
  pose proof (spaces_head _ _ Hr) as Hw.
  assert (forall a, isSpace2 a w1 = false) as N2.
  { intros a. destruct (isSpace2 a w1) eqn:E; [|reflexivity].
    apply isSpace2_inv in E as [_ E]. congruence. }
  assert (forall a b, isSpace3 a w1 b = false) as N3.
  { intros a b. destruct (isSpace3 a w1 b) eqn:E; [|reflexivity].
    apply isSpace3_inv in E as (_ & E & _). congruence. }
  assert (forall a b, isSpace3 a b w1 = false) as N3'.
  { intros a b. destruct (isSpace3 a b w1) eqn:E; [|reflexivity].
    apply isSpace3_inv in E as (_ & _ & E). congruence. }
  destruct y as [|c1 [|c2 [|c3 y]]]; [congruence| | |]; simpl in *.
  - rewrite orb_false_r in Hy. rewrite Hy, N2. simpl.
    destruct r; [reflexivity|apply N3].
  - rewrite orb_false_r in Hy. apply orb_false_iff in Hy as [-> ->].
    simpl. apply N3'.
  - exact Hy.
Qed.

Lemma isRune_length (p1 : ascii -> bool) (p2 : ascii -> ascii -> bool)
    (p3 : ascii -> ascii -> ascii -> bool) (w : string) :
  isRune p1 p2 p3 w = true -> 1 <= String.length w <= 3.
Proof.
  destruct w as [|c1 [|c2 [|c3 [|c4 w]]]]; simpl; try discriminate; lia.
Qed.

Lemma str_length_rev (s : string) : String.length (Str.rev s) = String.length s.
Proof.
  induction s as [|c s IH]; [reflexivity|].
  simpl. rewrite str_length_app, IH. simpl. lia.
Qed.

(** Reading a white space rune backwards. *)
Lemma isRune_rev (w : string) :
  isRune isSpace1 isSpace2r isSpace3r (Str.rev w)
  = isRune isSpace1 isSpace2 isSpace3 w.
Proof.
  destruct w as [|c1 [|c2 [|c3 [|c4 w]]]]; try reflexivity.
  - simpl. unfold isSpace2r. destruct (isSpace2 c1 c2) eqn:E.
    + apply isSpace2_inv in E as [-> E].
      now rewrite (highByte_not_space1 c2 (contByte_high _ E)).
    + now rewrite !andb_false_r.
  - simpl. unfold isSpace2r, isSpace3r. destruct (isSpace3 c1 c2 c3) eqn:E.
    + apply isSpace3_inv in E as (H1 & H2 & H3).
      rewrite (highByte_not_space1 c3 (contByte_high _ H3)).
      assert (isSpace1 c1 = false) as -> by (apply lead_not_cont; tauto).
      assert (isSpace2 c2 c3 = false) as ->.
      { destruct (isSpace2 c2 c3) eqn:E; [|reflexivity].
        apply isSpace2_inv in E as [-> _]. discriminate H2. }
      assert (isSpace2 c1 c2 = false) as ->.
      { destruct (isSpace2 c1 c2) eqn:E; [|reflexivity].
        apply isSpace2_inv in E as [-> _]. destruct H1 as [?|[?|?]]; discriminate. }
      reflexivity.
    + now rewrite !andb_false_r.
  - destruct (isRune isSpace1 isSpace2r isSpace3r
                (Str.rev (String c1 (String c2 (String c3 (String c4 w)))))) eqn:E;
      [|reflexivity].
    apply isRune_length in E. rewrite str_length_rev in E. simpl in E. lia.
Qed.

Lemma spaces_rev (l : string) :
  spaces l -> runes isSpace1 isSpace2r isSpace3r (Str.rev l).
Proof.
  induction 1 as [|w s Hw _ IH]; [constructor|].
  rewrite str_rev_app. apply runes_app; [exact IH|].
  rewrite <- (str_app_nil_r (Str.rev w)). constructor; [|constructor].
  now rewrite isRune_rev.
Qed.

Lemma runes_rev_spaces (l : string) :
  runes isSpace1 isSpace2r isSpace3r l -> spaces (Str.rev l).
Proof.
  induction 1 as [|w s Hw _ IH]; [constructor|].
  rewrite str_rev_app. apply runes_app; [exact IH|].
  rewrite <- (str_app_nil_r (Str.rev w)). constructor; [|constructor].
  now rewrite <- isRune_rev, str_rev_involutive.
Qed.

(** ** [TrimSpace] *)

Lemma TrimLeftSpace_spaces (l x : string) :
  spaces l -> TrimLeftSpace (l +:+ x) = TrimLeftSpace x.
Proof. apply trimRunes_runes. Qed.

Lemma TrimRightSpace_spaces (x r : string) :
  spaces r -> TrimRightSpace (x +:+ r) = TrimRightSpace x.
Proof.
  intros Hr. unfold TrimRightSpace.
  now rewrite str_rev_app, trimRunes_runes by now apply spaces_rev.
Qed.

Lemma TrimLeftSpace_decomp (s : string) :
  exists l, spaces l /\ s = l +:+ TrimLeftSpace s.
Proof. apply trimRunes_decomp. Qed.

Lemma TrimRightSpace_decomp (s : string) :
  exists r, spaces r /\ s = TrimRightSpace s +:+ r.
Proof.
  destruct (trimRunes_decomp isSpace1 isSpace2r isSpace3r (Str.rev s))
    as (l & Hl & E).
  exists (Str.rev l). split; [now apply runes_rev_spaces|].
  unfold TrimRightSpace. rewrite <- str_rev_app, <- E. now rewrite str_rev_involutive.
Qed.

Lemma TrimSpace_nil : TrimSpace "" = "".
Proof. reflexivity. Qed.

Lemma TrimSpace_spaces_l (l x : string) :
  spaces l -> TrimSpace (l +:+ x) = TrimSpace x.
Proof. intros Hl. unfold TrimSpace. now rewrite TrimLeftSpace_spaces. Qed.

Lemma TrimSpace_spaces_r (x r : string) :
  spaces r -> TrimSpace (x +:+ r) = TrimSpace x.
Proof.
  intros Hr. unfold TrimSpace, TrimLeftSpace.
  rewrite trimRunes_app.
  destruct (trimRunes isSpace1 isSpace2 isSpace3 x) as [|c y] eqn:E.
  - simpl. now rewrite trimRunes_all.
  - rewrite trimRunes_fixed.
    + now apply TrimRightSpace_spaces.
    + apply startsRune_app_spaces; [|discriminate|exact Hr].
      rewrite <- E. apply trimRunes_starts.
Qed.

Lemma TrimSpace_decomp (s : string) :
  exists l r, spaces l /\ spaces r /\ s = l +:+ TrimSpace s +:+ r.
Proof.
  destruct (TrimLeftSpace_decomp s) as (l & Hl & El).
  destruct (TrimRightSpace_decomp (TrimLeftSpace s)) as (r & Hr & Er).
  exists l, r. repeat split; auto. unfold TrimSpace. now rewrite <- Er.
Qed.

Lemma TrimSpace_idem (s : string) : TrimSpace (TrimSpace s) = TrimSpace s.
Proof.
  destruct (TrimSpace_decomp s) as (l & r & Hl & Hr & E).
  rewrite E at 2.
  now rewrite TrimSpace_spaces_l, TrimSpace_spaces_r.
Qed.

Lemma TrimSpace_spaces (s : string) : spaces s -> TrimSpace s = "".
Proof.
  intros Hs. rewrite <- (str_app_nil_r s). now rewrite TrimSpace_spaces_l.
Qed.

Lemma TrimSpace_no_byte (c : ascii) (s : string) :
  Str.contains_byte c s = false -> Str.contains_byte c (TrimSpace s) = false.
Proof.
  destruct (TrimSpace_decomp s) as (l & r & _ & _ & E).
  rewrite E at 1. rewrite !contains_byte_app.
  intros [_ [H _]%orb_false_iff]%orb_false_iff. exact H.
Qed.

(** ** [Split] and [Join] *)

Lemma Split_not_nil (s : string) (c : ascii) : Split s c <> [].
Proof.
  induction s as [|d s IH]; [discriminate|].
  simpl. destruct (Ascii.eqb d c); [discriminate|].
  destruct (Split s c); discriminate.
Qed.

Lemma Split_cons_sep (s : string) (c : ascii) :
  Split (String c s) c = "" :: Split s c.
Proof. simpl. now rewrite Ascii.eqb_refl. Qed.

Lemma Split_free (w : string) (c : ascii) :
  Str.contains_byte c w = false -> Split w c = [w].
Proof.
  induction w as [|d w IH]; [reflexivity|].
  simpl. intros [Hd Hw]%orb_false_iff. rewrite Hd, (IH Hw). reflexivity.
Qed.

Lemma Split_app_free_l (w s : string) (c : ascii) :
  Str.contains_byte c w = false ->
  Split (w +:+ s) c
  = match Split s c with hd :: tl => (w +:+ hd) :: tl | [] => [] end.
Proof.
  induction w as [|d w IH]; simpl.
  - intros _. now destruct (Split s c).
  - intros [Hd Hw]%orb_false_iff. rewrite Hd, (IH Hw).
    pose proof (Split_not_nil s c). now destruct (Split s c).
Qed.

Lemma mapLast_cons {A : Type} (f : A -> A) (x : A) (l : list A) :
  l <> [] -> mapLast f (x :: l) = x :: mapLast f l.
Proof. destruct l; [congruence|reflexivity]. Qed.

Lemma Split_app_free_r (s w : string) (c : ascii) :
  Str.contains_byte c w = false ->
  Split (s +:+ w) c = mapLast (fun x => x +:+ w) (Split s c).
Proof.
  intros Hw. induction s as [|d s IH]; simpl.
  - now apply Split_free.
  - rewrite IH. pose proof (Split_not_nil s c) as Hne.
    destruct (Ascii.eqb d c).
    + now rewrite mapLast_cons.
    + destruct (Split s c) as [|hd [|hd' tl]]; [congruence| |]; reflexivity.
Qed.

Lemma Split_elements_free (s : string) (c : ascii) :
  Forall (fun x => Str.contains_byte c x = false) (Split s c).
Proof.
  induction s as [|d s IH]; simpl.
  - repeat constructor.
  - destruct (Ascii.eqb d c) eqn:E; [constructor; [reflexivity|exact IH]|].
    destruct (Split s c) as [|hd tl]; [repeat constructor; simpl; now rewrite E|].
    inversion IH as [|? ? Hhd Htl]; subst.
    constructor; [simpl; now rewrite E, Hhd|exact Htl].
Qed.

Lemma Split_Join (xs : list string) (c : ascii) :
  xs <> [] -> Forall (fun x => Str.contains_byte c x = false) xs ->
  Split (Join xs (String c "")) c = xs.
Proof.
  induction xs as [|x [|y rest] IH]; intros Hne Hall; [congruence| |].
  - simpl. inversion Hall; subst. now apply Split_free.
  - inversion Hall as [|? ? Hx Hrest]; subst.
    change (Join (x :: y :: rest) (String c ""))
      with (x +:+ String c (Join (y :: rest) (String c ""))).
    rewrite Split_app_free_l by exact Hx.
    rewrite Split_cons_sep, IH by (auto; discriminate). now rewrite str_app_nil_r.
Qed.

Lemma map_mapLast {A B : Type} (g : A -> B) (f : A -> A) (l : list A) :
  (forall x, g (f x) = g x) -> List.map g (mapLast f l) = List.map g l.
Proof.
  intros H. induction l as [|x [|y l] IH]; [reflexivity| |].
  - simpl. now rewrite H.
  - change (mapLast f (x :: y :: l)) with (x :: mapLast f (y :: l)).
    rewrite !(List.map_cons g x). f_equal. exact IH.
Qed.

(** Trimming the whole string first does not change the trimmed
    segments. *)
Lemma Split_TrimSpace (t : string) (c : ascii) :
  spaceByte c = false ->
  List.map TrimSpace (Split (TrimSpace t) c) = List.map TrimSpace (Split t c).
Proof.
  intros Hc.
  destruct (TrimSpace_decomp t) as (l & r & Hl & Hr & E).
  rewrite E at 2.
  rewrite Split_app_free_l by now apply spaces_no_byte.
  rewrite Split_app_free_r by now apply spaces_no_byte.
  pose proof (Split_not_nil (TrimSpace t) c) as Hne.
  rewrite <- (map_mapLast TrimSpace (fun x => x +:+ r) (Split (TrimSpace t) c))
    by (intros x; now apply TrimSpace_spaces_r).
  destruct (mapLast (fun x => x +:+ r) (Split (TrimSpace t) c)) as [|hd tl] eqn:E';
    [reflexivity|].
  simpl. now rewrite TrimSpace_spaces_l.
Qed.

(** ** Trace protocol *)

Lemma filter_nonempty_Forall (P : string -> Prop) (l : list string) :
  Forall P l -> Forall P (List.filter (fun p => negb (Str.is_empty p)) l).
Proof.
  induction 1 as [|x l Hx _ IH]; simpl; [constructor|].
  destruct (negb (Str.is_empty x)); [constructor|]; auto.
Qed.

(** The code trims the trace before it splits it; the segments it keeps
    are those of the untrimmed trace. *)
Lemma appendTrace_refines (t id : string) :
  TrimSpace id <> "" -> appendTrace t id = appendTrace_spec t id.
Proof.
  intros Hid. unfold appendTrace, appendTrace_spec.
  apply is_empty_false in Hid. rewrite Hid.
  rewrite <- (Split_TrimSpace t ",") by reflexivity.
  destruct (TrimSpace t) as [|c m] eqn:E; [reflexivity|].
  reflexivity.
Qed.

Lemma appendTrace_segments_free (t : string) :
  Forall (fun x => Str.contains_byte "," x = false)
    (List.filter (fun p => negb (Str.is_empty p))
       (List.map TrimSpace (Split t ","))).
Proof.
  apply filter_nonempty_Forall.
  pose proof (Split_elements_free t ",") as H.
  induction H as [|x l Hx _ IH]; simpl; constructor; auto.
  now apply TrimSpace_no_byte.
Qed.

Example appendTrace_ab : appendTrace (appendTrace "" "a") "b" = "a,b".
Proof. reflexivity. Qed.

Example traceContains_abc_b : traceContains "a,b,c" "b" = true.
Proof. reflexivity. Qed.

Example traceContains_abc_empty : traceContains "a,b,c" "" = false.
Proof. reflexivity. Qed.

(** C2, as the code has it.  Appending the empty relay ID returns the
    trace with the white space at its two ends trimmed, not the trace as
    it was given: the result differs from the trace by white space before
    and after it only, what lies between (inner white space, empty
    segments) is kept, and the result is the trace itself exactly when
    trimming leaves the trace unchanged. *)
Theorem appendTrace_empty_id (t : string) :
  appendTrace t "" = TrimSpace t
  /\ (exists l r, spaces l /\ spaces r /\ t = l +:+ appendTrace t "" +:+ r)
  /\ (appendTrace t "" = t <-> TrimSpace t = t).
Proof.
  assert (appendTrace t "" = TrimSpace t) as E by reflexivity.
  split; [exact E|]. split.
  - rewrite E. apply TrimSpace_decomp.
  - now rewrite E.
Qed.

(** C2 as stated fails: with a leading blank in the trace, appending the
    empty relay ID returns the trace without the blank. *)
Lemma appendTrace_empty_id_changes_trace :
  appendTrace " a" "" = "a" /\ String.eqb (appendTrace " a" "") " a" = false.
Proof. split; reflexivity. Qed.

(** C3, as the code has it.  For every trace and every relay ID that is
    not empty after trimming, [appendTrace] is the specification's
    [append]: the trace split on commas, its segments trimmed, the empty
    ones dropped, the trimmed relay ID appended at the end, the whole
    rejoined with commas; when the trace is empty after trimming, the
    result is the trimmed relay ID alone.  And
    [append(append("", "a"), "b") = "a,b"]. *)
Theorem appendTrace_correct (t id : string) :
  TrimSpace id <> "" ->
  appendTrace t id = appendTrace_spec t id
  /\ (TrimSpace t = "" -> appendTrace t id = TrimSpace id)
  /\ appendTrace (appendTrace "" "a") "b" = "a,b".
Proof.
  intros Hid. split; [now apply appendTrace_refines|]. split; [|reflexivity].
  intros Ht. unfold appendTrace. rewrite Ht.
  apply is_empty_false in Hid. now rewrite Hid.
Qed.

Lemma appendTrace_correct_witness :
  appendTrace " a , ,b " " c " = "a,b,c"
  /\ appendTrace_spec " a , ,b " " c " = "a,b,c"
  /\ appendTrace "  " " c " = "c".
Proof.
  assert (TrimSpace " c " <> "") as H by (vm_compute; discriminate).
  destruct (appendTrace_correct " a , ,b " " c " H) as (E1 & _ & _).
  destruct (appendTrace_correct "  " " c " H) as (_ & E2 & _).
  split; [reflexivity|]. split; [rewrite <- E1; reflexivity|].
  rewrite E2; reflexivity.
Defined.

(** C3 as stated fails for a relay ID that is not empty but is white
    space only: the code returns the trimmed trace, where splitting,
    appending the trimmed (empty) ID and rejoining gives a trailing
    comma. *)
Lemma appendTrace_blank_id_differs :
  String.eqb " " "" = false
  /\ appendTrace "a" " " = "a"
  /\ appendTrace_spec "a" " " = "a,".
Proof. repeat split. Qed.

(** C4.  For a relay ID that is not empty after trimming,
    [traceContains] is true exactly when some comma-separated segment of
    the trace, trimmed, equals the trimmed relay ID; for a relay ID that
    is empty or white space only it is false.  And
    [contains("a,b,c", "b")] is true, [contains("a,b,c", "")] false. *)
Theorem traceContains_correct (trace relayID : string) :
  (TrimSpace relayID <> "" ->
   (traceContains trace relayID = true <->
    exists seg, In seg (Split trace ",") /\ TrimSpace seg = TrimSpace relayID))
  /\ (TrimSpace relayID = "" -> traceContains trace relayID = false)
  /\ traceContains "a,b,c" "b" = true
  /\ traceContains "a,b,c" "" = false.
Proof.
  unfold traceContains. split; [|split; [|split; reflexivity]].
  - intros Hne. apply is_empty_false in Hne. rewrite Hne. split.
    + intros H. apply existsb_exists in H as (seg & Hin & Heq).
      exists seg. split; [exact Hin|]. now apply String.eqb_eq.
    + intros (seg & Hin & Heq).
      apply existsb_exists. exists seg. split; [exact Hin|]. now apply String.eqb_eq.
  - intros ->. reflexivity.
Qed.

(** An ID that stands last in a comma-joined list of comma-free entries
    is found by [traceContains]. *)
Lemma traceContains_Join_last (xs : list string) (id : string) :
  Forall (fun x => Str.contains_byte "," x = false) xs ->
  Str.contains_byte "," id = false -> TrimSpace id <> "" ->
  traceContains (Join (xs ++ [TrimSpace id]) ",") id = true.
Proof.
  intros Hxs Hc Hid. unfold traceContains.
  rewrite (proj2 (is_empty_false _) Hid).
  change "," with (String ","%char "") at 1.
  rewrite Split_Join.
  - rewrite existsb_app. simpl.
    now rewrite TrimSpace_idem, String.eqb_refl, orb_true_r.
  - now destruct xs.
  - apply Forall_app. split; [exact Hxs|].
    constructor; [|constructor]. now apply TrimSpace_no_byte.
Qed.

(** C5.  For every trace and every relay ID that is not empty after
    trimming and holds no comma, the ID that [appendTrace] appends is
    found by [traceContains]. *)
Theorem traceContains_appendTrace (t id : string) :
  TrimSpace id <> "" -> Str.contains_byte "," id = false ->
  traceContains (appendTrace t id) id = true.
Proof.
  intros Hid Hc. rewrite appendTrace_refines by exact Hid.
  unfold appendTrace_spec.
  apply traceContains_Join_last; [|exact Hc|exact Hid].
  apply appendTrace_segments_free.
Qed.

Lemma traceContains_appendTrace_witness :
  traceContains (appendTrace "x, y ,," " z ") " z " = true.
Proof.
  apply (traceContains_appendTrace "x, y ,," " z ").
  - vm_compute. discriminate.
  - reflexivity.
Defined.

(** ** The entry point of a relay *)

Lemma methodAllowed_false (ToUpper : string -> string) (m : string)
    (allowed : list string) :
  allowed <> [] ->
  (forall a, In a allowed -> ToUpper (TrimSpace m) <> ToUpper (TrimSpace a)) ->
  server.methodAllowed ToUpper m allowed = false.
Proof.
  intros Hne Hall. unfold server.methodAllowed.
  destruct allowed as [|a0 rest]; [congruence|].
  destruct (existsb _ (a0 :: rest)) eqn:E; [|reflexivity].
  apply existsb_exists in E as (a & Hin & Heq).
  apply String.eqb_eq in Heq. now elim (Hall a Hin).
Qed.

Lemma traceContains_true (trace relayID : string) :
  TrimSpace relayID <> "" ->
  (exists seg, In seg (Split trace ",") /\ TrimSpace seg = TrimSpace relayID) ->
  traceContains trace relayID = true.
Proof.
  intros Hne (seg & Hin & Heq). unfold traceContains.
  rewrite (proj2 (is_empty_false _) Hne).
  apply existsb_exists. exists seg. split; [exact Hin|]. now apply String.eqb_eq.
Qed.

Lemma TrimSpace_nonempty (s : string) : TrimSpace s <> "" -> s <> "".
Proof. intros H ->. now apply H. Qed.

(** C6.  A relay with a non-empty allowed-method set answers a request
    whose method, trimmed and upper-cased, equals no entry of the set
    (trimmed and upper-cased) with 405 Method Not Allowed: nothing else is
    written, the body is not read, the forwarder is not called and no
    destination attempt is made.  With an empty allowed set every method
    is allowed. *)
Theorem handleRelay_method_not_allowed (ToUpper : string -> string)
    (fwd : bool) (entropy : option string) (relay : config.ResolvedRelay)
    (req : http.Request) :
  config.Methods relay <> [] ->
  (forall a, In a (config.Methods relay) ->
     ToUpper (TrimSpace (http.Method req)) <> ToUpper (TrimSpace a)) ->
  let o := server.handleRelay ToUpper fwd entropy relay req in
  http.status (server.response o) = Some http.StatusMethodNotAllowed
  /\ http.written (server.response o) = ""
  /\ server.body_drained o = false
  /\ server.forwarded o = []
  /\ flat_map relay.ForwardAsync (server.forwarded o) = []
  /\ (forall m, server.methodAllowed ToUpper m [] = true).
Proof.
  intros Hne Hall. cbv zeta. unfold server.handleRelay.
  rewrite (methodAllowed_false ToUpper _ _ Hne Hall). simpl.
  repeat split; reflexivity.
Qed.

Lemma handleRelay_method_not_allowed_witness :
  http.status
    (server.response
       (server.handleRelay asciiToUpper true None sample.relay1 sample.loopedGet))
  = Some 405.
Proof.
  refine (proj1 (handleRelay_method_not_allowed asciiToUpper true None
                   sample.relay1 sample.loopedGet _ _)).
  - discriminate.
  - intros a [<-|[]]. vm_compute. discriminate.
Defined.

Lemma traceContains_inv (trace relayID : string) :
  traceContains trace relayID = true ->
  TrimSpace relayID <> ""
  /\ exists seg, In seg (Split trace ",") /\ TrimSpace seg = TrimSpace relayID.
Proof.
  unfold traceContains.
  destruct (Str.is_empty (TrimSpace relayID)) eqn:E; [discriminate|].
  intros H. split; [now apply is_empty_false|].
  apply existsb_exists in H as (seg & Hin & Heq).
  exists seg. split; [exact Hin|]. now apply String.eqb_eq.
Qed.

(** C1, as the code has it.  The loop check looks at the first
    X-WebhookRelay-Trace field line only (what [Header.Get] returns), and
    it comes after the method check.  When the method passes the method
    check, the ID of the relay is not empty after trimming and that first
    line holds the ID as one of its comma-separated entries (entries and
    ID compared trimmed), the handler answers 202 Accepted with the header
    X-Relay-Dropped set to self_loop, takes from the body every byte its
    reader delivers, up to the end of the stream or to the first read
    error (the error is dropped, so the body is read to its end exactly
    when its reader does not fail), closes it, and does not call the
    forwarder: no destination attempt is made.  A request whose method
    is not allowed gets 405 Method Not Allowed, without the drop header,
    its body unread and nothing forwarded.  A request with an allowed
    method whose first trace line does not hold the ID (whatever later
    trace lines hold), or to a relay whose ID is blank, gets no drop
    header, and when its body can be read it is accepted and, when there
    is a forwarder, one attempt per destination is started. *)
Theorem handleRelay_self_loop (ToUpper : string -> string)
    (fwd : bool) (entropy : option string) (relay : config.ResolvedRelay)
    (req : http.Request) :
  let o := server.handleRelay ToUpper fwd entropy relay req in
  let allowed :=
    server.methodAllowed ToUpper (http.Method req) (config.Methods relay) in
  let first := Header.Get (http.Header req) "X-WebhookRelay-Trace" in
  let looped :=
    TrimSpace (config.ID relay) <> ""
    /\ exists seg,
         In seg (Split first ",") /\ TrimSpace seg = TrimSpace (config.ID relay) in
  (forall v vs,
     http.Header req !! "X-Webhookrelay-Trace" = Some (v :: vs) -> first = v)
  /\ (allowed = true -> looped ->
        http.status (server.response o) = Some http.StatusAccepted
        /\ http.sent_header (server.response o) !! "X-Relay-Dropped"
           = Some ["self_loop"]
        /\ http.written (server.response o) = "accepted"
        /\ server.body_read o = http.data (http.Body req)
        /\ server.body_drained o = negb (http.fails (http.Body req))
        /\ server.body_closed o = true
        /\ server.forwarded o = []
        /\ flat_map relay.ForwardAsync (server.forwarded o) = [])
  /\ (allowed = false ->
        http.status (server.response o) = Some http.StatusMethodNotAllowed
        /\ http.sent_header (server.response o) !! "X-Relay-Dropped" = None
        /\ server.body_read o = ""
        /\ server.forwarded o = [])
  /\ (allowed = true -> ~ looped ->
        http.sent_header (server.response o) !! "X-Relay-Dropped" = None
        /\ (http.fails (http.Body req) = false ->
            http.status (server.response o) = Some http.StatusAccepted
            /\ length (flat_map relay.ForwardAsync (server.forwarded o))
               = if fwd then length (config.Destinations relay) else 0)).
Proof.
  cbv zeta. split; [|split; [|split]].
  - intros v vs H. unfold Header.Get.
    change (CanonicalHeaderKey "X-WebhookRelay-Trace") with "X-Webhookrelay-Trace".
    now rewrite H.
  - intros Hm (Hid & Hseg). unfold server.handleRelay.
    rewrite Hm, (traceContains_true _ _ Hid Hseg).
    apply TrimSpace_nonempty, String.eqb_neq in Hid. rewrite Hid. simpl.
    repeat split; reflexivity.
  - intros Hm. unfold server.handleRelay. rewrite Hm. simpl.
    repeat split; reflexivity.
  - intros Hm Hno. unfold server.handleRelay. rewrite Hm.
    destruct (traceContains _ (config.ID relay)) eqn:Et.
    { elim Hno. now apply traceContains_inv. }
    rewrite andb_false_r. cbn [negb].
    unfold http.ReadAll. destruct (http.fails (http.Body req)); simpl.
    + split; [reflexivity|discriminate].
    + split; [reflexivity|]. intros _. split; [reflexivity|].
      destruct fwd; simpl; [|reflexivity].
      rewrite List.app_nil_r. apply length_map.
Qed.

Lemma handleRelay_self_loop_witness :
  http.status
    (server.response
       (server.handleRelay asciiToUpper true None sample.relay1 sample.looped))
  = Some 202.
Proof.
  refine (proj1 (proj1 (proj2 (handleRelay_self_loop asciiToUpper true None
                                 sample.relay1 sample.looped)) _ _)).
  - reflexivity.
  - split; [vm_compute; discriminate|].
    exists " n7bnaul23xjjk7a3". split; [vm_compute; auto|reflexivity].
Defined.

(** C1 as stated fails in three ways.  The method check comes first: a
    request whose trace holds the ID of the relay but whose method is not
    allowed gets 405, without the drop header.  The loop check reads the
    first trace field line only: a request that carries the ID in a
    second X-WebhookRelay-Trace line is accepted without drop header and
    forwarded to both destinations.  And a body whose reader fails is not
    read to its end, the response being 202 all the same. *)
Lemma handleRelay_self_loop_after_method_check :
  let o := server.handleRelay asciiToUpper true None sample.relay1 sample.loopedGet in
  let o2 :=
    server.handleRelay asciiToUpper true None sample.relay1
      sample.loopedSecondLine in
  let o3 :=
    server.handleRelay asciiToUpper true None sample.relay1 sample.loopedBroken in
  traceContains (Header.Get (http.Header sample.loopedGet) "X-WebhookRelay-Trace")
    (config.ID sample.relay1) = true
  /\ http.status (server.response o) = Some 405
  /\ http.sent_header (server.response o) !! "X-Relay-Dropped" = None
  /\ http.Header sample.loopedSecondLine !! "X-Webhookrelay-Trace"
     = Some ["zzz"; config.ID sample.relay1]
  /\ http.status (server.response o2) = Some 202
  /\ http.sent_header (server.response o2) !! "X-Relay-Dropped" = None
  /\ length (flat_map relay.ForwardAsync (server.forwarded o2)) = 2
  /\ http.status (server.response o3) = Some 202
  /\ http.sent_header (server.response o3) !! "X-Relay-Dropped" = Some ["self_loop"]
  /\ server.body_drained o3 = false.
Proof. vm_compute. repeat split. Qed.

(** C8, as the code has it.  A 202 Accepted response is of one of two
    kinds.  When the self-loop check fires, it carries X-Relay-Dropped set
    to self_loop and no X-Relay-Request-Id (the handler returns before it
    generates a request ID), and the forwarder is not called.  Otherwise
    it carries X-Relay-Request-Id with the generated request ID (the empty
    string when the random source failed) and no X-Relay-Dropped, whether
    or not anything was forwarded. *)
Theorem handleRelay_accepted_headers (ToUpper : string -> string)
    (fwd : bool) (entropy : option string) (relay : config.ResolvedRelay)
    (req : http.Request) :
  let o := server.handleRelay ToUpper fwd entropy relay req in
  let h := http.sent_header (server.response o) in
  let selfLoop :=
    negb (String.eqb (config.ID relay) "")
    && traceContains (Header.Get (http.Header req) "X-WebhookRelay-Trace")
         (config.ID relay) in
  http.status (server.response o) = Some http.StatusAccepted ->
  (selfLoop = true
   /\ h !! "X-Relay-Dropped" = Some ["self_loop"]
   /\ h !! "X-Relay-Request-Id" = None
   /\ server.forwarded o = [])
  \/ (selfLoop = false
      /\ h !! "X-Relay-Dropped" = None
      /\ h !! "X-Relay-Request-Id" = Some [fst (server.newRequestID entropy)]).
Proof.
  cbv zeta. unfold server.handleRelay.
  destruct (server.methodAllowed ToUpper _ _); simpl; [|discriminate].
  destruct (negb (String.eqb (config.ID relay) "") && traceContains _ _).
  - intros _. left. repeat split.
  - unfold http.ReadAll. destruct (http.fails (http.Body req)); simpl; [discriminate|].
    intros _. right. split; [reflexivity|]. split; [reflexivity|].
    unfold Header.Set_.
    change (CanonicalHeaderKey "X-Relay-Request-Id") with "X-Relay-Request-Id".
    apply lookup_insert_eq.
Qed.

Lemma handleRelay_accepted_headers_witness :
  http.sent_header
    (server.response
       (server.handleRelay asciiToUpper true (Some "0123456789ab") sample.relay1
          sample.fresh)) !! "X-Relay-Request-Id"
  = Some ["gaytemzugu3doobzmfra"].
Proof.
  destruct (handleRelay_accepted_headers asciiToUpper true (Some "0123456789ab")
              sample.relay1 sample.fresh) as [(H & _)|(_ & _ & H)].
  - reflexivity.
  - vm_compute in H. discriminate H.
  - exact H.
Defined.

(** C8 as stated fails: the response to a self-loop drop is 202 Accepted
    and carries no X-Relay-Request-Id; and a request accepted by a handler
    without forwarder is forwarded nowhere and carries no
    X-Relay-Dropped. *)
Lemma handleRelay_drop_has_no_request_id :
  let o := server.handleRelay asciiToUpper true (Some "0123456789ab")
             sample.relay1 sample.looped in
  let o' := server.handleRelay asciiToUpper false (Some "0123456789ab")
              sample.relay1 sample.fresh in
  http.status (server.response o) = Some 202
  /\ http.sent_header (server.response o) !! "X-Relay-Request-Id" = None
  /\ http.sent_header (server.response o) !! "X-Relay-Dropped" = Some ["self_loop"]
  /\ http.status (server.response o') = Some 202
  /\ server.forwarded o' = []
  /\ http.sent_header (server.response o') !! "X-Relay-Dropped" = None.
Proof. vm_compute. repeat split. Qed.

(** ** Header maps *)

Lemma Header_Add_lookup (d : gmap string (list string)) (k v c : string) :
  Header.Add d k v !! c
  = if decide (CanonicalHeaderKey k = c)
    then Some (default [] (d !! c) ++ [v]) else d !! c.
Proof.
  unfold Header.Add. rewrite lookup_insert.
  destruct (decide (CanonicalHeaderKey k = c)) as [->|]; reflexivity.
Qed.

Lemma Header_Set_lookup (d : gmap string (list string)) (k v c : string) :
  Header.Set_ d k v !! c
  = if decide (CanonicalHeaderKey k = c) then Some [v] else d !! c.
Proof. unfold Header.Set_. now rewrite lookup_insert. Qed.

Lemma Header_Del_lookup (d : gmap string (list string)) (k c : string) :
  Header.Del d k !! c
  = if decide (CanonicalHeaderKey k = c) then None else d !! c.
Proof. unfold Header.Del. now rewrite lookup_delete. Qed.

Lemma hopByHop_canonical (c : string) :
  In c relay.hopByHop -> CanonicalHeaderKey c = c.
Proof.
  unfold relay.hopByHop. simpl.
  intros [<-|[<-|[<-|[<-|[<-|[<-|[<-|[<-|[<-|[]]]]]]]]]]; reflexivity.
Qed.

Lemma isHopByHopHeader_true (c : string) :
  In c relay.hopByHop -> relay.isHopByHopHeader c = true.
Proof.
  intros Hc. unfold relay.isHopByHopHeader.
  apply existsb_exists. exists c. split; [exact Hc|].
  rewrite (hopByHop_canonical c Hc). apply String.eqb_refl.
Qed.

Lemma fold_Add_lookup (k c : string) (vv : list string)
    (d : gmap string (list string)) :
  CanonicalHeaderKey k <> c ->
  List.fold_left (fun d v => Header.Add d k v) vv d !! c = d !! c.
Proof.
  intros Hne. revert d. induction vv as [|v vv IH]; intros d; [reflexivity|].
  simpl. rewrite IH, Header_Add_lookup. now destruct (decide _).
Qed.

(** [copyHeaders] leaves the hop-by-hop names of [dst] as they are, in
    whatever order it visits [src]. *)
Lemma copyHeaders_hop
    (rangeHeader : gmap string (list string) -> list (string * list string))
    (dst src : gmap string (list string)) (c : string) :
  In c relay.hopByHop -> relay.copyHeaders rangeHeader dst src !! c = dst !! c.
Proof.
  intros Hc. unfold relay.copyHeaders.
  generalize (rangeHeader src) as l. intros l. revert dst.
  induction l as [|[k vv] l IH]; intros dst; [reflexivity|].
  simpl. rewrite IH.
  destruct (relay.isHopByHopHeader (CanonicalHeaderKey k)) eqn:E; [reflexivity|].
  apply fold_Add_lookup. intros Heq.
  rewrite Heq, (isHopByHopHeader_true c Hc) in E. discriminate E.
Qed.

Lemma applyOverrides_lookup (l : list (string * string))
    (h : gmap string (list string)) (c : string) :
  List.fold_left
    (fun h kv =>
       if EqualFold (fst kv) "host" then h else Header.Set_ h (fst kv) (snd kv))
    l h !! c
  = match lastOverride c l with
    | Some v => Some [v]
    | None => h !! c
    end.
Proof.
  revert h. induction l as [|kv l IH]; intros h; [reflexivity|].
  simpl. rewrite IH. destruct (lastOverride c l); [reflexivity|].
  unfold overrideApplies.
  destruct (EqualFold (fst kv) "host"); simpl; [reflexivity|].
  rewrite Header_Set_lookup.
  destruct (decide _) as [->|Hne].
  - now rewrite String.eqb_refl.
  - now apply String.eqb_neq in Hne as ->.
Qed.

Lemma lastOverride_Some (c v : string) (l : list (string * string)) :
  lastOverride c l = Some v ->
  exists k, (k, v) ∈ l /\ EqualFold k "host" = false /\ CanonicalHeaderKey k = c.
Proof.
  induction l as [|[k0 v0] l IH]; simpl; [discriminate|].
  destruct (lastOverride c l) as [v'|].
  - intros [= ->]. destruct (IH eq_refl) as (k & Hin & H).
    exists k. split; [now right|exact H].
  - unfold overrideApplies. simpl.
    destruct (EqualFold k0 "host") eqn:Ef; simpl; [discriminate|].
    destruct (String.eqb_spec (CanonicalHeaderKey k0) c); [|discriminate].
    intros [= ->]. exists k0. split; [now left|]. now split.
Qed.

Lemma lastOverride_is_Some (k v : string) (l : list (string * string)) :
  (k, v) ∈ l -> EqualFold k "host" = false ->
  is_Some (lastOverride (CanonicalHeaderKey k) l).
Proof.
  intros Hin Hf. induction l as [|kv l IH]; [now apply not_elem_of_nil in Hin|].
  simpl. apply elem_of_cons in Hin as [<-|Hin].
  - destruct (lastOverride _ l); [eauto|].
    unfold overrideApplies. simpl. rewrite Hf, String.eqb_refl. simpl. eauto.
  - destruct (IH Hin) as [v' ->]. eauto.
Qed.

Lemma lastOverride_None (c : string) (l : list (string * string)) :
  (forall k v, (k, v) ∈ l -> overrideApplies c (k, v) = false) ->
  lastOverride c l = None.
Proof.
  induction l as [|[k0 v0] l IH]; intros H; [reflexivity|].
  simpl. rewrite IH.
  - now rewrite (H k0 v0) by now left.
  - intros k v Hin. apply H. now right.
Qed.

Lemma toLowerByte_canonByte (upper : bool) (c : ascii) :
  toLowerByte (canonByte upper c) = toLowerByte c.
Proof.
  destruct upper; destruct c as [[] [] [] [] [] [] [] []]; reflexivity.
Qed.

Lemma toLowerByte_inv (c x : ascii) :
  toLowerByte c = x -> c = x \/ c = toUpperByte x.
Proof.
  intros <-. destruct c as [[] [] [] [] [] [] [] []]; vm_compute; auto.
Qed.

(** Only a name that [EqualFold] equates with [host] has the canonical
    form [Host]. *)
Lemma CanonicalHeaderKey_Host (k : string) :
  CanonicalHeaderKey k = "Host" -> EqualFold k "host" = true.
Proof.
  unfold CanonicalHeaderKey.
  destruct (allBytes validHeaderFieldByte k); [|now intros ->].
  destruct k as [|c1 [|c2 [|c3 [|c4 [|c5 k]]]]]; simpl; try discriminate.
  intros [= H1 H2 H3 H4].
  apply (f_equal toLowerByte) in H1, H2, H3, H4.
  rewrite toLowerByte_canonByte in H1, H2, H3, H4.
  apply toLowerByte_inv in H1, H2, H3, H4.
  destruct H1 as [-> | ->], H2 as [-> | ->], H3 as [-> | ->], H4 as [-> | ->];
    reflexivity.
Qed.

Lemma overrideApplies_Host (kv : string * string) :
  overrideApplies "Host" kv = false.
Proof.
  unfold overrideApplies.
  destruct (String.eqb_spec (CanonicalHeaderKey (fst kv)) "Host") as [E|];
    [|apply andb_false_r].
  now rewrite (CanonicalHeaderKey_Host _ E).
Qed.

Lemma canonical_HeaderTrace :
  CanonicalHeaderKey relay.HeaderTrace = "X-Webhookrelay-Trace".
Proof. reflexivity. Qed.

Lemma canonical_HeaderRequestID :
  CanonicalHeaderKey relay.HeaderRequestID = "X-Webhookrelay-Request-Id".
Proof. reflexivity. Qed.

(** The header map of the request that [forwardOne] sends. *)
Lemma forwardOne_Some
    (rangeHeader : gmap string (list string) -> list (string * list string))
    (rangeOverrides : gmap string string -> list (string * string))
    (urlHost : string -> option string) (a : relay.Attempt) (out : http.Request) :
  relay.forwardOne rangeHeader rangeOverrides urlHost true a = Some out ->
  http.Host out = ""
  /\ http.URL out = config.URL (relay.at_dest a)
  /\ http.data (http.Body out) = relay.at_body a
  /\ exists h,
       http.Header out = Header.Set_ h relay.HeaderRequestID (relay.at_reqID a)
       /\ (forall c, c <> "X-Webhookrelay-Trace" ->
             h !! c
             = relay.applyHeaderOverrides rangeOverrides
                 (Header.Del
                    (relay.copyHeaders rangeHeader ∅ (http.Header (relay.at_inbound a)))
                    "Host")
                 (config.Headers (relay.at_dest a)) !! c)
       /\ (TrimSpace (relay.at_relayID a) <> "" ->
           exists x,
             h !! "X-Webhookrelay-Trace"
             = Some [appendTrace x (TrimSpace (relay.at_relayID a))]).
Proof.
  unfold relay.forwardOne, relay.NewRequestWithContext. simpl.
  destruct (relay.validMethod _); simpl; [|discriminate].
  destruct (urlHost _); [|discriminate].
  intros [= <-]. simpl. repeat split.
  eexists. split; [reflexivity|]. split.
  - intros c Hc.
    destruct (negb (Str.is_empty (TrimSpace (relay.at_relayID a)))); [|reflexivity].
    rewrite Header_Set_lookup. destruct (decide _) as [E|]; [|reflexivity].
    now elim Hc.
  - intros Hid. apply is_empty_false in Hid. rewrite Hid. simpl.
    eexists. rewrite Header_Set_lookup, canonical_HeaderTrace.
    destruct (decide _) as [_|E]; [reflexivity|now elim E].
Qed.

(** The header map of the request that [forwardOne] sends, in full. *)
Lemma forwardOne_header
    (rangeHeader : gmap string (list string) -> list (string * list string))
    (rangeOverrides : gmap string string -> list (string * string))
    (urlHost : string -> option string) (a : relay.Attempt) (out : http.Request) :
  relay.forwardOne rangeHeader rangeOverrides urlHost true a = Some out ->
  let h :=
    relay.applyHeaderOverrides rangeOverrides
      (Header.Del
         (relay.copyHeaders rangeHeader ∅ (http.Header (relay.at_inbound a)))
         "Host")
      (config.Headers (relay.at_dest a)) in
  let id := TrimSpace (relay.at_relayID a) in
  http.Header out
  = Header.Set_
      (if negb (Str.is_empty id)
       then Header.Set_ h relay.HeaderTrace
              (appendTrace (Header.Get h relay.HeaderTrace) id)
       else h)
      relay.HeaderRequestID (relay.at_reqID a).
Proof.
  unfold relay.forwardOne, relay.NewRequestWithContext. simpl.
  destruct (relay.validMethod _); simpl; [|discriminate].
  destruct (urlHost _); [|discriminate].
  intros [= <-]. reflexivity.
Qed.

(** C7, as the code has it.  On the request a forward attempt sends:
    under a hop-by-hop name (Connection, Proxy-Connection, Keep-Alive,
    Proxy-Authenticate, Proxy-Authorization, Te, Trailer,
    Transfer-Encoding, Upgrade) nothing of the inbound request is found,
    whatever the case of the inbound name: the header of such a name is
    absent or holds the value of a destination override.  The host field
    is empty and there is no Host header, so the request goes to the host
    of the destination URL.  A destination override whose name is not
    [host] (case-insensitively) and whose canonical name is not
    X-Webhookrelay-Request-Id leaves one value under its canonical name,
    in place of whatever was copied there: the value of an override of
    this canonical name (its own when no other override shares the name;
    that of one of those that share it otherwise), with the trimmed relay
    ID appended by [appendTrace] when the name is X-Webhookrelay-Trace and
    the ID is not empty.  An override of X-Webhookrelay-Request-Id is lost: that header
    always holds the request ID alone.  A header that no override other
    than [host] names keeps what was copied from the inbound request (the
    request-ID header, and the trace header when the relay has an ID,
    apart): a [host] override changes nothing. *)
Theorem forwardOne_header_handling
    (rangeHeader : gmap string (list string) -> list (string * list string))
    (rangeOverrides : gmap string string -> list (string * string))
    (urlHost : string -> option string) (a : relay.Attempt) (out : http.Request) :
  (forall m, rangeOverrides m ≡ₚ map_to_list m) ->
  relay.forwardOne rangeHeader rangeOverrides urlHost true a = Some out ->
  let ov := config.Headers (relay.at_dest a) in
  let copied :=
    Header.Del
      (relay.copyHeaders rangeHeader ∅ (http.Header (relay.at_inbound a)))
      "Host" in
  let id := TrimSpace (relay.at_relayID a) in
  let sent := fun (c v : string) =>
    if String.eqb c "X-Webhookrelay-Trace" && negb (Str.is_empty id)
    then appendTrace v id else v in
  (forall c, In c relay.hopByHop -> copied !! c = None)
  /\ (forall c, In c relay.hopByHop ->
        http.Header out !! c = None
        \/ exists k v, ov !! k = Some v /\ EqualFold k "host" = false
                       /\ CanonicalHeaderKey k = c
                       /\ http.Header out !! c = Some [v])
  /\ http.Host out = ""
  /\ http.Header out !! "Host" = None
  /\ http.URL out = config.URL (relay.at_dest a)
  /\ (forall k v, ov !! k = Some v -> EqualFold k "host" = false ->
        CanonicalHeaderKey k <> "X-Webhookrelay-Request-Id" ->
        exists k' v', ov !! k' = Some v' /\ EqualFold k' "host" = false
                      /\ CanonicalHeaderKey k' = CanonicalHeaderKey k
                      /\ http.Header out !! CanonicalHeaderKey k
                         = Some [sent (CanonicalHeaderKey k) v']
                      /\ ((forall k2 v2, ov !! k2 = Some v2 ->
                             CanonicalHeaderKey k2 = CanonicalHeaderKey k -> k2 = k) ->
                          v' = v))
  /\ http.Header out !! "X-Webhookrelay-Request-Id" = Some [relay.at_reqID a]
  /\ (forall c,
        c <> "X-Webhookrelay-Request-Id" ->
        (c = "X-Webhookrelay-Trace" -> id = "") ->
        (forall k v, ov !! k = Some v -> EqualFold k "host" = false ->
           CanonicalHeaderKey k <> c) ->
        http.Header out !! c = copied !! c).
Proof.
  intros Hperm Hout ov copied id sent.
  assert (forall k v, (k, v) ∈ rangeOverrides ov <-> ov !! k = Some v) as Hin.
  { intros k v. rewrite (Hperm ov). apply elem_of_map_to_list. }
  pose proof (forwardOne_header _ _ _ _ _ Hout) as Hh. cbv zeta in Hh.
  fold ov copied id in Hh.
  set (h := relay.applyHeaderOverrides rangeOverrides copied ov) in Hh.
  assert (forall c, h !! c
            = match lastOverride c (rangeOverrides ov) with
              | Some v => Some [v]
              | None => copied !! c
              end) as Happly.
  { intros c. apply applyOverrides_lookup. }
  assert (forall c, c <> "X-Webhookrelay-Request-Id" ->
            http.Header out !! c
            = if String.eqb c "X-Webhookrelay-Trace" && negb (Str.is_empty id)
              then Some [appendTrace (Header.Get h relay.HeaderTrace) id]
              else h !! c) as Hlook.
  { intros c Hc. rewrite Hh, Header_Set_lookup, canonical_HeaderRequestID.
    destruct (decide _) as [E|_]; [now elim Hc|].
    destruct (negb (Str.is_empty id)); [|now rewrite andb_false_r].
    rewrite andb_true_r, Header_Set_lookup, canonical_HeaderTrace.
    destruct (decide _) as [<-|Hne]; [reflexivity|].
    assert (String.eqb c "X-Webhookrelay-Trace" = false) as ->; [|reflexivity].
    apply String.eqb_neq. congruence. }
  assert (forall c, In c relay.hopByHop -> copied !! c = None) as Hhop.
  { intros c Hc. unfold copied. rewrite Header_Del_lookup.
    destruct (decide _); [reflexivity|]. now rewrite copyHeaders_hop. }
  split; [exact Hhop|].
  split; [|split; [|split; [|split; [|split; [|split]]]]].
  - intros c Hc.
    assert (c <> "X-Webhookrelay-Trace" /\ c <> "X-Webhookrelay-Request-Id") as [H1 H2].
    { revert Hc. unfold relay.hopByHop. simpl.
      intros [<-|[<-|[<-|[<-|[<-|[<-|[<-|[<-|[<-|[]]]]]]]]]]; split; discriminate. }
    rewrite (Hlook c H2). apply String.eqb_neq in H1. rewrite H1. cbn [andb].
    rewrite Happly.
    destruct (lastOverride c (rangeOverrides ov)) as [v|] eqn:E.
    + right. apply lastOverride_Some in E as (k & Hk & Hf & Hck).
      exists k, v. repeat split; auto. now apply Hin.
    + left. now apply Hhop.
  - unfold relay.forwardOne, relay.NewRequestWithContext in Hout.
    destruct (relay.validMethod _) in Hout; simpl in Hout; [|discriminate].
    destruct (urlHost _) in Hout; [|discriminate].
    now injection Hout as <-.
  - rewrite Hlook by discriminate. cbn [String.eqb Ascii.eqb Bool.eqb andb].
    rewrite Happly, lastOverride_None by (intros; apply overrideApplies_Host).
    unfold copied. rewrite Header_Del_lookup. now destruct (decide _).
  - unfold relay.forwardOne, relay.NewRequestWithContext in Hout.
    destruct (relay.validMethod _) in Hout; simpl in Hout; [|discriminate].
    destruct (urlHost _) in Hout; [|discriminate].
    now injection Hout as <-.
  - intros k v Hkv Hf Hnr.
    destruct (lastOverride_is_Some k v (rangeOverrides ov)) as [v' Hv'];
      [now apply Hin|exact Hf|].
    destruct (lastOverride_Some _ _ _ Hv') as (k' & Hk' & Hf' & Hc').
    apply Hin in Hk'.
    exists k', v'. split; [exact Hk'|]. split; [exact Hf'|]. split; [exact Hc'|].
    split.
    + rewrite (Hlook _ Hnr). unfold sent.
      destruct (String.eqb (CanonicalHeaderKey k) "X-Webhookrelay-Trace"
                && negb (Str.is_empty id)) eqn:Et.
      * apply andb_true_iff in Et as [Et _]. apply String.eqb_eq in Et.
        unfold Header.Get. rewrite canonical_HeaderTrace, Happly.
        rewrite Et in Hv'. now rewrite Hv'.
      * now rewrite Happly, Hv'.
    + intros Huniq. rewrite (Huniq k' v' Hk' Hc') in Hk'. congruence.
  - rewrite Hh, Header_Set_lookup, canonical_HeaderRequestID.
    now destruct (decide _).
  - intros c Hc Ht Hnone. rewrite (Hlook c Hc).
    assert (String.eqb c "X-Webhookrelay-Trace" && negb (Str.is_empty id) = false)
      as ->.
    { destruct (String.eqb_spec c "X-Webhookrelay-Trace") as [E|]; [|reflexivity].
      now rewrite (Ht E). }
    rewrite Happly, lastOverride_None; [reflexivity|].
    intros k v Hkv. unfold overrideApplies. simpl.
    destruct (EqualFold k "host") eqn:Ef; [reflexivity|]. simpl.
    apply String.eqb_neq. apply (Hnone k v); [now apply Hin|exact Ef].
Qed.

Lemma forwardOne_header_handling_witness :
  match relay.forwardOne map_to_list map_to_list sample.urlHost true sample.attemptA with
  | Some out =>
      http.Header out !! "Connection" = None
      /\ http.Header out !! "Host" = None
      /\ http.Header out !! "X-Token" = Some ["t0"]
      /\ http.Host out = ""
  | None => False
  end.
Proof.
  destruct (relay.forwardOne map_to_list map_to_list sample.urlHost true
              sample.attemptA) as [out|] eqn:E; [|vm_compute in E; discriminate E].
  destruct (forwardOne_header_handling map_to_list map_to_list sample.urlHost
              sample.attemptA out (fun m => reflexivity _) E)
    as (_ & _ & H3 & H4 & _).
  repeat split; [| exact H4 | | exact H3].
  - injection E as <-. vm_compute. reflexivity.
  - injection E as <-. vm_compute. reflexivity.
Defined.

(** C7 as stated fails for an override that names one of the two headers
    the forwarder sets after the overrides, and for overrides that share a
    canonical name.  The override of X-WebhookRelay-Request-Id is
    overwritten by the request ID and the override of X-WebhookRelay-Trace
    gets the relay ID appended; of the overrides [x-token] and [X-Token]
    the one that the map iteration visits last is kept, so either of them
    can be the one that replaces nothing. *)
Lemma forwardOne_override_not_kept :
  let header := fun (order : gmap string string -> list (string * string))
                    (a : relay.Attempt) (c : string) =>
    match relay.forwardOne map_to_list order sample.urlHost true a with
    | Some out => http.Header out !! c
    | None => None
    end in
  config.Headers sample.destC !! "X-WebhookRelay-Request-Id" = Some "override-id"
  /\ header map_to_list sample.attemptC "X-Webhookrelay-Request-Id"
     = Some ["gaytemzugu3doobzmfra"]
  /\ config.Headers sample.destC !! "X-WebhookRelay-Trace" = Some "override-trace"
  /\ header map_to_list sample.attemptC "X-Webhookrelay-Trace"
     = Some ["override-trace,n7bnaul23xjjk7a3"]
  /\ config.Headers sample.destD !! "x-token" = Some "lower"
  /\ config.Headers sample.destD !! "X-Token" = Some "upper"
  /\ header map_to_list sample.attemptD "X-Token" = Some ["upper"]
  /\ header (fun m => List.rev (map_to_list m)) sample.attemptD "X-Token"
     = Some ["lower"].
Proof. vm_compute. repeat split. Qed.

(** ** [path.Clean] on rooted paths *)

Lemma Join_snoc (es : list string) (e sep : string) :
  Join (es ++ [e]) sep
  = match es with [] => e | _ => Join es sep +:+ sep +:+ e end.
Proof.
  induction es as [|x [|y es] IH]; [reflexivity|reflexivity|].
  change (Join ((x :: y :: es) ++ [e]) sep)
    with (x +:+ sep +:+ Join ((y :: es) ++ [e]) sep).
  rewrite IH.
  change (Join (x :: y :: es) sep) with (x +:+ sep +:+ Join (y :: es) sep).
  now rewrite !str_app_assoc.
Qed.

Lemma keptElement_nonempty (e : string) : keptElement e -> e <> "".
Proof. intros [H _] ->. discriminate H. Qed.

Lemma Join_not_nil (es : list string) (sep : string) :
  es <> [] -> Forall keptElement es -> Join es sep <> "".
Proof.
  destruct es as [|x [|y es]]; [congruence| |]; intros _ H;
    inversion H as [|? ? Hx _]; subst; apply keptElement_nonempty in Hx.
  - exact Hx.
  - change (Join (x :: y :: es) sep) with (x +:+ sep +:+ Join (y :: es) sep).
    intros E. apply str_app_eq_nil in E as [E _]. contradiction.
Qed.

Lemma rootedOut_nil : rootedOut [] = "/".
Proof. reflexivity. Qed.

Lemma rootedOut_snoc (es : list string) (e : string) :
  rootedOut (es ++ [e])
  = Str.rev e +:+ match es with [] => "/" | _ => String "/" (rootedOut es) end.
Proof.
  unfold rootedOut. rewrite Join_snoc. destruct es as [|x es]; simpl.
  - reflexivity.
  - rewrite !str_rev_app. simpl. now rewrite !str_app_assoc.
Qed.

Lemma rootedOut_length_1 (es : list string) :
  Forall keptElement es ->
  Nat.eqb (String.length (rootedOut es)) 1 = match es with [] => true | _ => false end.
Proof.
  intros H. destruct es as [|x es]; [reflexivity|].
  unfold rootedOut. rewrite str_length_rev.
  pose proof (Join_not_nil (x :: es) "/" ltac:(discriminate) H) as Hne.
  destruct (Join (x :: es) "/"); [congruence|reflexivity].
Qed.

Lemma backtrack_element (r z : string) :
  Str.contains_byte "/" r = false -> r <> "" ->
  path.backtrack 1 (r +:+ "/") = "/"
  /\ (z <> "" -> path.backtrack 1 (r +:+ String "/" z) = z).
Proof.
  induction r as [|c r IH]; [congruence|]. simpl.
  intros [Hc Hr]%orb_false_iff _.
  rewrite !str_length_app. simpl String.length.
  rewrite Hc. simpl negb. rewrite !andb_true_r.
  destruct r as [|c' r'].
  - simpl. split; [reflexivity|]. intros Hz.
    destruct z; [congruence|]. simpl. now rewrite andb_false_r.
  - destruct IH as [IH1 IH2]; [exact Hr|discriminate|].
    assert (Nat.ltb 1 (String.length (String c' r') + 1) = true) as ->
      by (apply Nat.ltb_lt; simpl; lia).
    split; [exact IH1|]. intros Hz.
    assert (Nat.ltb 1 (String.length (String c' r') + S (String.length z)) = true) as ->
      by (apply Nat.ltb_lt; simpl; lia).
    now apply IH2.
Qed.

Lemma rootedOut_backtrack (es : list string) (e : string) :
  Forall keptElement es -> keptElement e ->
  path.backtrack 1 (rootedOut (es ++ [e])) = rootedOut es.
Proof.
  intros Hes He. rewrite rootedOut_snoc.
  assert (Str.contains_byte "/" (Str.rev e) = false) as Hfree
    by (rewrite contains_byte_rev; apply He).
  assert (Str.rev e <> "") as Hne
    by (intros E; apply str_rev_eq_nil in E; now apply (keptElement_nonempty e)).
  destruct es as [|x es].
  - now apply backtrack_element.
  - apply (backtrack_element _ (rootedOut (x :: es)) Hfree Hne).
    unfold rootedOut. intros E. apply str_rev_eq_nil in E. discriminate E.
Qed.

(** The copy loop takes the bytes before the next slash. *)
Lemma copyElement_spec (p out : string) :
  exists e rest,
    p = e +:+ rest /\ Str.contains_byte "/" e = false
    /\ path.atSeparator rest = true
    /\ path.copyElement p out = (Str.rev e +:+ out, rest).
Proof.
  revert out. induction p as [|c p IH]; intros out.
  - exists "", "". repeat split.
  - simpl. destruct (Ascii.eqb c "/") eqn:E.
    + exists "", (String c p). simpl. now rewrite E.
    + destruct (IH (String c out)) as (e & rest & -> & Hf & Hs & Hc).
      exists (String c e), rest. simpl. rewrite E, Hf, Hc.
      repeat split; auto. now rewrite str_app_assoc.
Qed.

(** The last case of the loop of [Clean] on a rooted path: the element
    that starts [p] is pushed on the kept elements. *)
Lemma cleanLoop_element (p : string) (es : list string) :
  Forall keptElement es ->
  path.atSeparator p = false ->
  (forall rest, path.atSeparator rest = true ->
     p <> String "." rest /\ p <> String "." (String "." rest)) ->
  exists e rest,
    keptElement e /\ String.length rest < String.length p
    /\ path.copyElement p
         (if (true && negb (Nat.eqb (String.length (rootedOut es)) 1))
             || (negb true && negb (Nat.eqb (String.length (rootedOut es)) 0))
          then String "/" (rootedOut es) else rootedOut es)
       = (rootedOut (es ++ [e]), rest).
Proof.
  intros Hes Hsep Hdots.
  destruct (copyElement_spec p
              (if (true && negb (Nat.eqb (String.length (rootedOut es)) 1))
                  || (negb true && negb (Nat.eqb (String.length (rootedOut es)) 0))
               then String "/" (rootedOut es) else rootedOut es))
    as (e & rest & Hp & Hfree & Hrest & Hcopy).
  exists e, rest.
  assert (e <> "") as Hne.
  { intros ->. simpl in Hp. subst rest. congruence. }
  split; [|split].
  - split; [|exact Hfree]. unfold realElement.
    destruct (Hdots rest Hrest) as [H1 H2].
    destruct (String.eqb_spec e "") as [E|_]; [contradiction|].
    destruct (String.eqb_spec e ".") as [E|_]; [subst e; now elim H1|].
    destruct (String.eqb_spec e "..") as [E|_]; [subst e; now elim H2|].
    reflexivity.
  - rewrite Hp, str_length_app. destruct e; [congruence|simpl; lia].
  - rewrite Hcopy. f_equal. rewrite rootedOut_snoc, rootedOut_length_1 by exact Hes.
    now destruct es.
Qed.

(** The loop of [Clean] on a rooted path keeps the written bytes in the
    form slash, kept elements, single slashes between them. *)
Lemma cleanLoop_rooted (fuel : nat) (p : string) (es : list string) :
  Forall keptElement es ->
  exists es', Forall keptElement es'
              /\ path.cleanLoop fuel true p (rootedOut es) 1 = rootedOut es'.
Proof.
  revert p es. induction fuel as [|fuel IH]; intros p es Hes; [now exists es|].
  destruct p as [|c p1]; [now exists es|].
  cbn [path.cleanLoop].
  destruct (Ascii.eqb c "/") eqn:Eslash; [now apply IH|].
  destruct (Ascii.eqb c "." && path.atSeparator p1) eqn:Edot; [now apply IH|].
  assert (forall rest, path.atSeparator rest = true ->
            String c p1 <> String "." rest) as Hnodot.
  { intros rest Hrest [= -> ->]. simpl in Edot. congruence. }
  destruct p1 as [|c1 p2].
  - destruct (cleanLoop_element (String c "") es Hes) as (e & rest & He & _ & ->).
    + simpl. exact Eslash.
    + intros rest Hrest. split; [now apply Hnodot|discriminate].
    + apply IH. apply Forall_app. split; [exact Hes|now constructor].
  - destruct (Ascii.eqb c "." && Ascii.eqb c1 "." && path.atSeparator p2) eqn:Edd.
    + destruct (Nat.ltb 1 (String.length (rootedOut es))) eqn:Elen.
      * destruct es as [|x es0 _] using rev_ind; [discriminate Elen|].
        apply Forall_app in Hes as [Hes0 Hx]. inversion Hx; subst.
        rewrite rootedOut_backtrack by assumption. now apply IH.
      * simpl. now apply IH.
    + destruct (cleanLoop_element (String c (String c1 p2)) es Hes)
        as (e & rest & He & _ & ->).
      * simpl. exact Eslash.
      * intros rest Hrest. split; [now apply Hnodot|].
        intros [= -> -> ->]. simpl in Edd. congruence.
      * apply IH. apply Forall_app. split; [exact Hes|now constructor].
Qed.

Lemma isCleanAbs_rootedOut (es : list string) :
  Forall keptElement es -> isCleanAbs (Str.rev (rootedOut es)) = true.
Proof.
  intros Hes. unfold rootedOut. rewrite str_rev_involutive.
  destruct es as [|x es]; [reflexivity|].
  pose proof (Join_not_nil (x :: es) "/" ltac:(discriminate) Hes) as Hne.
  change ("/" +:+ Join (x :: es) "/") with (String "/" (Join (x :: es) "/")).
  unfold isCleanAbs.
  destruct (Join (x :: es) "/") as [|j js] eqn:E; [congruence|].
  rewrite <- E. change "/" with (String "/"%char "") at 1.
  rewrite Split_Join.
  - apply forallb_forall. intros e He.
    apply (proj1 (List.Forall_forall _ _) Hes) in He. apply He.
  - discriminate.
  - eapply List.Forall_impl; [|exact Hes]. intros e He. apply He.
Qed.

(** [Clean] of a rooted path is a clean absolute path. *)
Lemma Clean_rooted (x : string) : isCleanAbs (path.Clean (String "/" x)) = true.
Proof.
  unfold path.Clean. rewrite Ascii.eqb_refl.
  destruct (cleanLoop_rooted (String.length (String "/" x)) x [] (List.Forall_nil _))
    as (es & Hes & E).
  rewrite rootedOut_nil in E. rewrite E.
  assert (Str.is_empty (rootedOut es) = false) as ->.
  { apply is_empty_false. unfold rootedOut. intros H. apply str_rev_eq_nil in H.
    discriminate H. }
  now apply isCleanAbs_rootedOut.
Qed.

Lemma copyElement_shorter (c : ascii) (p1 out out2 rest : string) :
  Ascii.eqb c "/" = false ->
  path.copyElement (String c p1) out = (out2, rest) ->
  String.length rest < String.length (String c p1).
Proof.
  intros Hc Hcopy.
  destruct (copyElement_spec (String c p1) out) as (e & r & Hp & _ & Hr & E).
  rewrite Hcopy in E. injection E as -> ->.
  rewrite Hp, str_length_app. destruct e; [|simpl; lia].
  simpl in Hp. subst r. simpl in Hr. congruence.
Qed.

(** Every iteration of the loop of [Clean] reads a byte: the loop ends
    within as many iterations as bytes are left, and more fuel changes
    nothing. *)
Lemma cleanLoop_fuel_enough (f1 f2 : nat) (rooted : bool) (p out : string)
    (dotdot : nat) :
  String.length p <= f1 -> String.length p <= f2 ->
  path.cleanLoop f1 rooted p out dotdot = path.cleanLoop f2 rooted p out dotdot.
Proof.
  revert f2 p out dotdot.
  induction f1 as [|f1 IH]; intros f2 p out dotdot H1 H2.
  { destruct p; [|simpl in H1; lia]. now destruct f2. }
  destruct p as [|c p1]; [now destruct f2|].
  destruct f2 as [|f2]; [simpl in H2; lia|].
  simpl in H1, H2. cbn [path.cleanLoop].
  destruct (Ascii.eqb c "/") eqn:Eslash; [apply IH; lia|].
  destruct (Ascii.eqb c "." && path.atSeparator p1); [apply IH; lia|].
  assert (forall o,
            (let '(out2, rest) := path.copyElement (String c p1) o in
             path.cleanLoop f1 rooted rest out2 dotdot)
            = (let '(out2, rest) := path.copyElement (String c p1) o in
               path.cleanLoop f2 rooted rest out2 dotdot)) as Helem.
  { intros o. destruct (path.copyElement (String c p1) o) as [out2 rest] eqn:E.
    pose proof (copyElement_shorter _ _ _ _ _ Eslash E) as Hlt. simpl in Hlt.
    apply IH; lia. }
  destruct p1 as [|c1 p2]; [apply Helem|].
  simpl in H1, H2.
  destruct (Ascii.eqb c "." && Ascii.eqb c1 "." && path.atSeparator p2);
    [|apply Helem].
  destruct (Nat.ltb dotdot (String.length out)); [apply IH; lia|].
  destruct (negb rooted); apply IH; lia.
Qed.

(** ** Path resolution *)

Lemma HasPrefix_slash (s : string) :
  HasPrefix s "/" = true <-> exists r, s = String "/" r.
Proof.
  destruct s as [|c s].
  - split; [discriminate|intros [r H]; discriminate H].
  - unfold HasPrefix. destruct (Ascii.eqb_spec "/" c) as [<-|Hne]; simpl.
    + split; [eauto|reflexivity].
    + split; [discriminate|]. intros [r [= E _]]. now elim Hne.
Qed.

Lemma withSlash_rooted (s : string) :
  exists x, (if negb (HasPrefix s "/") then "/" +:+ s else s) = String "/" x.
Proof.
  destruct (HasPrefix s "/") eqn:E; simpl.
  - now apply HasPrefix_slash.
  - now exists s.
Qed.

Lemma spaces_not_rooted (r : string) : spaces (String "/" r) -> False.
Proof. intros H. apply spaces_bytes in H. discriminate H. Qed.

Lemma TrimSpace_rooted (r : string) :
  exists r', TrimSpace (String "/" r) = String "/" r'.
Proof.
  destruct (TrimSpace_decomp (String "/" r)) as (l & r2 & Hl & Hr & E).
  destruct l as [|c l].
  - simpl in E. destruct (TrimSpace (String "/" r)) as [|c m].
    + simpl in E. subst r2. now apply spaces_not_rooted in Hr.
    + simpl in E. injection E as <- _. eauto.
  - simpl in E. injection E as <- _. now apply spaces_not_rooted in Hl.
Qed.

Lemma isCleanAbs_rooted (s : string) :
  isCleanAbs s = true -> exists r, s = String "/" r.
Proof.
  destruct s as [|c s]; [discriminate|].
  destruct (Ascii.eqb_spec c "/") as [->|Hne]; [eauto|].
  intros H. exfalso. apply Hne.
  destruct c as [[] [] [] [] [] [] [] []]; try discriminate H. reflexivity.
Qed.

Lemma TrimRight_head (d : ascii) (s : string) (c : ascii) :
  TrimRight (String d s) c = "" \/ exists r, TrimRight (String d s) c = String d r.
Proof.
  simpl. destruct (Str.is_empty (TrimRight s c) && Ascii.eqb d c); eauto.
Qed.

(** [normalizeBasePath] gives the empty prefix or a rooted one. *)
Lemma normalizeBasePath_rooted (b : string) :
  normalizeBasePath b = "" \/ exists r, normalizeBasePath b = String "/" r.
Proof.
  unfold normalizeBasePath.
  destruct (String.eqb (TrimSpace b) "" || String.eqb (TrimSpace b) "/"); [now left|].
  destruct (withSlash_rooted (TrimSpace b)) as [x ->].
  destruct (isCleanAbs_rooted _ (Clean_rooted x)) as [y ->].
  destruct (String.eqb (String "/" y) "/"); [now left|].
  apply TrimRight_head.
Qed.


(** With an empty or rooted base prefix, [joinPaths] gives a clean
    absolute path. *)
Lemma joinPaths_clean (basePath listenPath : string) :
  TrimSpace basePath = "" \/ (exists r, TrimSpace basePath = String "/" r) ->
  isCleanAbs (joinPaths basePath listenPath) = true.
Proof.
  intros Hb. unfold joinPaths.
  destruct (withSlash_rooted (TrimSpace listenPath)) as [x ->].
  destruct Hb as [->|[r ->]]; simpl.
  - destruct (String.eqb (TrimSpace listenPath) ""); [reflexivity|apply Clean_rooted].
  - destruct (String.eqb (TrimSpace listenPath) ""); apply Clean_rooted.
Qed.



(** [joinPaths] itself leaves a base prefix without leading slash as it
    is: the leading slash of the result comes from [normalizeBasePath]. *)
Example joinPaths_relative_base :
  joinPaths "api" "x" = "api/x"
  /\ joinPaths (normalizeBasePath "api") "x" = "/api/x"
  /\ joinPaths (normalizeBasePath " /api//v1/ ") "./hook/../in" = "/api/v1/in".
Proof. vm_compute. repeat split. Qed.

(** ** Relay identity *)

(** The digest of the three bytes [abc], as FIPS 180-4 gives it. *)
Example Sum256_abc :
  List.map N_of_ascii (list_ascii_of_string (sha256.Sum256 "abc"))
  = ([186; 120; 22; 191; 143; 1; 207; 234;
     65; 65; 64; 222; 93; 174; 34; 35;
     176; 3; 97; 163; 150; 23; 122; 156;
     180; 16; 255; 97; 242; 0; 21; 173])%N.
Proof. vm_compute. reflexivity. Qed.

Lemma land_31_lt (i : N) : (N.land i 31 < 32)%N.
Proof.
  change 31%N with (N.ones 5). rewrite N.land_ones.
  apply N.mod_lt. discriminate.
Qed.

Lemma b32char_lower (i : N) : isBase32Lower (toLowerByte (b32char i)) = true.
Proof.
  unfold b32char.
  pose proof (land_31_lt i) as H.
  assert (N.to_nat (N.land i 31) < 32) as Hn by lia.
  remember (N.to_nat (N.land i 31)) as n eqn:E. clear E H.
  do 32 (destruct n as [|n]; [reflexivity|]). lia.
Qed.

(** Base-32 output, lowered, is made of the characters a-z and 2-7. *)
Lemma EncodeToString_alphabet (src : string) :
  allBytes isBase32Lower (ToLower (EncodeToString src)) = true.
Proof.
  induction src as [src IH] using string_strong_ind.
  destruct src as [|a0 [|a1 [|a2 [|a3 [|a4 rest]]]]]; simpl;
    rewrite ?b32char_lower; try reflexivity.
  apply IH. simpl. lia.
Qed.

Lemma allBytes_substring (p : ascii -> bool) (n : nat) (s : string) :
  allBytes p s = true -> allBytes p (String.substring 0 n s) = true.
Proof.
  revert s. induction n as [|n IH]; intros [|c s]; simpl; auto.
  intros [-> H]%andb_true_iff. simpl. now apply IH.
Qed.

(** C9.  The relay ID of a listen path is the SHA-256 digest of the path,
    base-32 encoded without padding, lowered, cut to its first 16
    characters.  The digest has 32 bytes and its encoding 52 characters,
    so the cut is within the string and the ID has exactly 16 characters,
    all of them in a-z and 2-7; they encode the first ten bytes of the
    digest.  The ID depends on the path alone (no random source enters
    it): equal paths have equal IDs. *)
Theorem relayID_correct (listenPath : string) :
  relayID listenPath
  = sliceTo (ToLower (EncodeToString (sha256.Sum256 listenPath))) 16
  /\ String.length (sha256.Sum256 listenPath) = 32
  /\ String.length (ToLower (EncodeToString (sha256.Sum256 listenPath))) = 52
  /\ String.length (relayID listenPath) = 16
  /\ allBytes isBase32Lower (relayID listenPath) = true
  /\ relayID listenPath
     = ToLower (EncodeToString (sliceTo (sha256.Sum256 listenPath) 10))
  /\ (forall q, q = listenPath -> relayID q = relayID listenPath)
  /\ relayID "/hook" = "n7bnaul23xjjk7a3".
Proof.
  split; [reflexivity|].
  split; [|split; [|split; [|split; [|split; [|split]]]]].
  - unfold sha256.Sum256. abstract_digest. reflexivity.
  - unfold sha256.Sum256. abstract_digest. reflexivity.
  - unfold relayID, sha256.Sum256. abstract_digest. reflexivity.
  - unfold relayID, sliceTo. apply allBytes_substring, EncodeToString_alphabet.
  - unfold relayID, sha256.Sum256. abstract_digest. reflexivity.
  - now intros q ->.
  - vm_compute. reflexivity.
Qed.

(** ** Loop prevention from end to end *)

Lemma plain_startsRune (c : ascii) (s : string) :
  spaceByte c = false ->
  startsRune isSpace1 isSpace2 isSpace3 (String c s) = false
  /\ startsRune isSpace1 isSpace2r isSpace3r (String c s) = false.
Proof.
  unfold spaceByte. intros [H1 Hh]%orb_false_iff.
  assert (contByte c = false) as Hc.
  { destruct (contByte c) eqn:E; [|reflexivity].
    apply contByte_high in E. congruence. }
  assert (forall b, isSpace2 c b = false) as A2.
  { intros b. destruct (isSpace2 c b) eqn:E; [|reflexivity].
    apply isSpace2_inv in E as [-> _]. discriminate Hh. }
  assert (forall a b, isSpace3 c a b = false) as A3.
  { intros a b. destruct (isSpace3 c a b) eqn:E; [|reflexivity].
    apply isSpace3_inv in E as ([->|[->| ->]] & _); discriminate Hh. }
  assert (forall b, isSpace2 b c = false) as B2.
  { intros b. destruct (isSpace2 b c) eqn:E; [|reflexivity].
    apply isSpace2_inv in E as [_ E]. congruence. }
  assert (forall a b, isSpace3 a b c = false) as B3.
  { intros a b. destruct (isSpace3 a b c) eqn:E; [|reflexivity].
    apply isSpace3_inv in E as (_ & _ & E). congruence. }
  unfold isSpace2r, isSpace3r. simpl. rewrite H1.
  destruct s as [|c2 [|c3 s]]; simpl; rewrite ?A2, ?A3, ?B2, ?B3; auto.
Qed.

Lemma allBytes_rev (p : ascii -> bool) (s : string) :
  allBytes p (Str.rev s) = allBytes p s.
Proof.
  induction s as [|c s IH]; [reflexivity|].
  simpl. rewrite allBytes_app, IH. simpl. rewrite andb_true_r. apply andb_comm.
Qed.

(** A string without white space bytes and without bytes above 127 is
    left as it is by [TrimSpace]. *)
Lemma TrimSpace_plain (s : string) :
  allBytes (fun c => negb (spaceByte c)) s = true -> TrimSpace s = s.
Proof.
  intros Hs. unfold TrimSpace, TrimLeftSpace, TrimRightSpace.
  assert (trimRunes isSpace1 isSpace2 isSpace3 s = s) as ->.
  { apply trimRunes_fixed. destruct s as [|c s]; [reflexivity|].
    simpl in Hs. apply andb_true_iff in Hs as [Hc _].
    apply negb_true_iff in Hc. now apply plain_startsRune. }
  rewrite trimRunes_fixed; [apply str_rev_involutive|].
  rewrite <- allBytes_rev in Hs. destruct (Str.rev s) as [|c r]; [reflexivity|].
  simpl in Hs. apply andb_true_iff in Hs as [Hc _].
  apply negb_true_iff in Hc. now apply plain_startsRune.
Qed.

Lemma isBase32Lower_plain (c : ascii) :
  isBase32Lower c = true ->
  negb (spaceByte c) = true /\ Ascii.eqb c "," = false.
Proof.
  destruct c as [[] [] [] [] [] [] [] []]; intros H; try discriminate H;
    split; reflexivity.
Qed.

Lemma allBytes_impl (p q : ascii -> bool) (s : string) :
  (forall c, p c = true -> q c = true) ->
  allBytes p s = true -> allBytes q s = true.
Proof.
  intros Hpq. induction s as [|c s IH]; [reflexivity|].
  simpl. intros [Hc Hs]%andb_true_iff. now rewrite (Hpq c Hc), IH.
Qed.

Lemma relayID_plain (p : string) :
  TrimSpace (relayID p) = relayID p
  /\ relayID p <> ""
  /\ Str.contains_byte "," (relayID p) = false.
Proof.
  assert (allBytes isBase32Lower (relayID p) = true) as Hal.
  { unfold relayID, sliceTo. apply allBytes_substring, EncodeToString_alphabet. }
  split; [|split].
  - apply TrimSpace_plain. eapply allBytes_impl; [|exact Hal].
    intros c Hc. now apply isBase32Lower_plain.
  - unfold relayID, sha256.Sum256. abstract_digest. discriminate.
  - eapply allBytes_contains; [exact Hal|reflexivity].
Qed.

Lemma traceContains_trim (t id : string) :
  traceContains t (TrimSpace id) = traceContains t id.
Proof. unfold traceContains. now rewrite TrimSpace_idem. Qed.

Lemma traceContains_appended (x id : string) :
  TrimSpace id <> "" -> Str.contains_byte "," id = false ->
  traceContains (appendTrace x (TrimSpace id)) id = true.
Proof.
  intros Hid Hc. rewrite <- traceContains_trim.
  rewrite appendTrace_refines by now rewrite TrimSpace_idem.
  unfold appendTrace_spec. apply traceContains_Join_last.
  - apply appendTrace_segments_free.
  - now apply TrimSpace_no_byte.
  - now rewrite TrimSpace_idem.
Qed.

(** A relay ID made by [relayID] is what [appendTrace] appends, as it
    is, and [traceContains] finds it in the trace that results: the
    hypotheses on the ID that the round trip needs hold for every ID the
    program derives. *)
Theorem relayID_round_trip (t listenPath : string) :
  TrimSpace (relayID listenPath) = relayID listenPath
  /\ Str.contains_byte "," (relayID listenPath) = false
  /\ traceContains (appendTrace t (relayID listenPath)) (relayID listenPath) = true.
Proof.
  destruct (relayID_plain listenPath) as (Ht & Hne & Hc).
  split; [exact Ht|]. split; [exact Hc|].
  rewrite <- Ht at 1. apply traceContains_appended; [|exact Hc].
  now rewrite Ht.
Qed.

(** From the entry point to the wire.  When the handler forwards a
    request, there is one attempt per destination of the relay; the
    request an attempt sends goes to the URL of its destination, carries
    the bytes of the inbound body, and the request ID that the caller
    gets in X-Relay-Request-Id; and when the ID of the relay is not empty
    after trimming and holds no comma, the trace header sent holds it, so
    that the same relay, receiving what it sent, forwards nothing. *)
Theorem forwardOne_end_to_end (ToUpper : string -> string)
    (rangeHeader : gmap string (list string) -> list (string * list string))
    (rangeOverrides : gmap string string -> list (string * string))
    (urlHost : string -> option string) (entropy : option string)
    (relay : config.ResolvedRelay) (req : http.Request)
    (call : server.ForwardCall) (att : relay.Attempt) (out : http.Request) :
  let o := server.handleRelay ToUpper true entropy relay req in
  In call (server.forwarded o) ->
  In att (relay.ForwardAsync call) ->
  relay.forwardOne rangeHeader rangeOverrides urlHost true att = Some out ->
  In (relay.at_dest att) (config.Destinations relay)
  /\ List.length (flat_map relay.ForwardAsync (server.forwarded o))
     = List.length (config.Destinations relay)
  /\ http.URL out = config.URL (relay.at_dest att)
  /\ http.data (http.Body out) = http.data (http.Body req)
  /\ http.Header out !! "X-Webhookrelay-Request-Id"
     = Some [fst (server.newRequestID entropy)]
  /\ http.status (server.response o) = Some http.StatusAccepted
  /\ http.sent_header (server.response o) !! "X-Relay-Request-Id"
     = Some [fst (server.newRequestID entropy)]
  /\ (TrimSpace (config.ID relay) <> "" ->
      Str.contains_byte "," (config.ID relay) = false ->
      traceContains (Header.Get (http.Header out) "X-WebhookRelay-Trace")
        (config.ID relay) = true
      /\ forall fwd entropy' req',
           http.Header req' = http.Header out ->
           server.methodAllowed ToUpper (http.Method req') (config.Methods relay)
           = true ->
           server.forwarded (server.handleRelay ToUpper fwd entropy' relay req') = []).
Proof.
  cbv zeta. unfold server.handleRelay.
  destruct (server.methodAllowed ToUpper (http.Method req) _); simpl; [|intros []].
  destruct (negb (String.eqb (config.ID relay) "") && traceContains _ _); [intros []|].
  unfold http.ReadAll. destruct (http.fails (http.Body req)); simpl; [intros []|].
  intros [<-|[]] Hatt Hout.
  unfold relay.ForwardAsync in Hatt. simpl in Hatt.
  apply in_map_iff in Hatt as (d & <- & Hd). simpl.
  destruct (forwardOne_Some _ _ _ _ _ Hout)
    as (_ & Hurl & Hbody & h & Hh & _ & Htrace).
  simpl in Hurl, Hbody, Hh, Htrace.
  split; [exact Hd|]. split; [rewrite List.app_nil_r; apply length_map|].
  split; [exact Hurl|]. split; [exact Hbody|].
  split; [rewrite Hh; apply lookup_insert_eq|].
  split; [reflexivity|]. split; [apply lookup_insert_eq|].
  intros Hid Hc.
  assert (traceContains (Header.Get (http.Header out) "X-WebhookRelay-Trace")
            (config.ID relay) = true) as Hfound.
  { destruct (Htrace Hid) as [x Hx].
    unfold Header.Get.
    change (CanonicalHeaderKey "X-WebhookRelay-Trace") with "X-Webhookrelay-Trace".
    rewrite Hh, Header_Set_lookup.
    change (CanonicalHeaderKey relay.HeaderRequestID) with "X-Webhookrelay-Request-Id".
    destruct (decide _) as [E|_]; [discriminate E|].
    rewrite Hx. now apply traceContains_appended. }
  split; [exact Hfound|].
  intros fwd entropy' req' Hreq' Hm. rewrite Hm, Hreq', Hfound.
  apply TrimSpace_nonempty, String.eqb_neq in Hid. now rewrite Hid.
Qed.

Lemma forwardOne_end_to_end_witness :
  match relay.forwardOne map_to_list map_to_list sample.urlHost true sample.attemptA with
  | Some out => http.data (http.Body out) = "{}"
  | None => False
  end.
Proof.
  destruct (relay.forwardOne map_to_list map_to_list sample.urlHost true
              sample.attemptA) as [out|] eqn:E; [|vm_compute in E; discriminate E].
  refine (proj1 (proj2 (proj2 (proj2
            (forwardOne_end_to_end asciiToUpper map_to_list map_to_list
               sample.urlHost (Some "0123456789ab") sample.relay1 sample.fresh
               sample.callFresh sample.attemptA out _ _ E))))).
  - vm_compute. left. reflexivity.
  - left. reflexivity.
Defined.

(** [newRequestID]: twelve random bytes give twenty characters of the
    lower-case base-32 alphabet and no error; a failing random source
    gives the empty ID and the error. *)
Theorem newRequestID_shape (entropy : option string) :
  match entropy with
  | Some b =>
      snd (server.newRequestID entropy) = false
      /\ allBytes isBase32Lower (fst (server.newRequestID entropy)) = true
      /\ (String.length b = 12 ->
          String.length (fst (server.newRequestID entropy)) = 20)
  | None => server.newRequestID entropy = ("", true)
  end.
Proof.
  destruct entropy as [b|]; [|reflexivity].
  split; [reflexivity|]. split; [apply EncodeToString_alphabet|].
  simpl. intros Hb.
  do 12 (destruct b as [|? b]; [discriminate Hb|]).
  destruct b; [reflexivity|discriminate Hb].
Qed.

(** [methodAllowed]: an empty allowed set allows every method; otherwise
    the method is allowed exactly when, trimmed and upper-cased, it equals
    an entry of the set trimmed and upper-cased. *)
Theorem methodAllowed_iff (ToUpper : string -> string) (method : string)
    (allowed : list string) :
  server.methodAllowed ToUpper method allowed = true
  <-> allowed = []
      \/ exists a, In a allowed
                   /\ ToUpper (TrimSpace method) = ToUpper (TrimSpace a).
Proof.
  unfold server.methodAllowed. destruct allowed as [|a0 rest].
  - split; auto.
  - rewrite existsb_exists. split.
    + intros (a & Hin & Heq). right. exists a. split; [exact Hin|].
      now apply String.eqb_eq.
    + intros [H|(a & Hin & Heq)]; [discriminate H|].
      exists a. split; [exact Hin|]. now apply String.eqb_eq.
Qed.

(** ** The trace across hops *)

Lemma kept_segments_normal (l : list string) :
  Forall (fun e => e <> "" /\ TrimSpace e = e)
    (List.filter (fun p => negb (Str.is_empty p)) (List.map TrimSpace l)).
Proof.
  induction l as [|x l IH]; simpl; [constructor|].
  destruct (Str.is_empty (TrimSpace x)) eqn:E; simpl; [exact IH|].
  constructor; [|exact IH]. split; [now apply is_empty_false|apply TrimSpace_idem].
Qed.

Lemma existsb_kept_segments (o : string) (l : list string) :
  o <> "" ->
  existsb (fun p => String.eqb (TrimSpace p) o)
    (List.filter (fun p => negb (Str.is_empty p)) (List.map TrimSpace l))
  = existsb (fun p => String.eqb (TrimSpace p) o) l.
Proof.
  intros Ho. induction l as [|x l IH]; [reflexivity|]. simpl.
  destruct (Str.is_empty (TrimSpace x)) eqn:E; simpl.
  - apply is_empty_true in E. rewrite E, IH.
    destruct (String.eqb_spec "" o) as [<-|_]; [congruence|reflexivity].
  - now rewrite TrimSpace_idem, IH.
Qed.

Lemma map_id_Forall {A : Type} (f : A -> A) (l : list A) :
  Forall (fun x => f x = x) l -> List.map f l = l.
Proof. induction 1 as [|x l Hx _ IH]; simpl; congruence. Qed.

Lemma filter_all_Forall {A : Type} (f : A -> bool) (l : list A) :
  Forall (fun x => f x = true) l -> List.filter f l = l.
Proof.
  induction 1 as [|x l Hx _ IH]; simpl; [reflexivity|]. now rewrite Hx, IH.
Qed.

(** The segments of the trace that [appendTrace] builds. *)
Lemma Split_appendTrace (t id : string) :
  TrimSpace id <> "" -> Str.contains_byte "," id = false ->
  Split (appendTrace t id) ","
  = List.filter (fun p => negb (Str.is_empty p)) (List.map TrimSpace (Split t ","))
    ++ [TrimSpace id].
Proof.
  intros Hid Hc. rewrite appendTrace_refines by exact Hid.
  unfold appendTrace_spec. change "," with (String ","%char "") at 1.
  apply Split_Join.
  - now destruct (List.filter _ _).
  - apply Forall_app. split; [apply appendTrace_segments_free|].
    constructor; [|constructor]. now apply TrimSpace_no_byte.
Qed.

Lemma traceContains_appendTrace_cases (t id other : string) :
  TrimSpace id <> "" -> Str.contains_byte "," id = false ->
  traceContains (appendTrace t id) other
  = traceContains t other
    || (negb (Str.is_empty (TrimSpace other))
        && String.eqb (TrimSpace id) (TrimSpace other)).
Proof.
  intros Hid Hc. unfold traceContains at 1 2.
  destruct (Str.is_empty (TrimSpace other)) eqn:Eo; [reflexivity|].
  apply is_empty_false in Eo.
  rewrite Split_appendTrace, existsb_app, existsb_kept_segments by assumption.
  simpl. now rewrite TrimSpace_idem, orb_false_r.
Qed.

(** Appending is append-only for membership: after [appendTrace] with an
    ID that is not empty after trimming and holds no comma, [traceContains]
    finds exactly the IDs it found before and the appended one. *)
Theorem appendTrace_membership (t id other : string) :
  TrimSpace id <> "" -> Str.contains_byte "," id = false ->
  traceContains (appendTrace t id) other
  = traceContains t other
    || (negb (Str.is_empty (TrimSpace other))
        && String.eqb (TrimSpace id) (TrimSpace other)).
Proof.
  intros Hid Hc. unfold traceContains at 1 2.
  destruct (Str.is_empty (TrimSpace other)) eqn:Eo; [reflexivity|].
  apply is_empty_false in Eo.
  rewrite Split_appendTrace, existsb_app, existsb_kept_segments by assumption.
  simpl. now rewrite TrimSpace_idem, orb_false_r.
Qed.

Lemma appendTrace_membership_witness :
  traceContains (appendTrace "a, b" "c") "b" = true
  /\ traceContains (appendTrace "a, b" "c") " c " = true
  /\ traceContains (appendTrace "a, b" "c") "d" = false.
Proof.
  assert (TrimSpace "c" <> "") as H by (vm_compute; discriminate).
  rewrite !(appendTrace_membership "a, b" "c" _ H eq_refl).
  repeat split.
Defined.

(** The trace that [appendTrace] builds is in normal form: split on
    commas it is the trimmed non-empty segments of the old trace, in
    their order, and the trimmed ID last; every segment is non-empty and
    free of white space at its ends; and a second [appendTrace] adds a
    comma and the next trimmed ID to it and changes nothing else. *)
Theorem appendTrace_normal_form (t a b : string) :
  TrimSpace a <> "" -> Str.contains_byte "," a = false -> TrimSpace b <> "" ->
  Split (appendTrace t a) ","
  = List.filter (fun p => negb (Str.is_empty p)) (List.map TrimSpace (Split t ","))
    ++ [TrimSpace a]
  /\ Forall (fun e => e <> "" /\ TrimSpace e = e) (Split (appendTrace t a) ",")
  /\ appendTrace (appendTrace t a) b = appendTrace t a +:+ "," +:+ TrimSpace b.
Proof.
  intros Ha Hc Hb.
  pose proof (Split_appendTrace t a Ha Hc) as HS.
  assert (Forall (fun e => e <> "" /\ TrimSpace e = e) (Split (appendTrace t a) ","))
    as Hnorm.
  { rewrite HS. apply Forall_app. split; [apply kept_segments_normal|].
    constructor; [|constructor]. split; [exact Ha|apply TrimSpace_idem]. }
  split; [exact HS|]. split; [exact Hnorm|].
  rewrite (appendTrace_refines (appendTrace t a) b Hb). unfold appendTrace_spec.
  rewrite (map_id_Forall TrimSpace), filter_all_Forall.
  - rewrite Join_snoc.
    assert (Join (Split (appendTrace t a) ",") "," = appendTrace t a) as ->.
    { rewrite HS. now rewrite (appendTrace_refines t a Ha). }
    rewrite HS. now destruct (List.filter _ _).
  - eapply List.Forall_impl; [|exact Hnorm]. intros e [He _].
    apply is_empty_false in He. now rewrite He.
  - eapply List.Forall_impl; [|exact Hnorm]. now intros e [_ He].
Qed.

Lemma appendTrace_normal_form_witness :
  appendTrace (appendTrace " x ,, y" " r1 ") "r2" = "x,y,r1,r2".
Proof.
  assert (TrimSpace " r1 " <> "") as H1 by (vm_compute; discriminate).
  assert (TrimSpace "r2" <> "") as H2 by (vm_compute; discriminate).
  destruct (appendTrace_normal_form " x ,, y" " r1 " "r2" H1 eq_refl H2)
    as (_ & _ & ->).
  reflexivity.
Defined.

(** ** Clean paths are fixed points of [Clean] *)

Lemma copyElement_app (e rest out : string) :
  Str.contains_byte "/" e = false -> path.atSeparator rest = true ->
  path.copyElement (e +:+ rest) out = (Str.rev e +:+ out, rest).
Proof.
  revert out. induction e as [|c e IH]; intros out He Hrest.
  - simpl. destruct rest as [|d rest]; [reflexivity|].
    simpl in Hrest. simpl. now rewrite Hrest.
  - simpl in He. apply orb_false_iff in He as [Hc He].
    simpl. rewrite Hc, (IH _ He Hrest). now rewrite str_app_assoc.
Qed.

Lemma atSeparator_app_free (x rest : string) :
  Str.contains_byte "/" x = false -> path.atSeparator (x +:+ rest) = true ->
  x = "".
Proof.
  destruct x as [|c x]; [reflexivity|]. simpl.
  intros [Hc _]%orb_false_iff H. congruence.
Qed.

(** One kept element at the head of the bytes to read is copied as it
    is. *)
Lemma cleanLoop_kept_step (f : nat) (e rest : string) (done : list string) :
  keptElement e -> path.atSeparator rest = true -> Forall keptElement done ->
  path.cleanLoop (S f) true (e +:+ rest) (rootedOut done) 1
  = path.cleanLoop f true rest (rootedOut (done ++ [e])) 1.
Proof.
  intros [Hreal Hfree] Hrest Hdone.
  assert (path.copyElement (e +:+ rest)
            (if (true && negb (Nat.eqb (String.length (rootedOut done)) 1))
                || (negb true && negb (Nat.eqb (String.length (rootedOut done)) 0))
             then String "/" (rootedOut done) else rootedOut done)
          = (rootedOut (done ++ [e]), rest)) as Hcopy.
  { rewrite copyElement_app by assumption. f_equal.
    rewrite rootedOut_snoc, rootedOut_length_1 by exact Hdone. now destruct done. }
  destruct e as [|c e1]; [discriminate Hreal|].
  simpl in Hfree. apply orb_false_iff in Hfree as [Hc He1].
  change (String c e1 +:+ rest) with (String c (e1 +:+ rest)) in *.
  cbn [path.cleanLoop]. rewrite Hc.
  assert (Ascii.eqb c "." && path.atSeparator (e1 +:+ rest) = false) as ->.
  { destruct (Ascii.eqb_spec c ".") as [->|_]; [|reflexivity].
    destruct (path.atSeparator (e1 +:+ rest)) eqn:E; [|reflexivity].
    apply atSeparator_app_free in E; [|exact He1]. subst e1. discriminate Hreal. }
  destruct (e1 +:+ rest) as [|c1 p2] eqn:E1.
  - now rewrite Hcopy.
  - assert (Ascii.eqb c "." && Ascii.eqb c1 "." && path.atSeparator p2 = false) as ->.
    { destruct (Ascii.eqb_spec c ".") as [->|_]; [|reflexivity].
      destruct (Ascii.eqb_spec c1 ".") as [->|_]; [|reflexivity].
      destruct (path.atSeparator p2) eqn:E; [|reflexivity]. exfalso.
      destruct e1 as [|d e2].
      - simpl in E1. subst rest. discriminate Hrest.
      - simpl in E1. injection E1 as -> <-.
        simpl in He1.
        apply atSeparator_app_free in E; [|exact He1]. subst e2.
        discriminate Hreal. }
    now rewrite Hcopy.
Qed.

Lemma keptElement_length (e : string) : keptElement e -> 1 <= String.length e.
Proof. intros [H _]. destruct e; [discriminate H|simpl; lia]. Qed.

(** The loop of [Clean] on a path that is clean already. *)
Lemma cleanLoop_clean_path (es done : list string) (f : nat) :
  Forall keptElement es -> Forall keptElement done ->
  String.length (Join es "/") <= f ->
  path.cleanLoop f true (Join es "/") (rootedOut done) 1 = rootedOut (done ++ es).
Proof.
  revert done f. induction es as [|e es IH]; intros done f Hes Hdone Hf.
  - rewrite List.app_nil_r. now destruct f.
  - inversion Hes as [|? ? He Hes']; subst.
    pose proof (keptElement_length e He) as Hlen.
    destruct es as [|e' es].
    + change (Join [e] "/") with e in *. destruct f as [|f]; [lia|].
      pose proof (cleanLoop_kept_step f e "" done He eq_refl Hdone) as Hstep.
      rewrite str_app_nil_r in Hstep. rewrite Hstep. now destruct f.
    + change (Join (e :: e' :: es) "/") with (e +:+ String "/" (Join (e' :: es) "/")) in *.
      rewrite str_length_app in Hf. cbn [String.length] in Hf.
      destruct f as [|f]; [lia|].
      rewrite cleanLoop_kept_step by auto.
      destruct f as [|f]; [lia|].
      cbn [path.cleanLoop]. rewrite Ascii.eqb_refl.
      rewrite IH; [|exact Hes'| |lia].
      * now rewrite <- List.app_assoc.
      * apply Forall_app. split; [exact Hdone|now constructor].
Qed.

(** [Join] undoes [Split]. *)
Lemma Join_Split (s : string) (c : ascii) : Join (Split s c) (String c "") = s.
Proof.
  induction s as [|d s IH]; [reflexivity|]. simpl.
  pose proof (Split_not_nil s c) as Hne.
  destruct (Ascii.eqb_spec d c) as [->|_].
  - destruct (Split s c) as [|hd tl] eqn:E; [congruence|].
    change (Join ("" :: hd :: tl) (String c "")) with (String c (Join (hd :: tl) (String c ""))).
    now rewrite IH.
  - destruct (Split s c) as [|hd [|hd' tl]] eqn:E; [congruence| |].
    + simpl in *. now rewrite IH.
    + change (Join (String d hd :: hd' :: tl) (String c ""))
        with (String d (Join (hd :: hd' :: tl) (String c ""))).
      now rewrite IH.
Qed.

Lemma isCleanAbs_inv (s : string) :
  isCleanAbs s = true ->
  exists es, Forall keptElement es /\ s = "/" +:+ Join es "/".
Proof.
  intros H. destruct (isCleanAbs_rooted s H) as [rest ->].
  destruct rest as [|c rest]; [now exists []|].
  exists (Split (String c rest) "/"). split.
  - change (forallb realElement (Split (String c rest) "/") = true) in H.
    pose proof (Split_elements_free (String c rest) "/") as Hfree.
    rewrite forallb_forall in H. apply List.Forall_forall. intros e He. split.
    + now apply H.
    + now apply (proj1 (List.Forall_forall _ _) Hfree).
  - now rewrite Join_Split.
Qed.

(** [Clean] leaves a clean absolute path as it is. *)
Lemma Clean_fixed (s : string) : isCleanAbs s = true -> path.Clean s = s.
Proof.
  intros H. destruct (isCleanAbs_inv s H) as (es & Hes & ->).
  change ("/" +:+ Join es "/") with (String "/" (Join es "/")).
  unfold path.Clean. rewrite Ascii.eqb_refl.
  pose proof (cleanLoop_clean_path es [] (String.length (String "/" (Join es "/")))
                Hes (List.Forall_nil _) ltac:(simpl; lia)) as Hloop.
  rewrite rootedOut_nil in Hloop. rewrite Hloop.
  simpl app. unfold rootedOut. rewrite str_rev_involutive.
  destruct (Str.rev _) eqn:E; [|reflexivity].
  apply str_rev_eq_nil in E. discriminate E.
Qed.

(** ** Validation of the configuration *)

Lemma concat_imap_nil {A B C : Type} (f : nat -> A -> B * list C)
    (P : A -> Prop) (l : list A) :
  (forall i x, snd (f i x) = [] <-> P x) ->
  concat (List.map snd (imap f l)) = [] <-> Forall P l.
Proof.
  revert f. induction l as [|x l IH]; intros f Hf.
  - split; [constructor|reflexivity].
  - rewrite imap_cons. simpl. rewrite Forall_cons, <- (Hf 0 x).
    rewrite <- (IH (f ∘ S)) by (intros i y; apply Hf).
    split.
    + intros [? ?]%List.app_eq_nil. now split.
    + intros [-> ->]. reflexivity.
Qed.

Lemma Forall_imap_fst {A B C : Type} (f : nat -> A -> B * C)
    (P : A -> Prop) (Q : B -> Prop) (l : list A) :
  (forall i x, P x -> Q (fst (f i x))) ->
  Forall P l -> Forall Q (List.map fst (imap f l)).
Proof.
  revert f. induction l as [|x l IH]; intros f Hf Hl; [constructor|].
  rewrite imap_cons. inversion Hl; subst. simpl. constructor; [now apply Hf|].
  apply IH; [|assumption]. intros i y. apply Hf.
Qed.

Lemma flat_map_nil_Forall {A B : Type} (f : A -> list B) (l : list A) :
  flat_map f l = [] <-> Forall (fun x => f x = []) l.
Proof.
  induction l as [|x l IH]; simpl.
  - split; [constructor|reflexivity].
  - rewrite Forall_cons, <- IH. split.
    + intros [? ?]%List.app_eq_nil. now split.
    + intros [-> ->]. reflexivity.
Qed.

Lemma validateDestination_ok (ToUpper : string -> string) (i di : nat)
    (d : config.DestinationConfig) :
  snd (configfile.validateDestination ToUpper i di d) = []
  <-> TrimSpace (config.URL d) <> "".
Proof.
  unfold configfile.validateDestination. simpl.
  destruct (String.eqb_spec (TrimSpace (config.URL d)) "") as [E|E].
  - split; [discriminate|congruence].
  - split; auto.
Qed.

Lemma methods_ok (ToUpper : string -> string) (i : nat) (ms : list string) :
  flat_map
    (fun m => if String.eqb m "" then [configfile.MethodEmpty i] else [])
    (List.map (fun m => ToUpper (TrimSpace m)) ms) = []
  <-> Forall (fun m => ToUpper (TrimSpace m) <> "") ms.
Proof.
  rewrite flat_map_nil_Forall, List.Forall_map.
  split; intros H; (eapply List.Forall_impl; [|exact H]); intros m; simpl;
    destruct (String.eqb_spec (ToUpper (TrimSpace m)) ""); auto; try discriminate.
  congruence.
Qed.

Lemma listenPath_ok (lp : string) (i : nat) :
  (if negb (String.eqb lp "") && negb (HasPrefix lp "/")
   then [configfile.ListenPathNoSlash i lp] else []) = []
  <-> lp = "" \/ HasPrefix lp "/" = true.
Proof.
  destruct (HasPrefix lp "/") eqn:Ep;
    destruct (String.eqb_spec lp "") as [E|Hne]; cbn [negb andb];
    split; auto; try discriminate.
  intros [?|?]; congruence.
Qed.

Lemma validateRelay_ok (ToUpper : string -> string) (i : nat)
    (r : configfile.RelayConfig) :
  snd (configfile.validateRelay ToUpper i r) = [] <-> relayAccepted ToUpper r.
Proof.
  unfold configfile.validateRelay, relayAccepted.
  destruct (configfile.Destinations r) as [|d ds] eqn:Ed.
  - simpl. split.
    + intros H. apply List.app_eq_nil in H as [_ H]. discriminate H.
    + intros (_ & H & _). congruence.
  - cbn [snd]. rewrite <- (methods_ok ToUpper i).
    rewrite <- (concat_imap_nil (configfile.validateDestination ToUpper i)
                  (fun d => TrimSpace (config.URL d) <> "") (d :: ds))
      by (intros; apply validateDestination_ok).
    rewrite <- (listenPath_ok (configfile.ListenPath r) i).
    split.
    + intros [H1 [H2 H3]%List.app_eq_nil]%List.app_eq_nil.
      repeat split; auto; discriminate.
    + intros (-> & _ & -> & ->). reflexivity.
Qed.

Lemma validateRelay_valid (ToUpper : string -> string) (i : nat)
    (r : configfile.RelayConfig) :
  relayAccepted ToUpper r ->
  relayValid (fst (configfile.validateRelay ToUpper i r)).
Proof.
  intros (Hm & Hd & Hu & Hl). unfold configfile.validateRelay, relayValid.
  destruct (configfile.Destinations r) as [|d ds] eqn:Ed; [congruence|].
  cbn [fst configfile.Methods configfile.Destinations configfile.ListenPath].
  split; [|split; [|split; [|split]]].
  - now destruct (configfile.Methods r).
  - now apply List.Forall_map.
  - rewrite imap_cons. discriminate.
  - apply (Forall_imap_fst (configfile.validateDestination ToUpper i)
             (fun d => TrimSpace (config.URL d) <> "")); [|exact Hu].
    intros j x Hx. exact Hx.
  - exact Hl.
Qed.

Lemma validateAndDefault_problems (ToUpper : string -> string)
    (cfg : configfile.Config) :
  snd (configfile.validateAndDefault ToUpper cfg) = []
  <-> TrimSpace (configfile.ListenAddr (configfile.Server cfg)) <> ""
      /\ configfile.Relays cfg <> []
      /\ Forall (relayAccepted ToUpper) (configfile.Relays cfg).
Proof.
  unfold configfile.validateAndDefault. cbn [snd].
  rewrite <- (concat_imap_nil (configfile.validateRelay ToUpper)
                (relayAccepted ToUpper) (configfile.Relays cfg))
    by (intros; apply validateRelay_ok).
  destruct (String.eqb_spec
              (TrimSpace (configfile.ListenAddr (configfile.Server cfg))) "")
    as [E|E].
  - split; [discriminate|]. intros [H _]. congruence.
  - destruct (configfile.Relays cfg) as [|r rs] eqn:Er.
    + split; [discriminate|]. intros (_ & H & _). congruence.
    + simpl app. split; [intros H; repeat split; auto; discriminate|].
      now intros (_ & _ & H).
Qed.

(** [validateAndDefault] finds no problem, and [Load] returns the
    configuration, exactly when the listen address is not blank, there is
    a relay, and every relay has methods that are not blank (the default
    POST when it names none), at least one destination, no destination
    with a blank URL, and a listen path that is empty or starts with a
    slash.  The listen path is tested as it is written: one that starts
    with white space is refused. *)
Theorem validateAndDefault_accepts (ToUpper : string -> string)
    (cfg : configfile.Config) :
  let accepted :=
    TrimSpace (configfile.ListenAddr (configfile.Server cfg)) <> ""
    /\ configfile.Relays cfg <> []
    /\ Forall (relayAccepted ToUpper) (configfile.Relays cfg) in
  (snd (configfile.validateAndDefault ToUpper cfg) = [] <-> accepted)
  /\ (configfile.LoadDecoded ToUpper cfg
      = Some (fst (configfile.validateAndDefault ToUpper cfg)) <-> accepted)
  /\ (configfile.LoadDecoded ToUpper cfg = None <-> ~ accepted)
  /\ (forall r c rest,
        In r (configfile.Relays cfg) ->
        configfile.ListenPath r = String c rest -> isSpace1 c = true ->
        configfile.LoadDecoded ToUpper cfg = None).
Proof.
  cbv zeta. pose proof (validateAndDefault_problems ToUpper cfg) as Hp.
  unfold configfile.LoadDecoded.
  destruct (configfile.validateAndDefault ToUpper cfg) as [c' ps].
  cbn [fst snd] in *.
  assert (forall r c rest,
            In r (configfile.Relays cfg) ->
            configfile.ListenPath r = String c rest -> isSpace1 c = true ->
            ps <> []) as Hsp.
  { intros r c rest Hr Hlp Hc Hps. apply Hp in Hps as (_ & _ & Hall).
    rewrite List.Forall_forall in Hall.
    destruct (Hall r Hr) as (_ & _ & _ & [Hl|Hl]); rewrite Hlp in Hl.
    - discriminate Hl.
    - apply HasPrefix_slash in Hl as [x [= -> _]]. discriminate Hc. }
  split; [exact Hp|]. destruct ps as [|q ps].
  - split; [split; [intros _; now apply Hp|reflexivity]|].
    split; [split; [discriminate|intros H; elim H; now apply Hp]|].
    intros r c rest Hr Hlp Hc. now elim (Hsp r c rest Hr Hlp Hc).
  - split; [split; [discriminate|intros H; apply Hp in H; discriminate H]|].
    split; [|reflexivity].
    split; [intros _ H; apply Hp in H; discriminate H|reflexivity].
Qed.

Lemma LoadDecoded_inv (ToUpper : string -> string)
    (cfg c : configfile.Config) :
  configfile.LoadDecoded ToUpper cfg = Some c ->
  TrimSpace (configfile.ListenAddr (configfile.Server c)) <> ""
  /\ (0 < configfile.Concurrency (configfile.Server c))%Z
  /\ (0 < configfile.ForwardTimeoutMS (configfile.Server c))%Z
  /\ ((0 < configfile.Concurrency (configfile.Server cfg))%Z ->
      configfile.Concurrency (configfile.Server c)
      = configfile.Concurrency (configfile.Server cfg))
  /\ ((configfile.Concurrency (configfile.Server cfg) <= 0)%Z ->
      configfile.Concurrency (configfile.Server c) = 50%Z)
  /\ ((configfile.ForwardTimeoutMS (configfile.Server cfg) <= 0)%Z ->
      configfile.ForwardTimeoutMS (configfile.Server c) = 10000%Z)
  /\ configfile.BasePath (configfile.Server c)
     = normalizeBasePath (configfile.BasePath (configfile.Server cfg))
  /\ configfile.Relays c <> []
  /\ List.length (configfile.Relays c) = List.length (configfile.Relays cfg)
  /\ Forall relayValid (configfile.Relays c).
Proof.
  unfold configfile.LoadDecoded.
  destruct (configfile.validateAndDefault ToUpper cfg) as [c' ps] eqn:E.
  destruct ps as [|p ps]; [|discriminate]. intros [= ->].
  pose proof (proj1 (validateAndDefault_problems ToUpper cfg)) as Hacc.
  rewrite E in Hacc. destruct (Hacc eq_refl) as (Haddr & Hne & Hall).
  unfold configfile.validateAndDefault in E. injection E as <- _.
  cbn [configfile.Server configfile.Relays configfile.ListenAddr
       configfile.Concurrency configfile.ForwardTimeoutMS configfile.BasePath].
  split; [exact Haddr|].
  split; [destruct (Z.leb_spec (configfile.Concurrency (configfile.Server cfg)) 0); lia|].
  split; [destruct (Z.leb_spec (configfile.ForwardTimeoutMS (configfile.Server cfg)) 0); lia|].
  split; [destruct (Z.leb_spec (configfile.Concurrency (configfile.Server cfg)) 0); lia|].
  split; [destruct (Z.leb_spec (configfile.Concurrency (configfile.Server cfg)) 0); lia|].
  split; [destruct (Z.leb_spec (configfile.ForwardTimeoutMS (configfile.Server cfg)) 0); lia|].
  split; [reflexivity|].
  split; [destruct (configfile.Relays cfg); [congruence|rewrite imap_cons; discriminate]|].
  split; [now rewrite length_map, length_imap|].
  apply (Forall_imap_fst (configfile.validateRelay ToUpper) (relayAccepted ToUpper));
    [|exact Hall].
  intros i r. apply validateRelay_valid.
Qed.

(** A configuration that [Load] returns: the listen address is not
    blank; the concurrency and the timeout are positive, the defaults 50
    and 10000 standing in for values that are not; the base path is the
    normalised one; there is a relay, the relays are those of the file in
    number, and each of them has methods, none of them empty, at least
    one destination, no blank URL and a listen path that is empty or
    starts with a slash. *)
Theorem LoadDecoded_valid (ToUpper : string -> string)
    (cfg c : configfile.Config) :
  configfile.LoadDecoded ToUpper cfg = Some c ->
  TrimSpace (configfile.ListenAddr (configfile.Server c)) <> ""
  /\ (0 < configfile.Concurrency (configfile.Server c))%Z
  /\ (0 < configfile.ForwardTimeoutMS (configfile.Server c))%Z
  /\ ((0 < configfile.Concurrency (configfile.Server cfg))%Z ->
      configfile.Concurrency (configfile.Server c)
      = configfile.Concurrency (configfile.Server cfg))
  /\ ((configfile.Concurrency (configfile.Server cfg) <= 0)%Z ->
      configfile.Concurrency (configfile.Server c) = 50%Z)
  /\ ((configfile.ForwardTimeoutMS (configfile.Server cfg) <= 0)%Z ->
      configfile.ForwardTimeoutMS (configfile.Server c) = 10000%Z)
  /\ configfile.BasePath (configfile.Server c)
     = normalizeBasePath (configfile.BasePath (configfile.Server cfg))
  /\ configfile.Relays c <> []
  /\ List.length (configfile.Relays c) = List.length (configfile.Relays cfg)
  /\ Forall relayValid (configfile.Relays c).
Proof.
  unfold configfile.LoadDecoded.
  destruct (configfile.validateAndDefault ToUpper cfg) as [c' ps] eqn:E.
  destruct ps as [|p ps]; [|discriminate]. intros [= ->].
  pose proof (proj1 (validateAndDefault_problems ToUpper cfg)) as Hacc.
  rewrite E in Hacc. destruct (Hacc eq_refl) as (Haddr & Hne & Hall).
  unfold configfile.validateAndDefault in E. injection E as <- _.
  cbn [configfile.Server configfile.Relays configfile.ListenAddr
       configfile.Concurrency configfile.ForwardTimeoutMS configfile.BasePath].
  split; [exact Haddr|].
  split; [destruct (Z.leb_spec (configfile.Concurrency (configfile.Server cfg)) 0); lia|].
  split; [destruct (Z.leb_spec (configfile.ForwardTimeoutMS (configfile.Server cfg)) 0); lia|].
  split; [destruct (Z.leb_spec (configfile.Concurrency (configfile.Server cfg)) 0); lia|].
  split; [destruct (Z.leb_spec (configfile.Concurrency (configfile.Server cfg)) 0); lia|].
  split; [destruct (Z.leb_spec (configfile.ForwardTimeoutMS (configfile.Server cfg)) 0); lia|].
  split; [reflexivity|].
  split; [destruct (configfile.Relays cfg); [congruence|rewrite imap_cons; discriminate]|].
  split; [now rewrite length_map, length_imap|].
  apply (Forall_imap_fst (configfile.validateRelay ToUpper) (relayAccepted ToUpper));
    [|exact Hall].
  intros i r. apply validateRelay_valid.
Qed.

Lemma LoadDecoded_valid_witness :
  match configfile.LoadDecoded asciiToUpper sample.fileConfig with
  | Some c =>
      configfile.Concurrency (configfile.Server c) = 8%Z
      /\ configfile.ForwardTimeoutMS (configfile.Server c) = 10000%Z
      /\ configfile.BasePath (configfile.Server c) = "/hook"
  | None => False
  end.
Proof.
  destruct (configfile.LoadDecoded asciiToUpper sample.fileConfig) as [c|] eqn:E;
    [|vm_compute in E; discriminate E].
  destruct (LoadDecoded_valid asciiToUpper sample.fileConfig c E)
    as (_ & _ & _ & H4 & _ & H6 & H7 & _).
  split; [apply H4; reflexivity|].
  split; [apply H6; vm_compute; discriminate|].
  rewrite H7. reflexivity.
Defined.

(** ** Route patterns *)

Lemma isCleanAbs_not_dot (s : string) : isCleanAbs s = true -> String.eqb s "." = false.
Proof. intros H. destruct (isCleanAbs_rooted s H) as [r ->]. reflexivity. Qed.

Lemma cleanPath_formula (p : string) :
  server.cleanPath p
  = if String.eqb (TrimSpace p) "" then "/"
    else path.Clean (withLeadingSlash (TrimSpace p)).
Proof.
  unfold server.cleanPath, withLeadingSlash.
  destruct (String.eqb (TrimSpace p) ""); [reflexivity|].
  destruct (withSlash_rooted (TrimSpace p)) as [x ->].
  now rewrite (isCleanAbs_not_dot _ (Clean_rooted x)).
Qed.

Lemma cleanPath_clean (p : string) : isCleanAbs (server.cleanPath p) = true.
Proof.
  rewrite cleanPath_formula. unfold withLeadingSlash.
  destruct (String.eqb (TrimSpace p) ""); [reflexivity|].
  destruct (withSlash_rooted (TrimSpace p)) as [x ->]. apply Clean_rooted.
Qed.

Lemma cleanPath_fixed (p : string) :
  isCleanAbs p = true -> TrimSpace p = p -> server.cleanPath p = p.
Proof.
  intros Hc Ht. rewrite cleanPath_formula, Ht. unfold withLeadingSlash.
  destruct (isCleanAbs_rooted p Hc) as [r ->].
  change (String.eqb (String "/" r) "") with false. cbn match.
  assert (HasPrefix (String "/" r) "/" = true) as -> by (apply HasPrefix_slash; eauto).
  cbn [negb]. now apply Clean_fixed.
Qed.

(** The pattern that [New] registers for a listen path.  It is always a
    clean absolute path: a leading slash, then elements separated by
    single slashes, none of them empty, [.] or [..].  It is the slash for
    a blank path and otherwise the cleaned path with its leading slash,
    so that the test for [.] after [path.Clean] never succeeds.  White
    space around the path does not count, and a path that is already
    clean and has no white space at its ends is registered as it is. *)
Theorem cleanPath_correct (p : string) :
  isCleanAbs (server.cleanPath p) = true
  /\ server.cleanPath p
     = (if String.eqb (TrimSpace p) "" then "/"
        else path.Clean (withLeadingSlash (TrimSpace p)))
  /\ (forall q,
        String.eqb (path.Clean (if negb (HasPrefix q "/") then "/" +:+ q else q)) "."
        = false)
  /\ server.cleanPath (TrimSpace p) = server.cleanPath p
  /\ path.Clean (server.cleanPath p) = server.cleanPath p
  /\ (isCleanAbs p = true -> TrimSpace p = p -> server.cleanPath p = p).
Proof.
  split; [apply cleanPath_clean|]. split; [apply cleanPath_formula|].
  split; [|split; [|split]].
  - intros q. destruct (withSlash_rooted q) as [x ->].
    apply isCleanAbs_not_dot, Clean_rooted.
  - now rewrite !cleanPath_formula, TrimSpace_idem.
  - apply Clean_fixed, cleanPath_clean.
  - apply cleanPath_fixed.
Qed.

(** ** Resolution of the relays *)

Lemma joinPaths_trim (basePath listenPath : string) :
  joinPaths basePath (TrimSpace listenPath) = joinPaths basePath listenPath.
Proof. unfold joinPaths. now rewrite TrimSpace_idem. Qed.

Lemma resolvePath_None (base : string) (e : option string)
    (r : configfile.RelayConfig) :
  configfile.resolvePath base e r = None
  <-> TrimSpace (configfile.ListenPath r) = "" /\ e = None.
Proof.
  unfold configfile.resolvePath, randomToken.
  destruct (String.eqb_spec (TrimSpace (configfile.ListenPath r)) "") as [E|E].
  - destruct e; split; try discriminate; auto. intros [_ H]. discriminate H.
  - split; [discriminate|]. intros [H _]. contradiction.
Qed.

Lemma resolvePath_Some (base : string) (e : option string)
    (r : configfile.RelayConfig) (lp : string) :
  configfile.resolvePath base e r = Some lp ->
  (TrimSpace (configfile.ListenPath r) <> ""
   /\ lp = joinPaths base (configfile.ListenPath r))
  \/ (TrimSpace (configfile.ListenPath r) = ""
      /\ exists b, e = Some b
                   /\ lp = joinPaths base ("/" +:+ ToLower (EncodeToString b))).
Proof.
  unfold configfile.resolvePath, randomToken.
  destruct (String.eqb_spec (TrimSpace (configfile.ListenPath r)) "") as [E|E].
  - destruct e as [b|]; [|discriminate]. intros [= <-]. right. eauto.
  - intros [= <-]. left. split; [exact E|apply joinPaths_trim].
Qed.

Lemma resolveFrom_inr (base : string) (entropy : nat -> option string)
    (rs : list configfile.RelayConfig) (i : nat) (res : list config.ResolvedRelay) :
  configfile.resolveFrom base entropy i rs = inr res ->
  List.length res = List.length rs
  /\ forall k r, rs !! k = Some r ->
       exists lp, configfile.resolvePath base (entropy (i + k)) r = Some lp
                  /\ res !! k = Some (configfile.resolved r lp).
Proof.
  revert i res. induction rs as [|r rs IH]; intros i res; simpl.
  - intros [= <-]. split; [reflexivity|]. intros k r H. discriminate H.
  - destruct (configfile.resolvePath base (entropy i) r) as [lp|] eqn:E;
      [|discriminate].
    destruct (configfile.resolveFrom base entropy (S i) rs) as [j|res'] eqn:E';
      [discriminate|].
    intros [= <-]. destruct (IH _ _ E') as [Hlen Hk].
    split; [simpl; now rewrite Hlen|].
    intros [|k] r0 H; simpl in H.
    + injection H as <-. exists lp. rewrite Nat.add_0_r. now split.
    + destruct (Hk k r0 H) as (lp0 & H1 & H2). exists lp0.
      rewrite Nat.add_succ_r. now split.
Qed.

Lemma resolveFrom_inl (base : string) (entropy : nat -> option string)
    (rs : list configfile.RelayConfig) (i j : nat) :
  configfile.resolveFrom base entropy i rs = inl j ->
  exists k r,
    j = i + k /\ rs !! k = Some r
    /\ configfile.resolvePath base (entropy j) r = None
    /\ forall k' r', k' < k -> rs !! k' = Some r' ->
         configfile.resolvePath base (entropy (i + k')) r' <> None.
Proof.
  revert i j. induction rs as [|r rs IH]; intros i j; simpl; [discriminate|].
  destruct (configfile.resolvePath base (entropy i) r) as [lp|] eqn:E.
  - destruct (configfile.resolveFrom base entropy (S i) rs) as [j'|res'] eqn:E';
      [|discriminate].
    intros [= <-]. destruct (IH _ _ E') as (k & r0 & -> & Hr & Hn & Hb).
    exists (S k), r0. rewrite Nat.add_succ_r.
    split; [reflexivity|]. split; [exact Hr|]. split; [exact Hn|].
    intros [|k'] r' Hlt Hr'; simpl in Hr'.
    + injection Hr' as <-. rewrite Nat.add_0_r, E. discriminate.
    + rewrite Nat.add_succ_r. apply (Hb k' r'); [lia|exact Hr'].
  - intros [= <-]. exists 0, r. rewrite Nat.add_0_r.
    split; [reflexivity|]. split; [reflexivity|]. split; [exact E|].
    intros k' r' Hlt. lia.
Qed.

(** [ResolveRelays] returns one resolved relay per relay of the
    configuration, in their order, with the name, the methods and the
    destinations of the relay, a listen path that is the declared path
    joined to the base path, or a token of random bytes joined to it when
    the declared path is blank, and the ID derived from that listen path.
    It fails only when the random source fails for a relay with a blank
    path, and the error names the first such relay. *)
Theorem ResolveRelays_correct (cfg : configfile.Config)
    (entropy : nat -> option string) :
  let base := configfile.BasePath (configfile.Server cfg) in
  match configfile.ResolveRelays cfg entropy with
  | inr res =>
      List.length res = List.length (configfile.Relays cfg)
      /\ forall k r, configfile.Relays cfg !! k = Some r ->
           exists r', res !! k = Some r'
             /\ config.Name r' = configfile.Name r
             /\ config.Methods r' = configfile.Methods r
             /\ config.Destinations r' = configfile.Destinations r
             /\ config.ID r' = relayID (config.ListenPath r')
             /\ (TrimSpace (configfile.ListenPath r) <> "" ->
                 config.ListenPath r' = joinPaths base (configfile.ListenPath r))
             /\ (TrimSpace (configfile.ListenPath r) = "" ->
                 exists b, entropy k = Some b
                   /\ config.ListenPath r'
                      = joinPaths base ("/" +:+ ToLower (EncodeToString b)))
  | inl j =>
      exists r, configfile.Relays cfg !! j = Some r
        /\ TrimSpace (configfile.ListenPath r) = ""
        /\ entropy j = None
        /\ forall k r', k < j -> configfile.Relays cfg !! k = Some r' ->
             TrimSpace (configfile.ListenPath r') = "" -> entropy k <> None
  end.
Proof.
  cbv zeta. unfold configfile.ResolveRelays.
  destruct (configfile.resolveFrom _ entropy 0 (configfile.Relays cfg))
    as [j|res] eqn:E.
  - apply resolveFrom_inl in E as (k & r & -> & Hr & Hn & Hb). simpl in *.
    apply resolvePath_None in Hn as [Hlp He].
    exists r. split; [exact Hr|]. split; [exact Hlp|]. split; [exact He|].
    intros k' r' Hlt Hr' Hlp' He'. apply (Hb k' r' Hlt Hr').
    apply resolvePath_None. now split.
  - apply resolveFrom_inr in E as [Hlen Hk]. split; [exact Hlen|].
    intros k r Hr. destruct (Hk k r Hr) as (lp & Hlp & Hres). simpl in Hlp.
    exists (configfile.resolved r lp). split; [exact Hres|]. simpl.
    repeat (split; [reflexivity|]).
    apply resolvePath_Some in Hlp as [[Hne ->]|(He & b & Hb & ->)].
    + split; [reflexivity|]. intros H. contradiction.
    + split; [intros H; contradiction|]. intros _. eauto.
Qed.

Lemma relayID_length (p : string) : String.length (relayID p) = 16.
Proof. unfold relayID, sha256.Sum256. abstract_digest. reflexivity. Qed.

Lemma joinPaths_normalized_clean (b lp : string) :
  isCleanAbs (joinPaths (normalizeBasePath b) lp) = true.
Proof.
  apply joinPaths_clean.
  destruct (normalizeBasePath_rooted b) as [->|[r ->]]; [now left|].
  right. apply TrimSpace_rooted.
Qed.

(** From the configuration file to the routes.  When [Load] accepts a
    configuration and [ResolveRelays] resolves it, there is one resolved
    relay per relay of the file and at least one; each has a listen path
    that is a clean absolute path, an ID of sixteen characters derived
    from that path, without comma or white space, so that the loop check
    of the handler is in force for it; methods, none of them empty; and
    destinations, each with a URL that is not blank.  Every pattern that
    [New] registers is a clean absolute path, and it is the listen path of
    its relay when that path has no white space at its end. *)
Theorem resolved_relays_valid (ToUpper : string -> string)
    (cfg c : configfile.Config) (entropy : nat -> option string)
    (res : list config.ResolvedRelay) :
  configfile.LoadDecoded ToUpper cfg = Some c ->
  configfile.ResolveRelays c entropy = inr res ->
  List.length res = List.length (configfile.Relays cfg)
  /\ res <> []
  /\ Forall (fun r' =>
       isCleanAbs (config.ListenPath r') = true
       /\ config.ID r' = relayID (config.ListenPath r')
       /\ String.length (config.ID r') = 16
       /\ TrimSpace (config.ID r') = config.ID r'
       /\ Str.contains_byte "," (config.ID r') = false
       /\ config.Methods r' <> []
       /\ Forall (fun m => m <> "") (config.Methods r')
       /\ config.Destinations r' <> []
       /\ Forall (fun d => TrimSpace (config.URL d) <> "") (config.Destinations r')
       /\ (TrimSpace (config.ListenPath r') = config.ListenPath r' ->
           server.cleanPath (config.ListenPath r') = config.ListenPath r')) res
  /\ Forall (fun p => isCleanAbs p = true) (routePatterns res).
Proof.
  intros Hload Hres.
  destruct (LoadDecoded_inv ToUpper cfg c Hload)
    as (_ & _ & _ & _ & _ & _ & Hbase & Hne & Hlen & Hvalid).
  unfold configfile.ResolveRelays in Hres.
  apply resolveFrom_inr in Hres as [Hlen' Hk].
  split; [congruence|].
  split; [intros ->; destruct (configfile.Relays c); [congruence|discriminate]|].
  split.
  - apply Forall_lookup. intros k r' Hr'.
    destruct (lookup_lt_is_Some_2 (configfile.Relays c) k) as [r Hr].
    { rewrite <- Hlen'. now apply lookup_lt_Some in Hr'. }
    destruct (Hk k r Hr) as (lp & Hlp & Hres). rewrite Hres in Hr'.
    injection Hr' as <-.
    cbn [configfile.resolved config.ListenPath config.ID config.Methods
         config.Destinations].
    rewrite Forall_lookup in Hvalid.
    destruct (Hvalid k r Hr) as (Hm & Hms & Hd & Hds & _).
    destruct (relayID_plain lp) as (Ht & _ & Hc).
    assert (isCleanAbs lp = true) as Hclean.
    { rewrite Hbase in Hlp.
      apply resolvePath_Some in Hlp as [[_ ->]|(_ & b & _ & ->)];
        apply joinPaths_normalized_clean. }
    split; [exact Hclean|]. split; [reflexivity|].
    split; [apply relayID_length|]. split; [exact Ht|]. split; [exact Hc|].
    split; [exact Hm|]. split; [exact Hms|]. split; [exact Hd|].
    split; [exact Hds|]. now apply cleanPath_fixed.
  - unfold routePatterns. constructor; [reflexivity|].
    apply List.Forall_map, List.Forall_forall. intros r' _. apply cleanPath_clean.
Qed.

Lemma resolved_relays_valid_witness :
  match configfile.LoadDecoded asciiToUpper sample.fileConfig with
  | Some c =>
      match configfile.ResolveRelays c sample.entropy with
      | inr res => List.length res = 2
      | inl _ => False
      end
  | None => False
  end.
Proof.
  destruct (configfile.LoadDecoded asciiToUpper sample.fileConfig) as [c|] eqn:E;
    [|vm_compute in E; discriminate E].
  destruct (configfile.ResolveRelays c sample.entropy) as [j|res] eqn:E'.
  - vm_compute in E. injection E as <-. vm_compute in E'. discriminate E'.
  - exact (proj1 (resolved_relays_valid asciiToUpper sample.fileConfig c
                    sample.entropy res E E')).
Defined.

(** ** The limits of the forwarder *)

Lemma wrap64_small (z : Z) :
  (-9223372036854775808 <= z < 9223372036854775808)%Z -> configfile.wrap64 z = z.
Proof. intros H. unfold configfile.wrap64. rewrite Z.mod_small; lia. Qed.

Lemma wrap64_over (z : Z) :
  (9223372036854775808 <= z < 18446744073709551616)%Z ->
  configfile.wrap64 z = (z - 18446744073709551616)%Z.
Proof.
  intros H. unfold configfile.wrap64.
  replace (z + 9223372036854775808)%Z
    with ((z - 9223372036854775808) + 1 * 18446744073709551616)%Z by lia.
  rewrite Z.mod_add by lia. rewrite Z.mod_small; lia.
Qed.

Lemma NewForwarder_positive (fc : forwarder.ForwarderConfig) :
  (0 < forwarder.capacity (forwarder.NewForwarder fc))%Z
  /\ (0 < forwarder.timeout (forwarder.NewForwarder fc))%Z.
Proof.
  unfold forwarder.NewForwarder. cbn [forwarder.capacity forwarder.timeout].
  split.
  - destruct (Z.leb_spec (forwarder.Concurrency fc) 0); lia.
  - destruct (Z.leb_spec (forwarder.ForwardTimeout fc) 0);
      [unfold configfile.Second|]; lia.
Qed.

(** The forwarder that [main] builds.  Whatever configuration
    [NewForwarder] gets, the capacity of its semaphore and its timeout
    are positive.  Built from a configuration that [Load] returned, the
    capacity is the concurrency of the configuration, and the timeout is
    the configured number of milliseconds as long as that number, in
    nanoseconds, fits a signed 64-bit integer (up to 9223372036854 ms);
    just above, the multiplication wraps to a negative duration and the
    forwarder falls back to its default of ten seconds. *)
Theorem ofConfig_limits (ToUpper : string -> string) (cfg c : configfile.Config) :
  configfile.LoadDecoded ToUpper cfg = Some c ->
  let f := forwarder.ofConfig c in
  let ms := configfile.ForwardTimeoutMS (configfile.Server c) in
  (forall fc, (0 < forwarder.capacity (forwarder.NewForwarder fc))%Z
              /\ (0 < forwarder.timeout (forwarder.NewForwarder fc))%Z)
  /\ forwarder.capacity f = configfile.Concurrency (configfile.Server c)
  /\ ((ms <= 9223372036854)%Z -> forwarder.timeout f = (ms * 1000000)%Z)
  /\ ((9223372036854 < ms <= 18446744073709)%Z ->
      forwarder.timeout f = 10000000000%Z)
  /\ ((configfile.ForwardTimeoutMS (configfile.Server cfg) <= 0)%Z ->
      forwarder.timeout f = 10000000000%Z).
Proof.
  intros Hload f ms.
  destruct (LoadDecoded_inv ToUpper cfg c Hload)
    as (_ & Hconc & Hms & _ & _ & Hdef & _).
  fold ms in Hms.
  assert (configfile.ForwardTimeout (configfile.Server c)
          = configfile.wrap64 (ms * 1000000)%Z) as Hft.
  { unfold configfile.ForwardTimeout, configfile.Millisecond. fold ms.
    destruct (Z.leb_spec ms 0); [lia|reflexivity]. }
  split; [exact NewForwarder_positive|].
  unfold f, forwarder.ofConfig, forwarder.NewForwarder.
  cbn [forwarder.capacity forwarder.timeout forwarder.Concurrency
       forwarder.ForwardTimeout].
  rewrite Hft. split; [|split; [|split]].
  - destruct (Z.leb_spec (configfile.Concurrency (configfile.Server c)) 0);
      [lia|reflexivity].
  - intros Hle. rewrite wrap64_small by lia.
    destruct (Z.leb_spec (ms * 1000000) 0); [lia|reflexivity].
  - intros Hgt. rewrite wrap64_over by lia.
    destruct (Z.leb_spec (ms * 1000000 - 18446744073709551616) 0);
      [reflexivity|lia].
  - intros Hle. unfold ms. rewrite (Hdef Hle). reflexivity.
Qed.

Lemma ofConfig_limits_witness :
  match configfile.LoadDecoded asciiToUpper sample.fileConfig with
  | Some c =>
      forwarder.capacity (forwarder.ofConfig c) = 8%Z
      /\ forwarder.timeout (forwarder.ofConfig c) = 10000000000%Z
  | None => False
  end.
Proof.
  destruct (configfile.LoadDecoded asciiToUpper sample.fileConfig) as [c|] eqn:E;
    [|vm_compute in E; discriminate E].
  destruct (ofConfig_limits asciiToUpper sample.fileConfig c E)
    as (_ & H2 & _ & _ & H5).
  split; [|apply H5; vm_compute; discriminate].
  rewrite H2. vm_compute in E. now injection E as <-.
Defined.

(** ** The semaphore *)

Lemma running_app (ps qs : list forwarder.Phase) :
  forwarder.running (ps ++ qs) = forwarder.running ps + forwarder.running qs.
Proof. unfold forwarder.running. now rewrite List.filter_app, length_app. Qed.

Lemma running_repeat_Waiting (n : nat) :
  forwarder.running (List.repeat forwarder.Waiting n) = 0.
Proof. induction n as [|n IH]; [reflexivity|exact IH]. Qed.

Lemma running_cons (p : forwarder.Phase) (ps : list forwarder.Phase) :
  forwarder.running (p :: ps)
  = (if forwarder.isRunning p then 1 else 0) + forwarder.running ps.
Proof. unfold forwarder.running. simpl. now destruct (forwarder.isRunning p). Qed.

Lemma running_insert (ps : list forwarder.Phase) (i : nat) (p q : forwarder.Phase) :
  ps !! i = Some p ->
  forwarder.running (<[i := q]> ps) + (if forwarder.isRunning p then 1 else 0)
  = forwarder.running ps + (if forwarder.isRunning q then 1 else 0).
Proof.
  revert i. induction ps as [|x ps IH]; intros i H; [discriminate H|].
  destruct i as [|i]; simpl in H.
  - injection H as ->. change (<[0 := q]> (p :: ps)) with (q :: ps).
    rewrite !running_cons. lia.
  - change (<[S i := q]> (x :: ps)) with (x :: <[i := q]> ps).
    rewrite !running_cons. specialize (IH i H). lia.
Qed.

Lemma running_In (ps : list forwarder.Phase) :
  0 < forwarder.running ps -> In forwarder.Running ps.
Proof.
  induction ps as [|p ps IH]; [unfold forwarder.running; simpl; lia|].
  rewrite running_cons. destruct p; simpl; auto.
Qed.

Lemma step_invariant (s t : forwarder.Pool) :
  forwarder.step s t ->
  forwarder.held s = forwarder.running (forwarder.phases s)
  /\ forwarder.held s <= forwarder.cap s ->
  forwarder.cap t = forwarder.cap s
  /\ forwarder.held t = forwarder.running (forwarder.phases t)
  /\ forwarder.held t <= forwarder.cap t.
Proof.
  intros Hstep [Hh Hc].
  destruct Hstep as [s n|s i Hi Hlt|s i Hi|s i Hi];
    cbn [forwarder.cap forwarder.held forwarder.phases];
    (split; [reflexivity|]).
  - rewrite running_app, running_repeat_Waiting. lia.
  - pose proof (running_insert _ i _ forwarder.Running Hi) as H. simpl in H. lia.
  - pose proof (running_insert _ i _ forwarder.Finished Hi) as H. simpl in H. lia.
  - pose proof (running_insert _ i _ forwarder.Abandoned Hi) as H. simpl in H. lia.
Qed.

(** The semaphore bounds the attempts in flight.  In every state that
    the pool of a forwarder reaches, whatever [ForwardAsync] starts and
    however the goroutines interleave, the channel holds one value per
    attempt that is between its send and its deferred receive, and these
    are never more than the capacity that [NewForwarder] chose, which is
    positive.  So an attempt that waits is never stuck for good: either
    the channel has room for its send, or an attempt is running whose
    return will make room. *)
Theorem pool_bounded (fc : forwarder.ForwarderConfig) (s : forwarder.Pool) :
  forwarder.reach (forwarder.start (forwarder.NewForwarder fc)) s ->
  forwarder.cap s = Z.to_nat (forwarder.capacity (forwarder.NewForwarder fc))
  /\ 0 < forwarder.cap s
  /\ forwarder.held s = forwarder.running (forwarder.phases s)
  /\ forwarder.running (forwarder.phases s) <= forwarder.cap s
  /\ (In forwarder.Waiting (forwarder.phases s) ->
      forwarder.held s < forwarder.cap s \/ In forwarder.Running (forwarder.phases s)).
Proof.
  intros Hreach.
  assert (forwarder.cap s = Z.to_nat (forwarder.capacity (forwarder.NewForwarder fc))
          /\ forwarder.held s = forwarder.running (forwarder.phases s)
          /\ forwarder.held s <= forwarder.cap s) as (Hcap & Hheld & Hle).
  { induction Hreach as [|t u _ (IH1 & IH2 & IH3) Hstep].
    - repeat split. simpl. lia.
    - destruct (step_invariant t u Hstep (conj IH2 IH3)) as (H1 & H2 & H3).
      split; [congruence|]. now split. }
  pose proof (proj1 (NewForwarder_positive fc)) as Hpos.
  split; [exact Hcap|]. split; [lia|]. split; [exact Hheld|]. split; [lia|].
  intros _. destruct (Nat.lt_ge_cases (forwarder.held s) (forwarder.cap s)) as [H|H];
    [now left|].
  right. apply running_In. lia.
Qed.

Lemma pool_bounded_witness :
  forwarder.running [forwarder.Running; forwarder.Waiting] <= 1.
Proof.
  pose (fc := {| forwarder.Concurrency := 1; forwarder.ForwardTimeout := 0 |}).
  pose (s0 := forwarder.start (forwarder.NewForwarder fc)).
  pose (s1 := {| forwarder.cap := 1; forwarder.held := 0;
                 forwarder.phases := [forwarder.Waiting; forwarder.Waiting] |}).
  pose (s2 := {| forwarder.cap := 1; forwarder.held := 1;
                 forwarder.phases := [forwarder.Running; forwarder.Waiting] |}).
  assert (forwarder.reach s0 s2) as Hreach.
  { apply (forwarder.reach_step s0 s1 s2).
    - apply (forwarder.reach_step s0 s0 s1); [constructor|].
      exact (forwarder.step_spawn s0 2).
    - refine (forwarder.step_acquire s1 0 _ _); [reflexivity|simpl; lia]. }
  exact (proj1 (proj2 (proj2 (proj2 (pool_bounded fc s2 Hreach))))).
Defined.

(** ** What the copy keeps *)

Lemma canonByte_idem (upper : bool) (c : ascii) :
  canonByte upper (canonByte upper c) = canonByte upper c.
Proof.
  destruct upper; destruct c as [[] [] [] [] [] [] [] []]; reflexivity.
Qed.

Lemma validHeaderFieldByte_canonByte (upper : bool) (c : ascii) :
  validHeaderFieldByte (canonByte upper c) = validHeaderFieldByte c.
Proof.
  destruct upper; destruct c as [[] [] [] [] [] [] [] []]; reflexivity.
Qed.

Lemma allBytes_canonicalLoop (upper : bool) (s : string) :
  allBytes validHeaderFieldByte (canonicalLoop upper s)
  = allBytes validHeaderFieldByte s.
Proof.
  revert upper. induction s as [|c s IH]; intros upper; [reflexivity|].
  cbn [canonicalLoop allBytes]. now rewrite validHeaderFieldByte_canonByte, IH.
Qed.

Lemma canonicalLoop_idem (upper : bool) (s : string) :
  canonicalLoop upper (canonicalLoop upper s) = canonicalLoop upper s.
Proof.
  revert upper. induction s as [|c s IH]; intros upper; [reflexivity|].
  cbn [canonicalLoop]. now rewrite canonByte_idem, IH.
Qed.

Lemma CanonicalHeaderKey_idem (k : string) :
  CanonicalHeaderKey (CanonicalHeaderKey k) = CanonicalHeaderKey k.
Proof.
  unfold CanonicalHeaderKey.
  destruct (allBytes validHeaderFieldByte k) eqn:E.
  - rewrite allBytes_canonicalLoop, E. apply canonicalLoop_idem.
  - now rewrite E.
Qed.

Lemma fold_Add_lookup_eq (k : string) (vv : list string)
    (d : gmap string (list string)) :
  List.fold_left (fun d v => Header.Add d k v) vv d !! CanonicalHeaderKey k
  = match vv with
    | [] => d !! CanonicalHeaderKey k
    | _ => Some (default [] (d !! CanonicalHeaderKey k) ++ vv)
    end.
Proof.
  revert d. induction vv as [|v vv IH]; intros d; [reflexivity|].
  simpl. rewrite IH, Header_Add_lookup.
  destruct (decide _) as [_|E]; [|now elim E].
  destruct vv; [reflexivity|]. simpl. now rewrite <- List.app_assoc.
Qed.

Lemma copy_fold_lookup (l : list (string * list string))
    (dst : gmap string (list string)) (c : string) :
  NoDup (l.*1) ->
  (forall k vv, (k, vv) ∈ l -> CanonicalHeaderKey k = k) ->
  List.fold_left
    (fun dst kvv =>
       let ck := CanonicalHeaderKey (fst kvv) in
       if relay.isHopByHopHeader ck then dst
       else List.fold_left (fun d v => Header.Add d (fst kvv) v) (snd kvv) dst)
    l dst !! c
  = match
      (if relay.isHopByHopHeader c then None
       else (list_to_map l : gmap string (list string)) !! c)
    with
    | Some (v :: vs) => Some (default [] (dst !! c) ++ v :: vs)
    | _ => dst !! c
    end.
Proof.
  revert dst. induction l as [|[k vv] l IH]; intros dst Hnd Hcan.
  - simpl. rewrite lookup_empty. now destruct (relay.isHopByHopHeader c).
  - rewrite fmap_cons in Hnd. apply NoDup_cons in Hnd as [Hk Hnd].
    assert (CanonicalHeaderKey k = k) as Hck by (apply (Hcan k vv); now left).
    cbn [List.fold_left fst snd]. rewrite IH; [|exact Hnd|].
    2:{ intros k' vv' Hin. apply (Hcan k' vv'). now right. }
    cbn [list_to_map foldr]. unfold curry. cbn [fst snd]. rewrite Hck.
    destruct (decide (k = c)) as [->|Hne].
    + rewrite lookup_insert_eq.
      rewrite (not_elem_of_list_to_map_1 (M := gmap string) l c Hk).
      destruct (relay.isHopByHopHeader c); [reflexivity|].
      pose proof (fold_Add_lookup_eq c vv dst) as H. rewrite Hck in H.
      rewrite H. now destruct vv.
    + rewrite lookup_insert_ne by exact Hne.
      assert ((if relay.isHopByHopHeader k then dst
               else List.fold_left (fun d v => Header.Add d k v) vv dst) !! c
              = dst !! c) as ->; [|reflexivity].
      destruct (relay.isHopByHopHeader k); [reflexivity|].
      apply fold_Add_lookup. congruence.
Qed.

Lemma copyHeaders_lookup
    (rangeHeader : gmap string (list string) -> list (string * list string))
    (src : gmap string (list string)) (c : string) :
  (forall m, rangeHeader m ≡ₚ map_to_list m) ->
  (forall k vv, src !! k = Some vv -> CanonicalHeaderKey k = k) ->
  relay.copyHeaders rangeHeader ∅ src !! c
  = if relay.isHopByHopHeader c then None
    else match src !! c with
         | Some (v :: vs) => Some (v :: vs)
         | _ => None
         end.
Proof.
  intros Hperm Hcan. unfold relay.copyHeaders.
  rewrite copy_fold_lookup.
  - rewrite (list_to_map_proper (rangeHeader src) (map_to_list src)).
    + rewrite list_to_map_to_list, lookup_empty.
      destruct (relay.isHopByHopHeader c); [reflexivity|].
      now destruct (src !! c) as [[|v vs]|].
    + rewrite (Hperm src). apply NoDup_fst_map_to_list.
    + apply Hperm.
  - rewrite (Hperm src). apply NoDup_fst_map_to_list.
  - intros k vv Hin. rewrite (Hperm src) in Hin.
    apply elem_of_map_to_list in Hin. now apply (Hcan k vv).
Qed.

(** [copyHeaders] into an empty header map, from a header map whose
    names are in canonical form (as the HTTP server delivers them), in
    whatever order the map is visited: a name that is not hop-by-hop
    arrives with all its values in their order, a name without values
    does not arrive, and nothing arrives under a hop-by-hop name or under
    a name the source does not have. *)
Theorem copyHeaders_correct
    (rangeHeader : gmap string (list string) -> list (string * list string))
    (src : gmap string (list string)) :
  (forall m, rangeHeader m ≡ₚ map_to_list m) ->
  (forall k vv, src !! k = Some vv -> CanonicalHeaderKey k = k) ->
  forall c,
    relay.copyHeaders rangeHeader ∅ src !! c
    = (if relay.isHopByHopHeader c then None
       else match src !! c with
            | Some (v :: vs) => Some (v :: vs)
            | _ => None
            end)
    /\ Header.Get (relay.copyHeaders rangeHeader ∅ src) c
       = (if relay.isHopByHopHeader c then "" else Header.Get src c).
Proof.
  intros Hperm Hcan c.
  split; [now apply copyHeaders_lookup|].
  unfold Header.Get. rewrite (copyHeaders_lookup _ _ _ Hperm Hcan).
  assert (relay.isHopByHopHeader (CanonicalHeaderKey c) = relay.isHopByHopHeader c)
    as ->.
  { unfold relay.isHopByHopHeader. now rewrite CanonicalHeaderKey_idem. }
  destruct (relay.isHopByHopHeader c); [reflexivity|].
  now destruct (src !! CanonicalHeaderKey c) as [[|v vs]|].
Qed.

Lemma copyHeaders_correct_witness :
  relay.copyHeaders map_to_list ∅ (http.Header sample.fresh) !! "Content-Type"
  = Some ["application/json"]
  /\ relay.copyHeaders map_to_list ∅ (http.Header sample.fresh) !! "Connection"
     = None.
Proof.
  assert (forall k vv, http.Header sample.fresh !! k = Some vv ->
            CanonicalHeaderKey k = k) as Hcan.
  { intros k vv H. apply elem_of_map_to_list in H. vm_compute in H.
    repeat (apply elem_of_cons in H as [[= -> _]|H]; [reflexivity|]).
    now apply not_elem_of_nil in H. }
  split.
  - exact (proj1 (copyHeaders_correct map_to_list (http.Header sample.fresh)
                    (fun m => reflexivity _) Hcan "Content-Type")).
  - exact (proj1 (copyHeaders_correct map_to_list (http.Header sample.fresh)
                    (fun m => reflexivity _) Hcan "Connection")).
Defined.

(** ** The trace across a hop *)

Lemma appendTrace_trim_id (t id : string) :
  appendTrace t (TrimSpace id) = appendTrace t id.
Proof. unfold appendTrace. now rewrite TrimSpace_idem. Qed.

(** The trace header that a forward attempt sends, when no override of
    the destination names it, the relay has an ID without comma that is
    not blank, and the names of the inbound header map are in canonical
    form.  It is one field line: the first trace line of the inbound
    request with the ID of the relay appended by [appendTrace] (later
    trace lines of the inbound request are not carried on).  So the IDs
    found in the outbound trace are those found in the first inbound
    trace line, and the ID of the relay: a hop loses no entry, and a relay
    further on that is already in the trace still finds itself there. *)
Theorem forwardOne_trace_propagated
    (rangeHeader : gmap string (list string) -> list (string * list string))
    (rangeOverrides : gmap string string -> list (string * string))
    (urlHost : string -> option string) (a : relay.Attempt) (out : http.Request) :
  (forall m, rangeHeader m ≡ₚ map_to_list m) ->
  (forall m, rangeOverrides m ≡ₚ map_to_list m) ->
  (forall k vv, http.Header (relay.at_inbound a) !! k = Some vv ->
     CanonicalHeaderKey k = k) ->
  (forall k v, config.Headers (relay.at_dest a) !! k = Some v ->
     CanonicalHeaderKey k <> "X-Webhookrelay-Trace") ->
  TrimSpace (relay.at_relayID a) <> "" ->
  Str.contains_byte "," (relay.at_relayID a) = false ->
  relay.forwardOne rangeHeader rangeOverrides urlHost true a = Some out ->
  let inTrace := Header.Get (http.Header (relay.at_inbound a)) "X-WebhookRelay-Trace" in
  let outTrace := Header.Get (http.Header out) "X-WebhookRelay-Trace" in
  http.Header out !! "X-Webhookrelay-Trace" = Some [outTrace]
  /\ outTrace = appendTrace inTrace (relay.at_relayID a)
  /\ (forall other,
        traceContains outTrace other
        = traceContains inTrace other
          || (negb (Str.is_empty (TrimSpace other))
              && String.eqb (TrimSpace (relay.at_relayID a)) (TrimSpace other)))
  /\ traceContains outTrace (relay.at_relayID a) = true.
Proof.
  intros HpermH HpermO Hcan Hov Hid Hcomma Hout inTrace outTrace.
  pose proof (forwardOne_header _ _ _ _ _ Hout) as Hh. cbv zeta in Hh.
  rewrite (proj2 (is_empty_false _) Hid) in Hh. cbn [negb] in Hh.
  set (copied := Header.Del _ "Host") in Hh.
  set (h := relay.applyHeaderOverrides rangeOverrides copied _) in Hh.
  assert (Header.Get h relay.HeaderTrace = inTrace) as Hget.
  { unfold Header.Get at 1. rewrite canonical_HeaderTrace.
    unfold h, relay.applyHeaderOverrides. rewrite applyOverrides_lookup.
    rewrite lastOverride_None.
    - unfold copied. rewrite Header_Del_lookup.
      destruct (decide _) as [E|_]; [discriminate E|].
      rewrite (copyHeaders_lookup _ _ _ HpermH Hcan).
      change (relay.isHopByHopHeader "X-Webhookrelay-Trace") with false.
      cbn match. unfold inTrace, Header.Get.
      change (CanonicalHeaderKey "X-WebhookRelay-Trace") with "X-Webhookrelay-Trace".
      now destruct (_ !! "X-Webhookrelay-Trace") as [[|v vs]|].
    - intros k v Hkv. rewrite (HpermO _) in Hkv.
      apply elem_of_map_to_list in Hkv. unfold overrideApplies. cbn [fst].
      apply Hov in Hkv. apply String.eqb_neq in Hkv. rewrite Hkv.
      apply andb_false_r. }
  rewrite Hget, appendTrace_trim_id in Hh.
  assert (http.Header out !! "X-Webhookrelay-Trace"
          = Some [appendTrace inTrace (relay.at_relayID a)]) as Hlook.
  { rewrite Hh, Header_Set_lookup, canonical_HeaderRequestID.
    destruct (decide _) as [E|_]; [discriminate E|].
    rewrite Header_Set_lookup, canonical_HeaderTrace.
    destruct (decide _) as [_|E]; [reflexivity|now elim E]. }
  assert (outTrace = appendTrace inTrace (relay.at_relayID a)) as Hout'.
  { unfold outTrace, Header.Get.
    change (CanonicalHeaderKey "X-WebhookRelay-Trace") with "X-Webhookrelay-Trace".
    now rewrite Hlook. }
  split; [now rewrite Hout'|]. split; [exact Hout'|].
  assert (forall other,
            traceContains outTrace other
            = traceContains inTrace other
              || (negb (Str.is_empty (TrimSpace other))
                  && String.eqb (TrimSpace (relay.at_relayID a)) (TrimSpace other)))
    as Hmem.
  { intros other. rewrite Hout'. now apply traceContains_appendTrace_cases. }
  split; [exact Hmem|].
  rewrite Hmem, (proj2 (is_empty_false _) Hid), String.eqb_refl.
  apply orb_true_r.
Qed.

Lemma forwardOne_trace_propagated_witness :
  match
    relay.forwardOne map_to_list map_to_list sample.urlHost true sample.attemptA
  with
  | Some out =>
      http.Header out !! "X-Webhookrelay-Trace" = Some ["zzz,n7bnaul23xjjk7a3"]
  | None => False
  end.
Proof.
  destruct (relay.forwardOne map_to_list map_to_list sample.urlHost true
              sample.attemptA) as [out|] eqn:E; [|vm_compute in E; discriminate E].
  assert (forall k vv, http.Header (relay.at_inbound sample.attemptA) !! k = Some vv ->
            CanonicalHeaderKey k = k) as Hcan.
  { intros k vv H. apply elem_of_map_to_list in H. vm_compute in H.
    repeat (apply elem_of_cons in H as [[= -> _]|H]; [reflexivity|]).
    now apply not_elem_of_nil in H. }
  assert (forall k v, config.Headers (relay.at_dest sample.attemptA) !! k = Some v ->
            CanonicalHeaderKey k <> "X-Webhookrelay-Trace") as Hov.
  { intros k v H. apply elem_of_map_to_list in H. vm_compute in H.
    repeat (apply elem_of_cons in H as [[= -> _]|H]; [discriminate|]).
    now apply not_elem_of_nil in H. }
  assert (TrimSpace (relay.at_relayID sample.attemptA) <> "") as Hid
    by (vm_compute; discriminate).
  destruct (forwardOne_trace_propagated map_to_list map_to_list sample.urlHost
              sample.attemptA out (fun m => reflexivity _) (fun m => reflexivity _)
              Hcan Hov Hid eq_refl E) as (H1 & H2 & _).
  rewrite H1, H2. reflexivity.
Defined.

(** ** The base path *)

Lemma string_last (s : string) :
  s <> "" -> exists s' d, s = s' +:+ String d "".
Proof.
  induction s as [|c s IH]; [congruence|]. intros _.
  destruct s as [|c' s].
  - now exists "", c.
  - destruct IH as (s' & d & E); [discriminate|].
    exists (String c s'), d. now rewrite str_app_cons, <- E.
Qed.

Lemma TrimRight_last (s : string) (d c : ascii) :
  d <> c -> TrimRight (s +:+ String d "") c = s +:+ String d "".
Proof.
  intros Hd. induction s as [|a s IH].
  - simpl. now apply Ascii.eqb_neq in Hd as ->.
  - rewrite str_app_cons. cbn [TrimRight]. rewrite IH.
    destruct s; reflexivity.
Qed.

Lemma isCleanAbs_TrimRight (s : string) :
  isCleanAbs s = true -> s <> "/" -> TrimRight s "/" = s.
Proof.
  intros Hc Hne. destruct (isCleanAbs_inv s Hc) as (es & Hes & ->).
  destruct (exists_last (l := es)) as (es' & e & ->).
  { intros ->. apply Hne. reflexivity. }
  apply Forall_app in Hes as [_ He]. apply Forall_cons in He as [[He1 He2] _].
  destruct (string_last e) as (e' & d & ->).
  { intros ->. discriminate He1. }
  assert (d <> "/"%char) as Hd.
  { intros ->. rewrite contains_byte_app in He2.
    simpl in He2. now rewrite orb_true_r in He2. }
  rewrite Join_snoc.
  destruct es'.
  - rewrite <- str_app_assoc. now apply TrimRight_last.
  - rewrite <- !str_app_assoc. now apply TrimRight_last.
Qed.

(** The base path as [Load] leaves it is empty or a clean absolute path
    other than the slash: a leading slash, then elements separated by
    single slashes, none of them empty, [.] or [..], and no slash at the
    end.  It is empty exactly when the configured path is blank or cleans
    to the slash, and otherwise it is the configured path, trimmed, with
    a leading slash, as [path.Clean] returns it: the final [TrimRight]
    finds no slash to cut.  Normalising again changes nothing, as long
    as the path does not end in white space. *)
Theorem normalizeBasePath_shape (b : string) :
  let n := normalizeBasePath b in
  let cleaned := path.Clean (withLeadingSlash (TrimSpace b)) in
  (n = "" <-> TrimSpace b = "" \/ cleaned = "/")
  /\ (n <> "" ->
      n = cleaned /\ isCleanAbs n = true /\ n <> "/" /\ TrimRight n "/" = n)
  /\ (TrimSpace n = n -> normalizeBasePath n = n).
Proof.
  cbv zeta.
  assert (forall x,
            normalizeBasePath x
            = if String.eqb (TrimSpace x) "" then ""
              else if String.eqb (path.Clean (withLeadingSlash (TrimSpace x))) "/"
                   then "" else path.Clean (withLeadingSlash (TrimSpace x))) as Hform.
  { intros x. unfold normalizeBasePath, withLeadingSlash.
    destruct (String.eqb_spec (TrimSpace x) "") as [E|E]; [reflexivity|].
    destruct (String.eqb_spec (TrimSpace x) "/") as [E'|E'].
    - rewrite E'. reflexivity.
    - cbn [orb]. destruct (withSlash_rooted (TrimSpace x)) as [y ->].
      destruct (String.eqb_spec (path.Clean (String "/" y)) "/") as [Ec|Ec];
        [reflexivity|].
      apply isCleanAbs_TrimRight; [apply Clean_rooted|exact Ec]. }
  assert (TrimSpace b <> "" ->
          isCleanAbs (path.Clean (withLeadingSlash (TrimSpace b))) = true) as Hclean.
  { intros E. unfold withLeadingSlash.
    apply String.eqb_neq in E. rewrite E.
    destruct (withSlash_rooted (TrimSpace b)) as [y ->]. apply Clean_rooted. }
  assert (normalizeBasePath b <> "" ->
          normalizeBasePath b = path.Clean (withLeadingSlash (TrimSpace b))
          /\ isCleanAbs (normalizeBasePath b) = true
          /\ normalizeBasePath b <> "/"
          /\ TrimRight (normalizeBasePath b) "/" = normalizeBasePath b) as Hshape.
  { rewrite (Hform b).
    destruct (String.eqb_spec (TrimSpace b) "") as [E|E]; [congruence|].
    destruct (String.eqb_spec (path.Clean (withLeadingSlash (TrimSpace b))) "/")
      as [Ec|Ec]; [congruence|].
    intros _. split; [reflexivity|]. split; [now apply Hclean|].
    split; [exact Ec|]. apply isCleanAbs_TrimRight; [now apply Hclean|exact Ec]. }
  split; [|split; [exact Hshape|]].
  - rewrite (Hform b).
    destruct (String.eqb_spec (TrimSpace b) "") as [E|E]; [split; auto|].
    destruct (String.eqb_spec (path.Clean (withLeadingSlash (TrimSpace b))) "/")
      as [Ec|Ec]; [split; auto|].
    split; [|intros [H|H]; contradiction].
    intros H. specialize (Hclean E). rewrite H in Hclean. discriminate Hclean.
  - intros Ht.
    destruct (String.eqb_spec (normalizeBasePath b) "") as [E|E];
      [rewrite E; reflexivity|].
    destruct (Hshape E) as (_ & Hc & Hne & _).
    rewrite (Hform (normalizeBasePath b)), Ht.
    apply String.eqb_neq in E. rewrite E.
    assert (withLeadingSlash (normalizeBasePath b) = normalizeBasePath b) as ->.
    { unfold withLeadingSlash. rewrite E.
      assert (HasPrefix (normalizeBasePath b) "/" = true) as ->; [|reflexivity].
      apply HasPrefix_slash. now apply isCleanAbs_rooted. }
    rewrite (Clean_fixed _ Hc).
    apply String.eqb_neq in Hne. now rewrite Hne.
Qed.

(** ** Every outcome of the handler *)

